(** * The editor stacks model of the workbench

    A shallow embedding of [EditorGroup] and [EditorStacksModel]
    (src/vs/workbench/common/editor/editorStacksModel.ts) and of the part of
    the group view that decides whether an editor is opened pinned. *)

From Stdlib Require Import ZArith Lia List Bool.
From stdpp Require Import base option list gmap strings.

Local Open Scope Z_scope.

(** ** Editor inputs

    [EditorInput] is declared outside the model. The model uses four things
    of it: the identity of the object ([===]), [matches], [getId] and, for a
    [DiffEditorInput], the two inputs it wraps. [matches] is an equivalence
    (identity for the base class, equality of the resource for files). *)

Class EditorInputType (E : Type) := {
  input_eq_dec :: EqDecision E;
  input_matches : E -> E -> bool;
  getId : E -> string;
  diffInputs : E -> option (E * E);
  matches_refl : forall a, input_matches a a = true;
  matches_sym : forall a b, input_matches a b = input_matches b a;
  matches_trans : forall a b c,
    input_matches a b = true -> input_matches b c = true ->
    input_matches a c = true
}.

(** ** JavaScript arrays *)

Module JS.
Section Arrays.
Context {A : Type}.

(** [arr[i]]: [undefined] outside the array. *)
Definition get (l : list A) (i : Z) : option A :=
  if i <? 0 then None else l !! Z.to_nat i.

(** The start position of [Array.prototype.splice]: a negative start counts
    from the end, everything is clamped to the array. *)
Definition start_of (start : Z) (l : list A) : nat :=
  if start <? 0
  then Z.to_nat (Z.max (Z.of_nat (length l) + start) 0)
  else Nat.min (Z.to_nat start) (length l).

(** [arr.splice(start, deleteCount, ...items)], the array afterwards. *)
Definition splice (start : Z) (deleteCount : nat) (items l : list A) : list A :=
  let s := start_of start l in
  take s l ++ items ++ drop (s + deleteCount) l.

(** [arr.slice(0, n)]. *)
Definition slice0 (n : nat) (l : list A) : list A := take n l.

(** [arr.pop()]: the last element and the array afterwards. *)
Definition pop (l : list A) : option A * list A :=
  (last l, removelast l).

(** [arr[i] = x] on an array whose slots may be holes, for a number [i]
    that is an array index (an integer from 0 to 2^32 - 2): a position past
    the end extends the array with holes. For any other number the
    assignment sets a property that is not an element of the array, which
    the list does not represent: there is no result. *)
Definition store (i : Z) (x : A) (l : list (option A)) : option (list (option A)) :=
  if (0 <=? i) && (i <? 4294967295) then
    Some (if (Z.to_nat i <? length l)%nat then <[Z.to_nat i := Some x]> l
          else l ++ replicate (Z.to_nat i - length l) None ++ [Some x])
  else None.

(** [arr.indexOf(x)]: strict equality, holes are skipped. *)
Definition indexOf `{EqDecision A} (x : option A) (l : list (option A)) : Z :=
  match x with
  | None => -1
  | Some _ =>
      match list_find (fun y => y = x) l with
      | Some (i, _) => Z.of_nat i
      | None => -1
      end
  end.
End Arrays.
End JS.

(** [Direction] of vs/platform/editor/common/editor. *)
Inductive Direction := LEFT | RIGHT.

Definition direction_eqb (a b : Direction) : bool :=
  match a, b with
  | LEFT, LEFT | RIGHT, RIGHT => true
  | _, _ => false
  end.

Definition GroupIdentifier := nat.

Record IEditorOpenOptions := {
  opt_pinned : option bool;
  opt_active : option bool;
  opt_index : option Z
}.

Record ISerializedEditorInput := {
  ser_id : string;
  ser_value : string
}.

Record ISerializedEditorGroup := {
  ser_label : string;
  ser_editors : list ISerializedEditorInput;
  ser_mru : list Z;
  ser_preview : option Z
}.

Record ISerializedEditorStacksModel := {
  ser_groups : list ISerializedEditorGroup;
  ser_active : option Z;
  ser_lastClosed : option (list ISerializedEditorInput)
}.

(** What a piece of the source does with its caller: it returns, it throws,
    or it goes on with a value that the model does not represent
    ([undefined] inside an array of editors, a reference to a group that the
    store of the model does not hold). *)
Inductive Outcome (A : Type) :=
| Returns (a : A)
| Throws
| Unrepresented.
Arguments Returns {A} a.
Arguments Throws {A}.
Arguments Unrepresented {A}.

(** ** EditorGroup *)

Module Group.
Section WithInputs.
Context {E : Type} `{EditorInputType E}.

Record IGroupEvent := {
  ev_editor : E;
  ev_pinned : bool
}.

Record EditorGroup := {
  group_id : GroupIdentifier;
  label : string;
  editors : list E;
  mru : list E;
  preview : option E;
  active : option E;
  disposed : bool
}.

(** [new EditorGroup(label)] with the id taken from [EditorGroup.IDS]. *)
Definition create (id : GroupIdentifier) (l : string) : EditorGroup :=
  {| group_id := id; label := l; editors := []; mru := [];
     preview := None; active := None; disposed := false |}.

Definition set_editors (l : list E) (g : EditorGroup) : EditorGroup :=
  {| group_id := group_id g; label := label g; editors := l; mru := mru g;
     preview := preview g; active := active g; disposed := disposed g |}.
Definition set_mru (l : list E) (g : EditorGroup) : EditorGroup :=
  {| group_id := group_id g; label := label g; editors := editors g; mru := l;
     preview := preview g; active := active g; disposed := disposed g |}.
Definition set_preview (p : option E) (g : EditorGroup) : EditorGroup :=
  {| group_id := group_id g; label := label g; editors := editors g;
     mru := mru g; preview := p; active := active g; disposed := disposed g |}.
Definition set_active (a : option E) (g : EditorGroup) : EditorGroup :=
  {| group_id := group_id g; label := label g; editors := editors g;
     mru := mru g; preview := preview g; active := a; disposed := disposed g |}.
Definition set_label (l : string) (g : EditorGroup) : EditorGroup :=
  {| group_id := group_id g; label := l; editors := editors g;
     mru := mru g; preview := preview g; active := active g;
     disposed := disposed g |}.

(** [dispose()]: the emitters of the group are disposed, nothing it fires
    afterwards reaches a listener. *)
Definition dispose (g : EditorGroup) : EditorGroup :=
  {| group_id := group_id g; label := label g; editors := editors g;
     mru := mru g; preview := preview g; active := active g;
     disposed := true |}.

Definition count (g : EditorGroup) : nat := length (editors g).
Definition getEditor (g : EditorGroup) (index : Z) : option E :=
  JS.get (editors g) index.

(** [matches(editorA, editorB)]: both present and [editorA.matches(editorB)]. *)
Definition matches (editorA editorB : option E) : bool :=
  match editorA, editorB with
  | Some a, Some b => input_matches a b
  | _, _ => false
  end.

(** [indexOf(candidate, editors)]: the first position whose editor matches
    the candidate, -1 when there is none or the candidate is null. *)
Definition indexOf (candidate : option E) (l : list E) : Z :=
  match candidate with
  | None => -1
  | Some c =>
      match list_find (fun x => input_matches x c = true) l with
      | Some (i, _) => Z.of_nat i
      | None => -1
      end
  end.

Definition isActive (g : EditorGroup) (editor : option E) : bool :=
  matches (active g) editor.
Definition isPreview (g : EditorGroup) (editor : option E) : bool :=
  matches (preview g) editor.

Definition isPinned (g : EditorGroup) (editor : option E) : bool :=
  let index := indexOf editor (editors g) in
  if index =? -1 then false
  else match preview g with
       | None => true
       | Some _ => negb (matches (preview g) editor)
       end.

(** *** Events

    What the emitters of a group fire, each with the state of the group at
    the moment it is fired: the listeners run synchronously. *)
Inductive GroupEvent :=
| EditorActivated (e : E)
| EditorOpened (e : E)
| EditorClosed (ev : IGroupEvent)
| EditorMoved (e : E)
| EditorPinned (e : E)
| EditorUnpinned (e : E)
| EditorChanged (e : E).

Definition Fired : Type := GroupEvent * EditorGroup.

(** A method of the group: the state afterwards and what was fired. *)
Definition Cmd : Type := EditorGroup -> EditorGroup * list Fired.

Definition skip : Cmd := fun g => (g, []).
Definition andThen (c1 c2 : Cmd) : Cmd := fun g =>
  let r1 := c1 g in
  let r2 := c2 (fst r1) in
  (fst r2, snd r1 ++ snd r2).
Definition modify (f : EditorGroup -> EditorGroup) : Cmd := fun g => (f g, []).
Definition fire (ev : GroupEvent) : Cmd := fun g =>
  (g, if disposed g then [] else [(ev, g)]).

Fixpoint forEach {B : Type} (f : B -> Cmd) (l : list B) : Cmd :=
  match l with
  | [] => skip
  | x :: r => andThen (f x) (forEach f r)
  end.

Definition event_editor (ev : GroupEvent) : E :=
  match ev with
  | EditorActivated e | EditorOpened e | EditorMoved e | EditorPinned e
  | EditorUnpinned e | EditorChanged e => e
  | EditorClosed c => ev_editor c
  end.

(** [fireEvent(emitter, arg2)]: the emitter, then [_onEditorChanged]. *)
Definition fireEvent (ev : GroupEvent) : Cmd :=
  andThen (fire ev) (fire (EditorChanged (event_editor ev))).

(** [splice(index, del, editor?)]. The two calls of the source are
    [splice(i, false, editor)] and [splice(i, true)]. *)
Definition splice (index : Z) (del : bool) (editor : option E) : Cmd := fun g =>
  let editorToDeleteOrReplace := JS.get (editors g) index in
  let g1 :=
    set_editors (JS.splice index (if del then 1%nat else 0%nat)
                   (option_list editor) (editors g)) g in
  match del, editor with
  | false, Some e => (set_mru (mru g1 ++ [e]) g1, [])
  | _, _ =>
      let indexInMRU := indexOf editorToDeleteOrReplace (mru g1) in
      (set_mru (JS.splice indexInMRU 1 (option_list editor) (mru g1)) g1, [])
  end.

Definition setMostRecentlyUsed (editor : E) : Cmd := fun g =>
  let index := indexOf (Some editor) (editors g) in
  if index =? -1 then skip g
  else
    let mruIndex := indexOf (Some editor) (mru g) in
    (set_mru (editor :: JS.splice mruIndex 1 [] (mru g)) g, []).

Definition setActive (editor : option E) : Cmd := fun g =>
  let index := indexOf editor (editors g) in
  if index =? -1 then skip g
  else if matches (active g) editor then skip g
  else
    match editor with
    | None => skip g
    | Some e =>
        andThen (modify (set_active (Some e)))
          (andThen (setMostRecentlyUsed e)
             (fireEvent (EditorActivated e))) g
    end.

Definition closeEditor (editor : option E) (openNext : bool) : Cmd := fun g =>
  let index := indexOf editor (editors g) in
  if index =? -1 then skip g
  else
    match editor with
    | None => skip g
    | Some e =>
        andThen
          (fun g0 =>
             if openNext && matches (active g0) editor then
               if (1 <? length (mru g0))%nat
               then setActive (mru g0 !! 1%nat) g0
               else modify (set_active None) g0
             else skip g0)
          (fun g1 =>
             let pinned := negb (matches (preview g1) editor) in
             andThen
               (if pinned then skip else modify (set_preview None))
               (andThen (splice index true None)
                  (fireEvent
                     (EditorClosed {| ev_editor := e; ev_pinned := pinned |})))
               g1) g
    end.

Definition pin (editor : option E) : Cmd := fun g =>
  if negb (isPreview g editor) then skip g
  else
    match editor with
    | None => skip g
    | Some e =>
        andThen (modify (set_preview None)) (fireEvent (EditorPinned e)) g
    end.

Definition unpin (editor : option E) : Cmd := fun g =>
  if negb (isPinned g editor) then skip g
  else
    match editor with
    | None => skip g
    | Some e =>
        let oldPreview := preview g in
        andThen (modify (set_preview (Some e)))
          (andThen (fireEvent (EditorUnpinned e))
             (closeEditor oldPreview true)) g
    end.

Definition moveEditor (editor : option E) (toIndex : Z) : Cmd := fun g =>
  let index := indexOf editor (editors g) in
  if index <? 0 then skip g
  else
    match editor with
    | None => skip g
    | Some e =>
        andThen
          (modify (fun g0 =>
             set_editors
               (JS.splice toIndex 0 [e] (JS.splice index 1 [] (editors g0))) g0))
          (fireEvent (EditorMoved e)) g
    end.

Definition closeEditors (except : option E) (direction : option Direction)
  : Cmd := fun g =>
  let index := indexOf except (editors g) in
  if index =? -1 then skip g
  else
    match direction with
    | Some LEFT =>
        (* for (let i = index - 1; i >= 0; i--) *)
        forEach (fun i g0 => closeEditor (editors g0 !! i) true g0)
          (rev (seq 0 (Z.to_nat index))) g
    | Some RIGHT =>
        (* for (let i = this.editors.length - 1; i > index; i--) *)
        forEach (fun i g0 => closeEditor (editors g0 !! i) true g0)
          (rev (seq (S (Z.to_nat index))
                  (length (editors g) - S (Z.to_nat index)))) g
    | None =>
        forEach (fun e => closeEditor (Some e) true)
          (List.filter (fun e => negb (matches (Some e) except)) (mru g)) g
    end.

Definition closeAllEditors : Cmd := fun g =>
  andThen
    (forEach (fun e => closeEditor (Some e) true)
       (List.filter (fun e => negb (matches (Some e) (active g))) (mru g)))
    (fun g0 => closeEditor (active g0) true g0) g.

Definition is_true_opt (o : option bool) : bool :=
  match o with Some true => true | _ => false end.

(** [openEditor(editor, options?)]; [dir] is the value of
    [CONFIG_OPEN_EDITOR_DIRECTION] when the method is called. *)
Definition openEditor (dir : Direction) (editor : E)
    (options : option IEditorOpenOptions) : Cmd := fun g =>
  let index := indexOf (Some editor) (editors g) in
  let makePinned := from_option (fun o => is_true_opt (opt_pinned o)) false options in
  let makeActive :=
    from_option (fun o => is_true_opt (opt_active o)) false options
    || negb (bool_decide (is_Some (active g)))
    || (negb makePinned && matches (preview g) (active g)) in
  let optionsIndex := options ≫= opt_index in
  if index =? -1 then
    let indexOfActive := indexOf (active g) (editors g) in
    let targetIndex :=
      match optionsIndex with
      | Some i => i
      | None =>
          match dir with
          | RIGHT => indexOfActive + 1
          | LEFT =>
              if (indexOfActive =? 0) || (length (editors g) =? 0)%nat
              then 0 else indexOfActive - 1
          end
      end in
    andThen
      (if makePinned || negb (bool_decide (is_Some (preview g)))
       then splice targetIndex false (Some editor) else skip)
      (andThen
         (if makePinned then skip
          else
            andThen
              (fun g1 =>
                 match preview g1 with
                 | Some _ =>
                     let indexOfPreview := indexOf (preview g1) (editors g1) in
                     let targetIndex' :=
                       if targetIndex >=? indexOfPreview
                       then targetIndex - 1 else targetIndex in
                     andThen (closeEditor (preview g1) (negb makeActive))
                       (splice targetIndex' false (Some editor)) g1
                 | None => skip g1
                 end)
              (modify (set_preview (Some editor))))
         (andThen (fireEvent (EditorOpened editor))
            (if makeActive then setActive (Some editor) else skip))) g
  else
    andThen (if makePinned then pin (Some editor) else skip)
      (andThen (if makeActive then setActive (Some editor) else skip)
         (match optionsIndex with
          | Some i => moveEditor (Some editor) i
          | None => skip
          end)) g.

(** *** Serialization

    [Registry.as<IEditorRegistry>(Extensions.Editors)] is the table
    [getEditorInputFactory] of the factories per type id. A factory
    serializes an input to a string or to nothing. *)
Record IEditorInputFactory := {
  factory_serialize : E -> option string;
  factory_deserialize : string -> E
}.

Variable getEditorInputFactory : string -> option IEditorInputFactory.

(** One round of [this.editors.forEach] in [serialize]: the serializable
    editors so far, their serialized form and the index of the preview. *)
Definition serialize_editor (g : EditorGroup)
    (acc : list E * list ISerializedEditorInput * option Z) (e : E)
  : list E * list ISerializedEditorInput * option Z :=
  let '(serializableEditors, serializedEditors, serializablePreviewIndex) := acc in
  match getEditorInputFactory (getId e) with
  | Some factory =>
      match factory_serialize factory e with
      | Some value =>
          let serializableEditors' := serializableEditors ++ [e] in
          (serializableEditors',
           serializedEditors ++ [{| ser_id := getId e; ser_value := value |}],
           if bool_decide (preview g = Some e)
           then Some (Z.of_nat (length serializableEditors') - 1)
           else serializablePreviewIndex)
      | None => acc
      end
  | None => acc
  end.

Definition serialize (g : EditorGroup) : ISerializedEditorGroup :=
  let '(serializableEditors, serializedEditors, serializablePreviewIndex) :=
    fold_left (serialize_editor g) (editors g) ([], [], None) in
  let serializableMru :=
    List.filter (fun i => 0 <=? i)
      (map (fun e => indexOf (Some e) serializableEditors) (mru g)) in
  {| ser_label := label g;
     ser_editors := serializedEditors;
     ser_mru := serializableMru;
     ser_preview := serializablePreviewIndex |}.

(** [arr.map(f)] where [f] may throw or yield [undefined]. *)
Fixpoint mapOutcome {A B : Type} (f : A -> Outcome B) (l : list A)
  : Outcome (list B) :=
  match l with
  | [] => Returns []
  | x :: r =>
      match f x with
      | Returns y =>
          match mapOutcome f r with
          | Returns ys => Returns (y :: ys)
          | Throws => Throws
          | Unrepresented => Unrepresented
          end
      | Throws => Throws
      | Unrepresented => Unrepresented
      end
  end.

(** [new EditorGroup(data)] for a serialized group: the constructor followed
    by [deserialize(data)]. A type id without factory throws (a call on
    [undefined]); an index of [data.mru] outside [editors] leaves
    [undefined] in [mru]. *)
Definition deserialize (id : GroupIdentifier) (data : ISerializedEditorGroup)
  : Outcome EditorGroup :=
  match mapOutcome
          (fun e => match getEditorInputFactory (ser_id e) with
                    | Some factory =>
                        Returns (factory_deserialize factory (ser_value e))
                    | None => Throws
                    end) (ser_editors data) with
  | Returns eds =>
      match mapOutcome
              (fun i => match JS.get eds i with
                        | Some e => Returns e
                        | None => Unrepresented
                        end) (ser_mru data) with
      | Returns m =>
          Returns {| group_id := id; label := ser_label data;
                     editors := eds; mru := m;
                     preview := ser_preview data ≫= JS.get eds;
                     active := head m; disposed := false |}
      | Throws => Throws
      | Unrepresented => Unrepresented
      end
  | Throws => Throws
  | Unrepresented => Unrepresented
  end.

End WithInputs.
Arguments EditorGroup E : clear implicits.
Arguments IEditorInputFactory E : clear implicits.
Arguments IGroupEvent E : clear implicits.
Arguments GroupEvent E : clear implicits.
Arguments Fired E : clear implicits.
Arguments Cmd E : clear implicits.
End Group.

(** ** EditorStacksModel *)

Module Stacks.
Import Group.

Inductive ModelEventKind :=
| GroupOpened | GroupClosed | GroupActivated | GroupMoved | GroupRenamed
| ModelChanged.

(** What an emitter of the model fires: the emitter and the group. *)
Definition ModelEvent : Type := ModelEventKind * option GroupIdentifier.

(** The two keys of the workspace storage that the model reads. *)
Record Storage := {
editorStacks_model : option string;
legacy_memento : option string
}.

Section WithInputs.
Context {E : Type} `{EditorInputType E}.

Record IEditorIdentifier := {
  group : GroupIdentifier;
  editor : option E
}.

(** The model and what it reaches. Groups are objects shared between
    [_groups], [_activeGroup] and the callers: [heap] holds the state of
    every group created so far under its id, the other fields hold
    references. A slot [None] of [_groups] is a hole of the array.
    [closed] lists the inputs on which [close()] was called and [fired]
    the events of the model, both oldest first. [IDS] is the static
    counter of [EditorGroup]. *)
Record Model := {
  heap : gmap GroupIdentifier (EditorGroup E);
  _groups : list (option GroupIdentifier);
  _activeGroup : option GroupIdentifier;
  groupToIdentifier : gmap GroupIdentifier GroupIdentifier;
  recentlyClosedEditors : list ISerializedEditorInput;
  loaded : bool;
  IDS : nat;
  storage : Storage;
  closed : list E;
  fired : list ModelEvent
}.

(** [new EditorStacksModel(...)]. *)
Definition create (st : Storage) (ids : nat)
    (h : gmap GroupIdentifier (EditorGroup E)) : Model :=
  {| heap := h; _groups := []; _activeGroup := None; groupToIdentifier := ∅;
     recentlyClosedEditors := []; loaded := false; IDS := ids; storage := st;
     closed := []; fired := [] |}.

Definition set_heap h (m : Model) : Model :=
  {| heap := h; _groups := _groups m; _activeGroup := _activeGroup m;
     groupToIdentifier := groupToIdentifier m;
     recentlyClosedEditors := recentlyClosedEditors m; loaded := loaded m;
     IDS := IDS m; storage := storage m; closed := closed m; fired := fired m |}.
Definition set_groups l (m : Model) : Model :=
  {| heap := heap m; _groups := l; _activeGroup := _activeGroup m;
     groupToIdentifier := groupToIdentifier m;
     recentlyClosedEditors := recentlyClosedEditors m; loaded := loaded m;
     IDS := IDS m; storage := storage m; closed := closed m; fired := fired m |}.
Definition set_activeGroup a (m : Model) : Model :=
  {| heap := heap m; _groups := _groups m; _activeGroup := a;
     groupToIdentifier := groupToIdentifier m;
     recentlyClosedEditors := recentlyClosedEditors m; loaded := loaded m;
     IDS := IDS m; storage := storage m; closed := closed m; fired := fired m |}.
Definition set_groupToIdentifier t (m : Model) : Model :=
  {| heap := heap m; _groups := _groups m; _activeGroup := _activeGroup m;
     groupToIdentifier := t;
     recentlyClosedEditors := recentlyClosedEditors m; loaded := loaded m;
     IDS := IDS m; storage := storage m; closed := closed m; fired := fired m |}.
Definition set_recentlyClosedEditors r (m : Model) : Model :=
  {| heap := heap m; _groups := _groups m; _activeGroup := _activeGroup m;
     groupToIdentifier := groupToIdentifier m;
     recentlyClosedEditors := r; loaded := loaded m;
     IDS := IDS m; storage := storage m; closed := closed m; fired := fired m |}.
Definition set_loaded b (m : Model) : Model :=
  {| heap := heap m; _groups := _groups m; _activeGroup := _activeGroup m;
     groupToIdentifier := groupToIdentifier m;
     recentlyClosedEditors := recentlyClosedEditors m; loaded := b;
     IDS := IDS m; storage := storage m; closed := closed m; fired := fired m |}.
Definition set_IDS n (m : Model) : Model :=
  {| heap := heap m; _groups := _groups m; _activeGroup := _activeGroup m;
     groupToIdentifier := groupToIdentifier m;
     recentlyClosedEditors := recentlyClosedEditors m; loaded := loaded m;
     IDS := n; storage := storage m; closed := closed m; fired := fired m |}.
Definition set_storage st (m : Model) : Model :=
  {| heap := heap m; _groups := _groups m; _activeGroup := _activeGroup m;
     groupToIdentifier := groupToIdentifier m;
     recentlyClosedEditors := recentlyClosedEditors m; loaded := loaded m;
     IDS := IDS m; storage := st; closed := closed m; fired := fired m |}.
Definition set_closed c (m : Model) : Model :=
  {| heap := heap m; _groups := _groups m; _activeGroup := _activeGroup m;
     groupToIdentifier := groupToIdentifier m;
     recentlyClosedEditors := recentlyClosedEditors m; loaded := loaded m;
     IDS := IDS m; storage := storage m; closed := c; fired := fired m |}.
Definition set_fired f (m : Model) : Model :=
  {| heap := heap m; _groups := _groups m; _activeGroup := _activeGroup m;
     groupToIdentifier := groupToIdentifier m;
     recentlyClosedEditors := recentlyClosedEditors m; loaded := loaded m;
     IDS := IDS m; storage := storage m; closed := closed m; fired := f |}.

(** *** Methods of the model: state passing, with exceptions *)
Definition MM (A : Type) : Type := Model -> Outcome (A * Model).

Definition ret {A} (a : A) : MM A := fun m => Returns (a, m).
Definition bind {A B} (c : MM A) (k : A -> MM B) : MM B := fun m =>
  match c m with
  | Returns (a, m') => k a m'
  | Throws => Throws
  | Unrepresented => Unrepresented
  end.
Definition update (f : Model -> Model) : MM unit := fun m => Returns (tt, f m).
Definition throw {A} : MM A := fun _ => Throws.
Definition unrepresented {A} : MM A := fun _ => Unrepresented.

Notation "'let*' x := c 'in' k" := (bind c (fun x => k))
  (at level 10, x name, c at level 100, k at level 200).
Notation "c ;;; k" := (bind c (fun _ => k))
  (at level 100, k at level 200, right associativity).

Fixpoint mapMM {A B} (f : A -> MM B) (l : list A) : MM (list B) :=
  match l with
  | [] => ret []
  | x :: r => let* y := f x in let* ys := mapMM f r in ret (y :: ys)
  end.

Fixpoint forEachMM {A} (f : A -> MM unit) (l : list A) : MM unit :=
  match l with
  | [] => ret tt
  | x :: r => f x ;;; forEachMM f r
  end.

(** [fireEvent(emitter, group)]: the emitter, then [_onModelChanged]. *)
Definition fireEvent (k : ModelEventKind) (g : option GroupIdentifier) : MM unit :=
  update (fun m => set_fired (fired m ++ [(k, g); (ModelChanged, g)]) m).

(** [indexOf(group)]. *)
Definition indexOf (m : Model) (g : option GroupIdentifier) : Z :=
  JS.indexOf g (_groups m).

(** [groupAt(position)], [this._groups[position]]. *)
Definition groupAt (m : Model) (position : Z) : option GroupIdentifier :=
  mjoin (JS.get (_groups m) position).

(** [isOpen(editor)]: [some] skips the holes of the array. *)
Definition isOpen (m : Model) (e : E) : bool :=
  existsb (fun slot =>
    match slot with
    | Some id =>
        match heap m !! id with
        | Some g => 0 <=? Group.indexOf (Some e) (editors g)
        | None => false
        end
    | None => false
    end) (_groups m).

Variable getEditorInputFactory : string -> option (IEditorInputFactory E).

(** [editor.close()]. *)
Definition close (e : E) (m : Model) : Model := set_closed (closed m ++ [e]) m.

(** [onEditorClosed(event)], the listener on [onEditorClosed] of every
    group of the model. *)
Definition onEditorClosed (event : IGroupEvent E) (m : Model) : Model :=
  let editor := ev_editor event in
  let m1 :=
    if negb (isOpen m editor) then
      let m' := close editor m in
      match diffInputs editor with
      | Some (original, modified) =>
          fold_left (fun acc e => if negb (isOpen acc e) then close e acc else acc)
            [original; modified] m'
      | None => m'
      end
    else m in
  if ev_pinned event then
    match getEditorInputFactory (getId editor) with
    | Some factory =>
        match factory_serialize factory editor with
        | Some value =>
            set_recentlyClosedEditors
              (JS.slice0 10
                 (recentlyClosedEditors m1
                  ++ [{| ser_id := getId editor; ser_value := value |}])) m1
        | None => m1
        end
    | None => m1
    end
  else m1.

(** The listeners that [doCreateGroup] puts on a group, run on one thing
    the group [id] fired, in the state it had then. *)
Definition deliver (id : GroupIdentifier) (m : Model) (f : Fired E) : Model :=
  let m1 := set_heap (<[id := snd f]> (heap m)) m in
  match fst f with
  | EditorChanged _ => set_fired (fired m1 ++ [(ModelChanged, Some id)]) m1
  | EditorClosed event => onEditorClosed event m1
  | _ => m1
  end.

(** A call of a method of the group [id]. *)
Definition inGroup (id : GroupIdentifier) (c : Cmd E) : MM unit := fun m =>
  match heap m !! id with
  | Some g =>
      let r := c g in
      let m1 := fold_left (deliver id) (snd r) m in
      Returns (tt, set_heap (<[id := fst r]> (heap m1)) m1)
  | None => Unrepresented
  end.

(** [doCreateGroup(arg1)]: the constructor takes the next id. *)
Definition doCreateGroup (arg1 : string + ISerializedEditorGroup)
  : MM GroupIdentifier := fun m =>
  let id := IDS m in
  let m1 := set_IDS (S id) m in
  match arg1 with
  | inl l => Returns (id, set_heap (<[id := Group.create id l]> (heap m1)) m1)
  | inr data =>
      match Group.deserialize getEditorInputFactory id data with
      | Returns g => Returns (id, set_heap (<[id := g]> (heap m1)) m1)
      | Throws => Throws
      | Unrepresented => Unrepresented
      end
  end.

Definition doValidate (serialized : ISerializedEditorStacksModel) : Z :=
  let groups := ser_groups serialized in
  if (length groups =? 0)%nat && bool_decide (is_Some (ser_active serialized))
  then 1
  else if negb (length groups =? 0)%nat
          && negb (bool_decide (is_Some (ser_active serialized ≫= JS.get groups)))
  then 2
  else if (3 <? length groups)%nat then 3
  else if existsb (fun g => (length (ser_editors g) =? 0)%nat) groups then 4
  else if existsb (fun g => negb (length (ser_editors g) =? length (ser_mru g))%nat)
            groups then 5
  else if existsb (fun g =>
            match ser_preview g with
            | Some p => negb (bool_decide (is_Some (JS.get (ser_editors g) p)))
            | None => false
            end) groups then 6
  else if existsb (fun g => String.eqb (ser_label g) "") groups then 7
  else 0.

(** The bodies of the public methods; each public method runs
    [ensureLoaded] first. Inside a method [loaded] is set, so the
    [ensureLoaded] of a method called from there does nothing and the body
    is called. *)
Definition doSetActive (g : option GroupIdentifier) : MM unit := fun m =>
  if bool_decide (_activeGroup m = g) then Returns (tt, m)
  else (update (set_activeGroup g) ;;; fireEvent GroupActivated g) m.

Definition doOpenGroup (l : string) (activate : option bool) (index : option Z)
  : MM GroupIdentifier :=
  let* g := doCreateGroup (inl l) in
  (fun m =>
     match index with
     | Some i =>
         match JS.store i g (_groups m) with
         | Some stored => update (set_groups stored) m
         | None => Unrepresented
         end
     | None =>
         match _activeGroup m with
         | None => update (set_groups (_groups m ++ [Some g])) m
         | Some _ =>
             update (set_groups
                       (JS.splice (indexOf m (_activeGroup m) + 1) 0 [Some g]
                          (_groups m))) m
         end
     end) ;;;
  update (fun m => set_groupToIdentifier (<[g := g]> (groupToIdentifier m)) m) ;;;
  fireEvent GroupOpened (Some g) ;;;
  (fun m =>
     if negb (bool_decide (is_Some (_activeGroup m))) || default true activate
     then doSetActive (Some g) m else ret tt m) ;;;
  ret g.

(** The open direction at the time the model is loaded. *)
Variable CONFIG_OPEN_EDITOR_DIRECTION : Direction.
(** [JSON.parse] of the stored model, [None] when it throws. *)
Variable parseModel : string -> option ISerializedEditorStacksModel.
(** [JSON.parse(raw)['editorpart.editorState'].editors] of the legacy
    state, [None] when it throws. *)
Variable parseLegacyEditors : string -> option (list ISerializedEditorInput).
(** Whether the options of the workspace name files to create, open or
    diff. *)
Variable filesRequested : bool.

(** A stored value that is truthy. *)
Definition truthy (raw : option string) : option string :=
  match raw with
  | Some s => if String.eqb s "" then None else Some s
  | None => None
  end.

Definition migrateGroup (editors : list E) (i : nat) : MM unit :=
  match editors !! i with
  | Some e =>
      let* g := doOpenGroup "" (Some true) None in
      inGroup g (Group.openEditor CONFIG_OPEN_EDITOR_DIRECTION e
                   (Some {| opt_pinned := None; opt_active := Some true;
                            opt_index := None |}))
  | None => ret tt
  end.

Definition migrate : MM unit := fun m =>
  match truthy (legacy_memento (storage m)) with
  | Some legacyModelRaw =>
      let attempt : MM unit :=
        match parseLegacyEditors legacyModelRaw with
        | None => throw
        | Some editorsRaw =>
            match Group.mapOutcome
                    (fun r => match getEditorInputFactory (ser_id r) with
                              | Some factory =>
                                  Returns (factory_deserialize factory (ser_value r))
                              | None => Throws
                              end) editorsRaw with
            | Returns editors =>
                migrateGroup editors 0 ;;;
                migrateGroup editors 1 ;;;
                migrateGroup editors 2 ;;;
                update (fun m' =>
                  set_storage {| editorStacks_model := editorStacks_model (storage m');
                                 legacy_memento := None |} m')
            | Throws => throw
            | Unrepresented => unrepresented
            end
        end in
      match attempt m with
      | Returns r => Returns r
      | Throws =>
          (* every throw of the attempt comes before its first change *)
          Returns (tt, set_recentlyClosedEditors []
                         (set_groupToIdentifier ∅
                            (set_activeGroup None (set_groups [] m))))
      | Unrepresented => Unrepresented
      end
  | None => Returns (tt, m)
  end.

Definition load : MM unit := fun m =>
  if filesRequested then Returns (tt, m)
  else
    match truthy (editorStacks_model (storage m)) with
    | Some modelRaw =>
        match parseModel modelRaw with
        | None => Throws
        | Some serialized =>
            let invalidId := doValidate serialized in
            if negb (invalidId =? 0) then Returns (tt, m)
            else
              (let* groups := mapMM (fun s => doCreateGroup (inr s)) (ser_groups serialized) in
               update (set_groups (Some <$> groups)) ;;;
               update (fun m' =>
                 set_activeGroup (ser_active serialized ≫= groupAt m') m') ;;;
               update (fun m' =>
                 set_groupToIdentifier
                   (fold_left (fun t g => <[g := g]> t) groups (groupToIdentifier m')) m') ;;;
               update (set_recentlyClosedEditors
                         (default [] (ser_lastClosed serialized)))) m
        end
    | None => migrate m
    end.

Definition ensureLoaded : MM unit := fun m =>
  if negb (loaded m) then (update (set_loaded true) ;;; load) m
  else Returns (tt, m).

(** *** The public methods *)

(** The getters [groups] and [activeGroup]. *)
Definition groups : MM (list (option GroupIdentifier)) :=
  ensureLoaded ;;; (fun m => ret (_groups m) m).
Definition activeGroup : MM (option GroupIdentifier) :=
  ensureLoaded ;;; (fun m => ret (_activeGroup m) m).

Definition openGroup (l : string) (activate : option bool) (index : option Z)
  : MM GroupIdentifier :=
  ensureLoaded ;;; doOpenGroup l activate index.

Definition setActive (g : option GroupIdentifier) : MM unit :=
  ensureLoaded ;;; doSetActive g.

Definition renameGroup (g : GroupIdentifier) (l : string) : MM unit :=
  ensureLoaded ;;;
  (fun m =>
     match heap m !! g with
     | Some o =>
         if negb (String.eqb (label o) l)
         then (update (set_heap (<[g := set_label l o]> (heap m))) ;;;
               fireEvent GroupRenamed (Some g)) m
         else ret tt m
     | None => Unrepresented
     end).

Definition doCloseGroup (g : option GroupIdentifier) : MM unit := fun m =>
  let index := indexOf m g in
  if index <? 0 then Returns (tt, m)
  else
    match g with
    | None => Returns (tt, m)
    | Some id =>
        ((fun m0 =>
            if bool_decide (g = _activeGroup m0) then
              if (1 <? length (_groups m0))%nat then
                let newActiveGroup :=
                  if (index + 1 <? Z.of_nat (length (_groups m0)))
                  then groupAt m0 (index + 1) else groupAt m0 (index - 1) in
                doSetActive newActiveGroup m0
              else update (set_activeGroup None) m0
            else ret tt m0) ;;;
         inGroup id Group.closeAllEditors ;;;
         (fun m0 =>
            match heap m0 !! id with
            | Some o => update (set_heap (<[id := Group.dispose o]> (heap m0))) m0
            | None => Unrepresented
            end) ;;;
         update (fun m0 => set_groups (JS.splice index 1 [] (_groups m0)) m0) ;;;
         update (fun m0 => set_groupToIdentifier (delete id (groupToIdentifier m0)) m0) ;;;
         fireEvent GroupClosed g) m
    end.

Definition closeGroup (g : option GroupIdentifier) : MM unit :=
  ensureLoaded ;;; doCloseGroup g.

Definition closeGroups (except : option GroupIdentifier) : MM unit :=
  ensureLoaded ;;;
  (fun m =>
     forEachMM (fun g => doCloseGroup (Some g))
       (List.filter
          (fun g => negb (bool_decide (Some g = _activeGroup m))
                    && negb (bool_decide (Some g = except)))
          (omap id (_groups m))) m) ;;;
  (fun m =>
     if negb (bool_decide (_activeGroup m = except))
     then doCloseGroup (_activeGroup m) m else ret tt m).

Definition moveGroup (g : option GroupIdentifier) (toIndex : Z) : MM unit :=
  ensureLoaded ;;;
  (fun m =>
     let index := indexOf m g in
     if index <? 0 then ret tt m
     else
       (update (set_groups
                  (JS.splice toIndex 0 [g] (JS.splice index 1 [] (_groups m)))) ;;;
        fireEvent GroupMoved g) m).

Definition next : MM (option IEditorIdentifier) :=
  ensureLoaded ;;;
  (fun m =>
     match _activeGroup m with
     | None => ret None m
     | Some ag =>
         match heap m !! ag with
         | None => Unrepresented
         | Some o =>
             let index := Group.indexOf (active o) (editors o) in
             if index + 1 <? Z.of_nat (count o)
             then ret (Some {| group := ag; editor := getEditor o (index + 1) |}) m
             else
               let indexOfGroup := indexOf m (Some ag) in
               match groupAt m (indexOfGroup + 1) with
               | Some nextGroup =>
                   match heap m !! nextGroup with
                   | Some n => ret (Some {| group := nextGroup;
                                            editor := getEditor n 0 |}) m
                   | None => Unrepresented
                   end
               | None =>
                   match groupAt m 0 with
                   | Some firstGroup =>
                       match heap m !! firstGroup with
                       | Some f => ret (Some {| group := firstGroup;
                                                editor := getEditor f 0 |}) m
                       | None => Unrepresented
                       end
                   | None => Throws
                   end
               end
         end
     end).

Definition previous : MM (option IEditorIdentifier) :=
  ensureLoaded ;;;
  (fun m =>
     match _activeGroup m with
     | None => ret None m
     | Some ag =>
         match heap m !! ag with
         | None => Unrepresented
         | Some o =>
             let index := Group.indexOf (active o) (editors o) in
             if 0 <? index
             then ret (Some {| group := ag; editor := getEditor o (index - 1) |}) m
             else
               let indexOfGroup := indexOf m (Some ag) in
               match groupAt m (indexOfGroup - 1) with
               | Some previousGroup =>
                   match heap m !! previousGroup with
                   | Some p =>
                       ret (Some {| group := previousGroup;
                                    editor := getEditor p (Z.of_nat (count p) - 1) |}) m
                   | None => Unrepresented
                   end
               | None =>
                   match groupAt m (Z.of_nat (length (_groups m)) - 1) with
                   | Some lastGroup =>
                       match heap m !! lastGroup with
                       | Some l =>
                           ret (Some {| group := lastGroup;
                                        editor := getEditor l (Z.of_nat (count l) - 1) |}) m
                       | None => Unrepresented
                       end
                   | None => Throws
                   end
               end
         end
     end).

Definition popLastClosedEditor : MM (option E) := fun m =>
  let '(serializedEditor, rest) := JS.pop (recentlyClosedEditors m) in
  let m1 := set_recentlyClosedEditors rest m in
  match serializedEditor with
  | Some s =>
      match getEditorInputFactory (ser_id s) with
      | Some factory => Returns (Some (factory_deserialize factory (ser_value s)), m1)
      | None => Throws
      end
  | None => Returns (None, m1)
  end.

Definition clearLastClosedEditors : MM unit :=
  update (set_recentlyClosedEditors []).

End WithInputs.
Arguments Model E : clear implicits.
Arguments MM E A : clear implicits.
Arguments IEditorIdentifier E : clear implicits.
End Stacks.

(** ** The group view: how an editor is opened and pinned

    [NextEditorGroupView] holds one group and forwards to its title control.
    Of the view the model keeps the group, the [enablePreview] option of the
    part and the calls made on the title control. *)

Module View.
Import Group.
Section WithInputs.
Context {E : Type} `{EditorInputType E}.

Record EditorOptions := {
  eo_index : option Z;
  eo_pinned : option bool;
  eo_inactive : option bool
}.

Inductive TitleCall :=
| TitlePinEditor (e : E)
| TitleUpdateEditorDirty (e : E).

Record NextEditorGroupView := {
  _group : EditorGroup E;
  enablePreview : bool;
  titleAreaControl : list TitleCall
}.

Definition set_group (g : EditorGroup E) (v : NextEditorGroupView) :=
  {| _group := g; enablePreview := enablePreview v;
     titleAreaControl := titleAreaControl v |}.
Definition call_title (c : TitleCall) (v : NextEditorGroupView) :=
  {| _group := _group v; enablePreview := enablePreview v;
     titleAreaControl := titleAreaControl v ++ [c] |}.

(** [editor.isDirty()] at the time of the call. *)
Variable isDirty : E -> bool.

(** The [openEditorOptions] that [doOpenEditor] determines. *)
Definition openEditorOptions (v : NextEditorGroupView) (editor : E)
    (options : option EditorOptions) : IEditorOpenOptions :=
  let pinned :=
    negb (enablePreview v) || isDirty editor
    || is_true_opt (options ≫= eo_pinned)
    || bool_decide (is_Some (options ≫= eo_index)) in
  let activate :=
    (count (_group v) =? 0)%nat
    || negb (bool_decide (is_Some options))
    || negb (is_true_opt (options ≫= eo_inactive)) in
  {| opt_index := options ≫= eo_index;
     opt_pinned := Some pinned;
     opt_active :=
       Some (if negb activate && negb pinned
                && isPreview (_group v) (active (_group v))
             then true else activate) |}.

(** [doOpenEditor(editor, options)], the update of the model. *)
Definition doOpenEditor (dir : Direction) (editor : E)
    (options : option EditorOptions) (v : NextEditorGroupView)
  : NextEditorGroupView :=
  set_group
    (fst (openEditor dir editor (Some (openEditorOptions v editor options))
            (_group v))) v.

(** [pinEditor(editor = this.activeEditor)]. *)
Definition pinEditor (editor : option E) (v : NextEditorGroupView)
  : NextEditorGroupView :=
  match editor with
  | Some e =>
      if negb (isPinned (_group v) editor)
      then call_title (TitlePinEditor e)
             (set_group (fst (pin editor (_group v))) v)
      else v
  | None => v
  end.

Definition onDidEditorBecomeDirty (editor : E) (v : NextEditorGroupView)
  : NextEditorGroupView :=
  call_title (TitleUpdateEditorDirty editor) (pinEditor (Some editor) v).

End WithInputs.
Arguments NextEditorGroupView E : clear implicits.
End View.

(** ** A concrete kind of editor input, to run the model on *)

Module Sample.
(** A file input: the object, the resource it shows, whether its factory
    can serialize it. A diff input: the object and the two sides. *)
Inductive TestInput :=
| File (ref : nat) (resource : string) (serializable : bool)
| Diff (ref : nat) (original modified : TestInput).

Fixpoint test_matches (a b : TestInput) : bool :=
  match a, b with
  | File _ r _, File _ r' _ => bool_decide (r = r')
  | Diff _ o m, Diff _ o' m' => test_matches o o' && test_matches m m'
  | _, _ => false
  end.

Definition test_id (a : TestInput) : string :=
  match a with
  | File _ _ true => "file"
  | File _ _ false => "untitled"
  | Diff _ _ _ => "diff"
  end.

Definition test_diff (a : TestInput) : option (TestInput * TestInput) :=
  match a with
  | File _ _ _ => None
  | Diff _ o m => Some (o, m)
  end.

Lemma test_matches_refl a : test_matches a a = true.
Proof.
  induction a as [r s b|r o IHo m IHm]; simpl.
  - by apply bool_decide_eq_true.
  - by rewrite IHo, IHm.
Qed.

Lemma test_matches_sym a : forall b, test_matches a b = test_matches b a.
Proof.
  induction a as [r s b|r o IHo m IHm]; intros [r' s' b'|r' o' m']; simpl; try done.
  - apply bool_decide_ext. split; congruence.
  - by rewrite IHo, IHm.
Qed.

Lemma test_matches_trans a : forall b c,
  test_matches a b = true -> test_matches b c = true -> test_matches a c = true.
Proof.
  induction a as [r s b|r o IHo m IHm];
    intros [r' s' b'|r' o' m'] [r2 s2 b2|r2 o2 m2]; simpl; try done.
  - rewrite !bool_decide_eq_true. congruence.
  - rewrite !andb_true_iff. intros [? ?] [? ?]. split; eauto.
Qed.

#[global] Instance test_input_eq_dec : EqDecision TestInput.
Proof.
  intros a. induction a as [r s b|r o IHo m IHm]; intros [r' s' b'|r' o' m'];
    try (right; discriminate).
  - destruct (decide (r = r')) as [->|]; [|right; congruence].
    destruct (decide (s = s')) as [->|]; [|right; congruence].
    destruct (decide (b = b')) as [->|]; [|right; congruence].
    by left.
  - destruct (decide (r = r')) as [->|]; [|right; congruence].
    destruct (IHo o') as [->|]; [|right; congruence].
    destruct (IHm m') as [->|]; [|right; congruence].
    by left.
Defined.

#[global] Instance test_input : EditorInputType TestInput := {|
  input_eq_dec := test_input_eq_dec;
  input_matches := test_matches;
  getId := test_id;
  diffInputs := test_diff;
  matches_refl := test_matches_refl;
  matches_sym := test_matches_sym;
  matches_trans := test_matches_trans
|}.

(** The registry: a factory for files, writing the resource; none for
    untitled and diff inputs. *)
Definition fileFactory : Group.IEditorInputFactory TestInput := {|
  Group.factory_serialize := fun e =>
    match e with File _ r true => Some r | _ => None end;
  Group.factory_deserialize := fun v => File 0 v true
|}.

Definition registry (id : string) : option (Group.IEditorInputFactory TestInput) :=
  if String.eqb id "file" then Some fileFactory else None.

Definition A := File 1 "a" true.
Definition B := File 2 "b" true.
Definition C := File 3 "c" true.
Definition D := File 4 "d" true.
Definition U := File 5 "u" false.
End Sample.

(** * What is proved of the model

    ** The invariant of a group *)

Module GroupProps.
Import Group.
Section WithInputs.
Context {E : Type} `{EditorInputType E}.
Implicit Types (g : EditorGroup E) (e x y : E) (l : list E).

(** How many editors of [l] match [x]. *)
Definition countM (x : E) (l : list E) : nat :=
  length (List.filter (fun y => input_matches y x) l).

(** [editors] and [mru] have the same length and hold the same editors up
    to [matches], no two editors of the group match, and the preview is
    one of the editors. *)
Record group_ok g : Prop := {
  ok_length : length (editors g) = length (mru g);
  ok_count : forall x, countM x (editors g) = countM x (mru g);
  ok_nodup : forall x, (countM x (editors g) <= 1)%nat;
  ok_preview : forall p, preview g = Some p -> countM p (editors g) = 1%nat
}.

(** The active editor heads [mru]; without active editor the group is
    empty. *)
Definition active_ok g : Prop :=
  match active g with
  | None => editors g = []
  | Some a => exists h, head (mru g) = Some h /\ input_matches h a = true
  end.

(** The three steps of a close that takes place: the active editor, the
    preview, the arrays. *)
Definition close_active e (n : bool) g : EditorGroup E :=
  if n && matches (active g) (Some e) then
    if (1 <? length (mru g))%nat then fst (setActive (mru g !! 1%nat) g)
    else set_active None g
  else g.

Definition close_preview e g : EditorGroup E :=
  if matches (preview g) (Some e) then set_preview None g else g.


(** The choices that [openEditor] makes before it changes the group. *)
Definition makePinned (options : option IEditorOpenOptions) : bool :=
  from_option (fun o => is_true_opt (opt_pinned o)) false options.

Definition makeActive (options : option IEditorOpenOptions) g : bool :=
  from_option (fun o => is_true_opt (opt_active o)) false options
  || negb (bool_decide (is_Some (active g)))
  || (negb (makePinned options) && matches (preview g) (active g)).

Definition targetIndex (dir : Direction) (options : option IEditorOpenOptions) g : Z :=
  match options ≫= opt_index with
  | Some i => i
  | None =>
      match dir with
      | RIGHT => indexOf (active g) (editors g) + 1
      | LEFT =>
          if (indexOf (active g) (editors g) =? 0) || (length (editors g) =? 0)%nat
          then 0 else indexOf (active g) (editors g) - 1
      end
  end.

Definition activateIf (b : bool) e g : EditorGroup E :=
  if b then fst (setActive (Some e) g) else g.

(** ** Sequences of calls of the public methods of a group *)
Inductive GroupOp :=
| OpenEditor (dir : Direction) (editor : E) (options : option IEditorOpenOptions)
| CloseEditor (editor : E) (openNext : option bool)
| CloseEditors (except : E) (direction : option Direction)
| CloseAllEditors
| MoveEditor (editor : E) (toIndex : Z)
| SetActive (editor : E)
| Pin (editor : E)
| Unpin (editor : E).

Definition call (op : GroupOp) : Cmd E :=
  match op with
  | OpenEditor dir editor options => openEditor dir editor options
  | CloseEditor editor openNext => closeEditor (Some editor) (default true openNext)
  | CloseEditors except direction => closeEditors (Some except) direction
  | CloseAllEditors => closeAllEditors
  | MoveEditor editor toIndex => moveEditor (Some editor) toIndex
  | SetActive editor => setActive (Some editor)
  | Pin editor => pin (Some editor)
  | Unpin editor => unpin (Some editor)
  end.

Definition run (ops : list GroupOp) g : EditorGroup E :=
  fold_left (fun g' op => fst (call op g')) ops g.

(** The call is not a [closeEditor] that passes [openNext = false]. *)
Definition opens_next (op : GroupOp) : bool :=
  match op with
  | CloseEditor _ (Some false) => false
  | _ => true
  end.

(** The invariants of the data model. An editor is an element of an array
    when exactly one entry of the array matches it. *)
Definition same_editors g : Prop :=
  length (editors g) = length (mru g)
  /\ (forall e, e ∈ mru g -> countM e (editors g) = 1%nat)
  /\ (forall e, e ∈ editors g -> countM e (mru g) = 1%nat).

Definition active_present g : Prop :=
  forall a, active g = Some a -> countM a (editors g) = 1%nat.

Definition preview_present g : Prop :=
  forall p, preview g = Some p -> countM p (editors g) = 1%nat.

Definition invariants g : Prop :=
  same_editors g /\ active_present g /\ preview_present g.


(** ** Serialization *)
Section Serialization.
Variable getEditorInputFactory : string -> option (IEditorInputFactory E).

(** The serialized form of an editor, when its type has a factory that
    serializes it to a string. *)
Definition serialized e : option ISerializedEditorInput :=
  match getEditorInputFactory (getId e) with
  | Some factory =>
      match factory_serialize factory e with
      | Some value => Some {| ser_id := getId e; ser_value := value |}
      | None => None
      end
  | None => None
  end.

Definition serializable e : bool := bool_decide (is_Some (serialized e)).

(** The entry [x] of [mru] stands for a serializable editor of the group. *)
Definition persisted g x : bool :=
  0 <=? indexOf (Some x) (List.filter serializable (editors g)).

Definition restrict (o : option E) : option E :=
  match o with
  | Some e => if serializable e then Some e else None
  | None => None
  end.

(** The index of the preview that [serialize] finds in [l], with [n]
    serializable editors before [l] and [p0] the index so far. *)
Fixpoint previewIndex g l (n : nat) (p0 : option Z) : option Z :=
  match l with
  | [] => p0
  | e :: r =>
      if serializable e
      then previewIndex g r (S n)
             (if bool_decide (preview g = Some e) then Some (Z.of_nat n) else p0)
      else previewIndex g r n p0
  end.

Definition same_input (a b : E) : Prop := input_matches a b = true.

Definition same_option (a b : option E) : Prop :=
  match a, b with
  | Some x, Some y => input_matches x y = true
  | None, None => True
  | _, _ => False
  end.

(** What a factory deserializes matches what it serialized. *)
Definition factories_round_trip : Prop :=
  forall e factory value,
    getEditorInputFactory (getId e) = Some factory ->
    factory_serialize factory e = Some value ->
    input_matches (factory_deserialize factory value) e = true.

(** The preview is the object that [editors] holds. *)
Definition preview_stored g : Prop :=
  forall p, preview g = Some p -> p ∈ editors g.

(** The round trip as C6 states it: [g'] is [g] restricted to the
    serializable editors. *)
Definition restored_as_stated g g' : Prop :=
  Forall2 same_input (editors g') (List.filter serializable (editors g))
  /\ Forall2 same_input (mru g') (List.filter serializable (mru g))
  /\ same_option (active g') (restrict (active g))
  /\ same_option (preview g') (restrict (preview g)).

End Serialization.

End WithInputs.
End GroupProps.

(** ** The stored model and its validation *)

Module StacksProps.
Import Group Stacks.

(** The seven violations that [doValidate] looks for in a stored model. *)
Definition activeWithoutGroups (s : ISerializedEditorStacksModel) : Prop :=
  ser_groups s = [] /\ is_Some (ser_active s).

Definition activeNotAGroup (s : ISerializedEditorStacksModel) : Prop :=
  ser_groups s <> [] /\ ser_active s ≫= JS.get (ser_groups s) = None.

Definition tooManyGroups (s : ISerializedEditorStacksModel) : Prop :=
  (3 < length (ser_groups s))%nat.

Definition groupWithoutEditors (s : ISerializedEditorStacksModel) : Prop :=
  exists g, g ∈ ser_groups s /\ ser_editors g = [].

Definition mruOutOfSync (s : ISerializedEditorStacksModel) : Prop :=
  exists g, g ∈ ser_groups s /\ length (ser_editors g) <> length (ser_mru g).

Definition previewOutOfRange (s : ISerializedEditorStacksModel) : Prop :=
  exists g p, g ∈ ser_groups s /\ ser_preview g = Some p
              /\ JS.get (ser_editors g) p = None.

Definition emptyLabel (s : ISerializedEditorStacksModel) : Prop :=
  exists g, g ∈ ser_groups s /\ ser_label g = "".

Section WithInputs.
Context {E : Type} `{EditorInputType E}.
Implicit Types (m : Model E) (e : E).

(** C3 as stated: the new group [g] is at [index] in [m'], the list of
    groups is one longer than in [m] and holds every group of [m]. *)
Definition inserted_at m (index : Z) (g : GroupIdentifier) m' : Prop :=
  groupAt m' index = Some g
  /\ length (_groups m') = S (length (_groups m))
  /\ forall x, Some x ∈ _groups m -> Some x ∈ _groups m'.

(** *** Which inputs the groups of the model hold *)

(** The group [g] holds an editor that matches [e]. *)
Definition holds (g : EditorGroup E) e : Prop :=
  Exists (fun y => input_matches y e = true) (editors g).

(** The slot of the list of groups is a group of the store that holds an
    editor that matches [e]. *)
Definition slot_holds m e (slot : option GroupIdentifier) : Prop :=
  match slot with
  | Some id =>
      match heap m !! id with
      | Some g => holds g e
      | None => False
      end
  | None => False
  end.

(** [e] is present in a group of the model: some group of the list of
    groups holds an editor that matches [e]. *)
Definition referenced m e : Prop := Exists (slot_holds m e) (_groups m).

#[global] Instance holds_dec (g : EditorGroup E) e : Decision (holds g e).
Proof. unfold holds. apply _. Defined.

#[global] Instance slot_holds_dec m e slot : Decision (slot_holds m e slot).
Proof.
  unfold slot_holds. destruct slot as [id|]; [|apply _].
  destruct (heap m !! id); apply _.
Defined.

#[global] Instance referenced_dec m e : Decision (referenced m e).
Proof. unfold referenced. apply _. Defined.


(** C4, the rule: the inputs on which [close()] is to be called when [e]
    was closed out of a group and the model is then [m]. Nothing while a
    group of the model still holds a matching editor; else [e], and, when
    [e] is a diff input, each of its two sides that no group of the model
    holds. *)
Definition expected_closes m e : list E :=
  if decide (referenced m e) then []
  else e :: match diffInputs e with
            | Some (original, modified) =>
                filter (fun x => ~ referenced m x) [original; modified]
            | None => []
            end.



(** The group fires a close. *)
Definition isClose (f : Fired E) : bool :=
  match fst f with
  | EditorClosed _ => true
  | _ => false
  end.

(** The model that a method leaves, the model as it was when the method
    does not return. *)
Definition exec {A} (c : MM E A) m : Model E :=
  match c m with
  | Returns (_, m') => m'
  | _ => m
  end.

End WithInputs.
End StacksProps.

(** ** Counting matching editors *)

Module GroupMoreProps.
Import Group GroupProps.
Section WithInputs.
Context {E : Type} `{EditorInputType E}.

(** The number of pairs of an editor of [l1] and a matching editor of
    [l2]. *)
Definition matchingPairs (l1 l2 : list E) : nat :=
  sum_list_with (fun x => countM x l2) l1.

End WithInputs.
End GroupMoreProps.

(** * More of the model: saving, and looking groups up *)

Module StacksSave.
Import Group Stacks.
Section WithInputs.
Context {E : Type} `{EditorInputType E}.
Implicit Types (m : Model E).

Variable getEditorInputFactory : string -> option (IEditorInputFactory E).

(** [serialize()] of the model. [map] leaves the holes of [_groups] holes
    and [filter] skips them. *)
Definition serialize m : Outcome ISerializedEditorStacksModel :=
  match Group.mapOutcome
          (fun id => match heap m !! id with
                     | Some g => Returns (Group.serialize getEditorInputFactory g)
                     | None => Unrepresented
                     end) (omap id (_groups m)) with
  | Returns serialized =>
      let serializableGroups :=
        List.filter (fun g => (0 <? length (ser_editors g))%nat) serialized in
      let serializableActiveIndex :=
        if (0 <? length serializableGroups)%nat then
          if (length serializableGroups =? length (_groups m))%nat
          then Some (indexOf m (_activeGroup m))
          else Some 0
        else None in
      Returns {| ser_groups := serializableGroups;
                 ser_active := serializableActiveIndex;
                 ser_lastClosed := Some (recentlyClosedEditors m) |}
  | Throws => Throws
  | Unrepresented => Unrepresented
  end.

(** The groups of the list [ids] that have an editor that a factory
    serializes: those that [serialize] writes. *)
Definition stored_groups m (ids : list GroupIdentifier) : list (EditorGroup E) :=
  List.filter
    (fun o => existsb (GroupProps.serializable getEditorInputFactory) (editors o))
    (omap (fun id => heap m !! id) ids).

(** [JSON.stringify]. *)
Variable stringify : ISerializedEditorStacksModel -> string.

(** [save()]: the serialized model goes to the storage. *)
Definition save : MM E unit := fun m =>
  match serialize m with
  | Returns serialized =>
      Returns (tt, set_storage
                     {| editorStacks_model := Some (stringify serialized);
                        legacy_memento := legacy_memento (storage m) |} m)
  | Throws => Throws
  | Unrepresented => Unrepresented
  end.

(** [positionOfGroup(group)]. *)
Definition positionOfGroup m (g : option GroupIdentifier) : Z := indexOf m g.

End WithInputs.
End StacksSave.

(** ** A model whose references are sound *)

Module StacksMoreProps.
Import Group GroupProps Stacks.
Section WithInputs.
Context {E : Type} `{EditorInputType E}.
Implicit Types (m : Model E).

(** The group [id] of the list of groups: the store holds it, it keeps its
    invariant, it has an editor and its active editor is one of its
    editors. *)
Definition group_sound m (id : GroupIdentifier) : Prop :=
  exists o, heap m !! id = Some o /\ group_ok o /\ active_ok o /\ editors o <> [].

(** The model is loaded, its list of groups has no hole and no group
    twice, and every group of the list is sound. *)
Record model_sound m (ids : list GroupIdentifier) : Prop := {
  sound_loaded : loaded m = true;
  sound_groups : _groups m = Some <$> ids;
  sound_distinct : NoDup ids;
  sound_each : forall id, id ∈ ids -> group_sound m id
}.

(** [m2] has the groups of [m], in the same order and with the same
    editors. *)
Definition same_layout m m2 : Prop :=
  _groups m2 = _groups m
  /\ forall id o, heap m !! id = Some o ->
       exists o2, heap m2 !! id = Some o2 /\ editors o2 = editors o.

(** The active group of [m] is [g] and the active editor of [g] matches
    [e]. *)
Definition positioned m (g : GroupIdentifier) (e : E) : Prop :=
  _activeGroup m = Some g
  /\ exists o a, heap m !! g = Some o /\ active o = Some a
                 /\ input_matches a e = true.

(** Where the model stands: the active group and the editor of the group
    at the position of its active editor. *)
Definition current m : option (IEditorIdentifier E) :=
  match _activeGroup m with
  | Some ag =>
      match heap m !! ag with
      | Some o =>
          Some {| group := ag;
                  editor := getEditor o (Group.indexOf (active o) (editors o)) |}
      | None => None
      end
  | None => None
  end.

(** *** The ring of [next] and [previous]

    C9 in its own words: the editors of all groups in one sequence, group
    after group in the order of the list of groups, and in a group in the
    order of its editors; [next] and [previous] step through the sequence
    as through a ring. *)

(** The editors of the group [id], each with its group. *)
Definition group_editors m (id : GroupIdentifier) : list (IEditorIdentifier E) :=
  match heap m !! id with
  | Some o => (fun e => {| group := id; editor := Some e |}) <$> editors o
  | None => []
  end.

(** The flattened sequence of the editors of all groups of the list. *)
Definition flattened m : list (IEditorIdentifier E) :=
  omap id (_groups m) ≫= group_editors m.


(** The element behind the position [k] of a ring, and the one before
    it. *)
Definition ring_next {A} (l : list A) (k : nat) : option A :=
  l !! (S k mod length l)%nat.
Definition ring_previous {A} (l : list A) (k : nat) : option A :=
  l !! ((k + length l - 1) mod length l)%nat.

(** What a call of a method of a group leaves alone in the model. *)
Definition frame m m' : Prop :=
  _groups m' = _groups m /\ _activeGroup m' = _activeGroup m
  /\ groupToIdentifier m' = groupToIdentifier m /\ loaded m' = loaded m
  /\ IDS m' = IDS m /\ storage m' = storage m.

(** The group that is active once the group at position [i] of [ids] was
    closed while it was active: its right neighbour, else its left one. *)
Definition neighbour (ids : list GroupIdentifier) (i : nat)
  : option GroupIdentifier :=
  match ids !! S i with
  | Some r => Some r
  | None => match i with O => None | S j => ids !! j end
  end.

(** The list of groups is [ids], without hole and without a group twice,
    and every group of the list is in the store and keeps its
    invariants. *)
Definition groups_ok m (ids : list GroupIdentifier) : Prop :=
  _groups m = Some <$> ids /\ NoDup ids
  /\ forall id, id ∈ ids ->
       exists o, heap m !! id = Some o /\ group_ok o /\ active_ok o.

(** The groups that [closeGroups(except)] leaves open. *)
Definition kept (except : option GroupIdentifier) (ids : list GroupIdentifier)
  : list GroupIdentifier :=
  match except with
  | Some x => if bool_decide (x ∈ ids) then [x] else []
  | None => []
  end.

(** The group that [migrate] opens for the editor [e]: [e] alone, as the
    preview and the active editor. *)
Definition migrated (id : GroupIdentifier) (e : E) : EditorGroup E :=
  {| group_id := id; label := ""; editors := [e]; mru := [e];
     preview := Some e; active := Some e; disposed := false |}.

End WithInputs.
End StacksMoreProps.

(** * Properties of the group *)

Module GroupFacts.
Import Group GroupProps.
Section WithInputs.
Context {E : Type} `{EditorInputType E}.
Implicit Types (g : EditorGroup E) (e x y : E) (l : list E).


Lemma countM_nil x : countM x [] = 0%nat.
Proof. done. Qed.

Lemma countM_cons x y l :
  countM x (y :: l) = ((if input_matches y x then 1 else 0) + countM x l)%nat.
Proof. unfold countM. simpl. by destruct (input_matches y x). Qed.

Lemma countM_app x l1 l2 : countM x (l1 ++ l2) = (countM x l1 + countM x l2)%nat.
Proof. unfold countM. by rewrite List.filter_app, length_app. Qed.

Lemma countM_le_length x l : (countM x l <= length l)%nat.
Proof.
  induction l as [|y l IH]; [done|]. rewrite countM_cons. simpl.
  destruct (input_matches y x); lia.
Qed.

Lemma matches_left x x' y :
  input_matches x x' = true -> input_matches y x = input_matches y x'.
Proof.
  intros Hx. destruct (input_matches y x) eqn:H1.
  - symmetry. by eapply matches_trans.
  - destruct (input_matches y x') eqn:H2; [|done].
    rewrite <- H1. eapply matches_trans; [done|]. by rewrite matches_sym.
Qed.

Lemma countM_matches x x' l :
  input_matches x x' = true -> countM x l = countM x' l.
Proof.
  intros Hx. induction l as [|y l IH]; [done|].
  by rewrite !countM_cons, IH, (matches_left x x' y).
Qed.

Lemma countM_delete x l i y :
  l !! i = Some y ->
  (countM x (delete i l) + (if input_matches y x then 1 else 0) = countM x l)%nat.
Proof.
  revert i. induction l as [|z l IH]; intros [|i] Hi; simplify_eq/=.
  - rewrite countM_cons. lia.
  - rewrite !countM_cons. specialize (IH _ Hi). lia.
Qed.

Lemma countM_elem x l : x ∈ l -> (1 <= countM x l)%nat.
Proof.
  induction 1 as [|? ? ? ? IH]; rewrite countM_cons.
  - rewrite matches_refl. lia.
  - lia.
Qed.

(** *** [indexOf] *)

Lemma indexOf_found c l i :
  indexOf (Some c) l = i -> i <> -1 ->
  exists y, l !! Z.to_nat i = Some y /\ input_matches y c = true
            /\ 0 <= i < Z.of_nat (length l)
            /\ forall j z, (j < Z.to_nat i)%nat -> l !! j = Some z ->
                           input_matches z c = false.
Proof.
  unfold indexOf. intros Hi Hne.
  destruct (list_find _ l) as [[k y]|] eqn:Hf; [|congruence].
  apply list_find_Some in Hf as (Hk & Hy & Hfirst). subst i.
  rewrite Nat2Z.id. exists y. split_and!; try done.
  - lia.
  - apply lookup_lt_Some in Hk. lia.
  - intros j z Hj Hz. specialize (Hfirst j z Hz Hj).
    by destruct (input_matches z c).
Qed.

Lemma indexOf_none c l : indexOf (Some c) l = -1 <-> countM c l = 0%nat.
Proof.
  unfold indexOf.
  destruct (list_find _ l) as [[k y]|] eqn:Hf.
  - apply list_find_Some in Hf as (Hk & Hy & _). split; [lia|].
    intros H0. exfalso. revert k Hk.
    induction l as [|z l IH]; intros [|k] Hk; simplify_eq/=.
    + rewrite countM_cons, Hy in H0. lia.
    + rewrite countM_cons in H0. eapply IH; [|done]. lia.
  - split; [|done]. intros _.
    apply list_find_None in Hf.
    induction l as [|z l IH]; [done|].
    rewrite countM_cons. apply Forall_cons in Hf as [Hz Hl].
    destruct (input_matches z c); [done|]. by rewrite IH.
Qed.

Lemma indexOf_range o l : -1 <= indexOf o l < Z.of_nat (length l).
Proof.
  destruct o as [c|]; [|simpl; lia].
  destruct (decide (indexOf (Some c) l = -1)) as [->|Hne]; [lia|].
  destruct (indexOf_found c l _ eq_refl Hne) as (_ & _ & _ & ? & _). lia.
Qed.

Lemma indexOf_present c l : indexOf (Some c) l <> -1 <-> (1 <= countM c l)%nat.
Proof. rewrite indexOf_none. lia. Qed.

Lemma indexOf_matches c c' l :
  input_matches c c' = true -> indexOf (Some c) l = indexOf (Some c') l.
Proof.
  intros Hc. unfold indexOf.
  rewrite (list_find_ext (fun z => input_matches z c = true)
             (fun z => input_matches z c' = true)); [done|].
  intros z. by rewrite (matches_left c c' z Hc).
Qed.

(** *** [splice] on arrays *)

Lemma js_get_nat {A} (l : list A) (i : nat) : JS.get l (Z.of_nat i) = l !! i.
Proof.
  unfold JS.get. destruct (Z.ltb_spec (Z.of_nat i) 0); [lia|].
  by rewrite Nat2Z.id.
Qed.

Lemma js_get_in {A} (l : list A) (i : Z) :
  0 <= i -> JS.get l i = l !! Z.to_nat i.
Proof. intros. unfold JS.get. by destruct (Z.ltb_spec i 0); [lia|]. Qed.

Lemma start_of_le {A} (s : Z) (l : list A) : (JS.start_of s l <= length l)%nat.
Proof. unfold JS.start_of. destruct (Z.ltb_spec s 0); lia. Qed.

Lemma start_of_in {A} (s : Z) (l : list A) :
  0 <= s < Z.of_nat (length l) -> JS.start_of s l = Z.to_nat s.
Proof. intros. unfold JS.start_of. destruct (Z.ltb_spec s 0); lia. Qed.

Lemma splice_delete {A} (l : list A) (i : Z) :
  0 <= i < Z.of_nat (length l) -> JS.splice i 1 [] l = delete (Z.to_nat i) l.
Proof.
  intros Hi. unfold JS.splice. cbv zeta. rewrite start_of_in by done. simpl.
  rewrite Nat.add_1_r. symmetry. apply delete_take_drop.
Qed.

Lemma splice_insert_length {A} (l : list A) (s : Z) (a : A) :
  length (JS.splice s 0 [a] l) = S (length l).
Proof.
  unfold JS.splice. cbv zeta. pose proof (start_of_le s l).
  rewrite Nat.add_0_r, !length_app, length_take, length_drop. simpl. lia.
Qed.

Lemma splice_insert_count x l s e :
  countM x (JS.splice s 0 [e] l)
  = ((if input_matches e x then 1 else 0) + countM x l)%nat.
Proof.
  unfold JS.splice. cbv zeta. set (k := JS.start_of s l).
  rewrite Nat.add_0_r, !countM_app, countM_cons, countM_nil.
  assert (countM x l = (countM x (take k l) + countM x (drop k l))%nat) as ->
    by by rewrite <- countM_app, take_drop.
  lia.
Qed.

Lemma length_delete_lookup {A} (l : list A) (i : nat) (a : A) :
  l !! i = Some a -> S (length (delete i l)) = length l.
Proof.
  intros Hi. rewrite length_delete by eauto. apply lookup_lt_Some in Hi. lia.
Qed.

(** *** Commands *)

Lemma fst_skip g : fst (skip g) = g.
Proof. done. Qed.
Lemma fst_andThen (c1 c2 : Cmd E) g :
  fst (andThen c1 c2 g) = fst (c2 (fst (c1 g))).
Proof. done. Qed.
Lemma fst_modify f g : fst (modify f g) = f g.
Proof. done. Qed.
Lemma fst_fireEvent ev g : fst (fireEvent ev g) = g.
Proof. done. Qed.
Lemma snd_skip g : snd (skip g) = [].
Proof. done. Qed.
Lemma snd_andThen (c1 c2 : Cmd E) g :
  snd (andThen c1 c2 g) = snd (c1 g) ++ snd (c2 (fst (c1 g))).
Proof. done. Qed.

Lemma forEach_preserves {B} (P : EditorGroup E -> Prop) (f : B -> Cmd E) bs :
  (forall b g, P g -> P (fst (f b g))) ->
  forall g, P g -> P (fst (forEach f bs g)).
Proof.
  intros Hf. induction bs as [|b bs IH]; intros g Hg; [done|].
  exact (IH _ (Hf _ _ Hg)).
Qed.


Lemma create_ok id s : group_ok (create id s).
Proof. split; simpl; try done. intros x. rewrite countM_nil. lia. Qed.

Lemma create_active_ok id s : active_ok (create id s).
Proof. done. Qed.

Lemma group_ok_active g a : group_ok g -> group_ok (set_active a g).
Proof. intros [? ? ? ?]. by split. Qed.

Lemma group_ok_unpreview g : group_ok g -> group_ok (set_preview None g).
Proof. intros [? ? ? ?]. by split. Qed.

Lemma present_once g x :
  group_ok g -> indexOf (Some x) (editors g) <> -1 ->
  countM x (editors g) = 1%nat.
Proof.
  intros Hok Hx. apply indexOf_present in Hx. pose proof (ok_nodup g Hok x). lia.
Qed.

Lemma active_ok_present g a :
  group_ok g -> active_ok g -> active g = Some a -> countM a (editors g) = 1%nat.
Proof.
  intros Hok Hact Ha. unfold active_ok in Hact. rewrite Ha in Hact.
  destruct Hact as (h & Hh & Hm).
  assert (1 <= countM h (mru g))%nat.
  { apply countM_elem. destruct (mru g); simplify_eq/=. left. }
  rewrite <- (countM_matches h a) by done.
  rewrite <- (ok_count g Hok) in *. pose proof (ok_nodup g Hok h). lia.
Qed.

(** *** [setActive] *)

Lemma setActive_state o g :
  fst (setActive o g) =
  match o with
  | Some e =>
      if (indexOf o (editors g) =? -1) || matches (active g) o then g
      else set_mru (e :: JS.splice (indexOf o (mru g)) 1 [] (mru g))
             (set_active o g)
  | None => g
  end.
Proof.
  unfold setActive. destruct o as [e|]; [|done].
  destruct (indexOf (Some e) (editors g) =? -1) eqn:Hi; [done|].
  rewrite orb_false_l.
  destruct (matches (active g) (Some e)); [done|].
  rewrite !fst_andThen, fst_fireEvent, fst_modify. unfold setMostRecentlyUsed.
  change (editors (set_active (Some e) g)) with (editors g). by rewrite Hi.
Qed.

Lemma setActive_editors o g : editors (fst (setActive o g)) = editors g.
Proof.
  rewrite setActive_state. destruct o; [|done]. by destruct (_ || _).
Qed.

Lemma setActive_preview o g : preview (fst (setActive o g)) = preview g.
Proof.
  rewrite setActive_state. destruct o; [|done]. by destruct (_ || _).
Qed.

(** Taking the entry that matches [e] out of [mru] and putting [e]
    in front. *)
Lemma promote_mru g e :
  group_ok g -> indexOf (Some e) (editors g) <> -1 ->
  exists j y, mru g !! j = Some y /\ input_matches y e = true
    /\ JS.splice (indexOf (Some e) (mru g)) 1 [] (mru g) = delete j (mru g).
Proof.
  intros Hok He.
  assert (indexOf (Some e) (mru g) <> -1) as Hm.
  { apply indexOf_present. rewrite <- (ok_count g Hok).
    by apply indexOf_present. }
  destruct (indexOf_found e (mru g) _ eq_refl Hm) as (y & Hy & Hye & Hr & _).
  exists (Z.to_nat (indexOf (Some e) (mru g))), y. split_and!; try done.
  by apply splice_delete.
Qed.

Lemma setActive_ok o g : group_ok g -> group_ok (fst (setActive o g)).
Proof.
  intros Hok. rewrite setActive_state. destruct o as [e|]; [|done].
  destruct (Z.eqb_spec (indexOf (Some e) (editors g)) (-1)) as [|Hi]; [done|].
  simpl orb. destruct (matches _ _); [done|].
  destruct (promote_mru g e Hok Hi) as (j & y & Hj & Hye & ->).
  destruct Hok as [Hl Hc Hn Hp]. split; simpl; try done.
  - rewrite Hl. symmetry. by eapply length_delete_lookup.
  - intros x. rewrite countM_cons, Hc.
    pose proof (countM_delete x _ _ _ Hj) as Hd.
    rewrite (matches_sym e x), <- (matches_left _ _ x Hye), (matches_sym x y).
    lia.
Qed.

Lemma setActive_active_ok o g :
  group_ok g -> active_ok g -> active_ok (fst (setActive o g)).
Proof.
  intros Hok Hact. rewrite setActive_state. destruct o as [e|]; [|done].
  destruct (_ || _); [done|].
  unfold active_ok. simpl. exists e. by rewrite matches_refl.
Qed.

(** An activation that takes place leaves the group with a proper active
    editor, whatever the active editor was. *)
Lemma setActive_activates e g :
  indexOf (Some e) (editors g) <> -1 -> matches (active g) (Some e) = false ->
  active_ok (fst (setActive (Some e) g)).
Proof.
  intros Hi Hm. rewrite setActive_state.
  destruct (Z.eqb_spec (indexOf (Some e) (editors g)) (-1)); [done|].
  rewrite Hm. unfold active_ok. simpl. exists e. by rewrite matches_refl.
Qed.

(** *** [splice] *)

Lemma splice_add_state t e g :
  fst (splice t false (Some e) g) =
  set_mru (mru g ++ [e]) (set_editors (JS.splice t 0 [e] (editors g)) g).
Proof. done. Qed.

Lemma splice_del_state i g :
  fst (splice i true None g) =
  set_mru (JS.splice (indexOf (JS.get (editors g) i) (mru g)) 1 [] (mru g))
    (set_editors (JS.splice i 1 [] (editors g)) g).
Proof. done. Qed.

Lemma splice_add_ok t e g :
  group_ok g -> indexOf (Some e) (editors g) = -1 ->
  group_ok (fst (splice t false (Some e) g)).
Proof.
  intros [Hl Hc Hn Hp] He. apply indexOf_none in He.
  rewrite splice_add_state. split; simpl.
  - rewrite splice_insert_length, length_app. simpl. lia.
  - intros x. rewrite splice_insert_count, countM_app, countM_cons, countM_nil, Hc.
    lia.
  - intros x. rewrite splice_insert_count.
    destruct (input_matches e x) eqn:Hex; [|apply Hn].
    rewrite <- (countM_matches e x) by done. lia.
  - intros p Hpp. rewrite splice_insert_count, (Hp p Hpp).
    destruct (input_matches e p) eqn:Hep; [|done].
    rewrite (countM_matches e p) in He by done. rewrite (Hp p Hpp) in He. done.
Qed.

(** What [splice(index, true)] removes when [index] is the position of
    [e]: one editor matching [e] from each array. *)
Lemma splice_del_found e g :
  group_ok g -> indexOf (Some e) (editors g) <> -1 ->
  exists i j y z,
    editors g !! i = Some y /\ input_matches y e = true /\
    mru g !! j = Some z /\ input_matches z e = true /\
    (forall k w, (k < j)%nat -> mru g !! k = Some w -> input_matches w e = false) /\
    fst (splice (indexOf (Some e) (editors g)) true None g)
    = set_mru (delete j (mru g)) (set_editors (delete i (editors g)) g).
Proof.
  intros Hok He.
  destruct (indexOf_found e (editors g) _ eq_refl He) as (y & Hy & Hye & Hr & _).
  assert (indexOf (Some y) (mru g) <> -1) as Hm.
  { apply indexOf_present. rewrite <- (ok_count g Hok).
    apply countM_elem. by eapply list_elem_of_lookup_2. }
  destruct (indexOf_found y (mru g) _ eq_refl Hm) as (z & Hz & Hzy & Hr' & Hfirst).
  exists (Z.to_nat (indexOf (Some e) (editors g))),
         (Z.to_nat (indexOf (Some y) (mru g))), y, z.
  split_and!; try done.
  - by eapply matches_trans.
  - intros k w Hk Hw. rewrite <- (matches_left y e w) by done. by eapply Hfirst.
  - rewrite splice_del_state, js_get_in, Hy by lia.
    by rewrite !splice_delete by lia.
Qed.

Lemma splice_del_ok e g :
  group_ok g -> indexOf (Some e) (editors g) <> -1 ->
  matches (preview g) (Some e) = false ->
  group_ok (fst (splice (indexOf (Some e) (editors g)) true None g)).
Proof.
  intros Hok He Hprev.
  destruct (splice_del_found e g Hok He) as (i & j & y & z & Hi & Hye & Hj & Hze & _ & ->).
  destruct Hok as [Hl Hc Hn Hp]. split; simpl.
  - pose proof (length_delete_lookup _ _ _ Hi).
    pose proof (length_delete_lookup _ _ _ Hj). lia.
  - intros x. pose proof (countM_delete x _ _ _ Hi).
    pose proof (countM_delete x _ _ _ Hj). specialize (Hc x).
    assert (input_matches y x = input_matches z x) as Hyz.
    { rewrite (matches_sym y x), (matches_sym z x).
      rewrite (matches_left y e x Hye). by rewrite (matches_left z e x Hze). }
    rewrite Hyz in *. lia.
  - intros x. pose proof (countM_delete x _ _ _ Hi). specialize (Hn x). lia.
  - intros p Hpp. pose proof (countM_delete p _ _ _ Hi) as Hd.
    rewrite (Hp p Hpp) in Hd. rewrite Hpp in Hprev. simpl in Hprev.
    rewrite (matches_sym y p), (matches_left y e p Hye), Hprev in Hd. lia.
Qed.

(** *** [closeEditor] *)

Lemma closeEditor_absent o n g :
  indexOf o (editors g) = -1 -> closeEditor o n g = (g, []).
Proof. intros Hi. unfold closeEditor. by rewrite Hi. Qed.


Lemma closeEditor_state e n g :
  indexOf (Some e) (editors g) <> -1 ->
  fst (closeEditor (Some e) n g) =
  fst (splice (indexOf (Some e) (editors g)) true None
         (close_preview e (close_active e n g))).
Proof.
  intros Hi. unfold closeEditor.
  destruct (Z.eqb_spec (indexOf (Some e) (editors g)) (-1)); [done|].
  cbv iota beta. rewrite fst_andThen. cbv beta zeta.
  assert (fst (if n && matches (active g) (Some e)
               then if (1 <? length (mru g))%nat
                    then setActive (mru g !! 1%nat) g
                    else modify (set_active None) g
               else skip g) = close_active e n g) as ->.
  { unfold close_active. destruct (n && _); [|done]. by destruct (1 <? _)%nat. }
  rewrite !fst_andThen, fst_fireEvent. unfold close_preview.
  by destruct (matches (preview (close_active e n g)) (Some e)).
Qed.

Lemma close_active_editors e n g : editors (close_active e n g) = editors g.
Proof.
  unfold close_active. destruct (n && _); [|done].
  destruct (1 <? _)%nat; [apply setActive_editors|done].
Qed.

Lemma close_active_preview e n g : preview (close_active e n g) = preview g.
Proof.
  unfold close_active. destruct (n && _); [|done].
  destruct (1 <? _)%nat; [apply setActive_preview|done].
Qed.

Lemma close_active_group_ok e n g : group_ok g -> group_ok (close_active e n g).
Proof.
  intros Hok. unfold close_active. destruct (n && _); [|done].
  destruct (1 <? _)%nat; [by apply setActive_ok|by apply group_ok_active].
Qed.

Lemma close_preview_editors e g : editors (close_preview e g) = editors g.
Proof. unfold close_preview. by destruct (matches _ _). Qed.

Lemma close_preview_mru e g : mru (close_preview e g) = mru g.
Proof. unfold close_preview. by destruct (matches _ _). Qed.

Lemma close_preview_active e g : active (close_preview e g) = active g.
Proof. unfold close_preview. by destruct (matches _ _). Qed.

Lemma close_preview_group_ok e g : group_ok g -> group_ok (close_preview e g).
Proof.
  intros Hok. unfold close_preview.
  destruct (matches _ _); [by apply group_ok_unpreview|done].
Qed.

Lemma close_preview_clears e g : matches (preview (close_preview e g)) (Some e) = false.
Proof. unfold close_preview. by destruct (matches (preview g) (Some e)) eqn:Hm. Qed.

Lemma closeEditor_ok o n g : group_ok g -> group_ok (fst (closeEditor o n g)).
Proof.
  intros Hok.
  destruct (decide (indexOf o (editors g) = -1)) as [Hi|Hi].
  { by rewrite closeEditor_absent. }
  destruct o as [e|]; [|done].
  rewrite closeEditor_state by done.
  rewrite <- (close_active_editors e n g), <- (close_preview_editors e (close_active e n g)).
  apply splice_del_ok.
  - by apply close_preview_group_ok, close_active_group_ok.
  - by rewrite close_preview_editors, close_active_editors.
  - apply close_preview_clears.
Qed.

(** Two entries of [mru] do not match. *)
Lemma mru_distinct g i j x y :
  group_ok g -> mru g !! i = Some x -> mru g !! j = Some y -> i <> j ->
  input_matches x y = false.
Proof.
  intros Hok Hi Hj Hne.
  destruct (input_matches x y) eqn:Hxy; [|done]. exfalso.
  pose proof (ok_nodup g Hok y) as Hn. rewrite (ok_count g Hok) in Hn.
  clear Hok. revert i j Hi Hj Hne Hn.
  induction (mru g) as [|z l IH]; intros [|i] [|j] Hi Hj Hne Hn;
    simplify_eq/=; rewrite countM_cons in Hn.
  - rewrite Hxy in Hn. apply list_elem_of_lookup_2, countM_elem in Hj. lia.
  - rewrite matches_refl in Hn.
    apply list_elem_of_lookup_2, countM_elem in Hi.
    rewrite (countM_matches x y) in Hi by done. lia.
  - eapply (IH i j); eauto with lia.
Qed.

Lemma not_matches_via a b c :
  input_matches a b = true -> input_matches a c = false ->
  input_matches b c = false.
Proof.
  intros Hab Hac. destruct (input_matches b c) eqn:Hbc; [|done].
  rewrite <- Hac. symmetry. by eapply matches_trans.
Qed.

(** After the first step of [closeEditor(e)] the active editor is another
    editor than [e] and heads [mru], or [e] was the only editor. *)
Lemma close_active_result e g :
  group_ok g -> active_ok g -> indexOf (Some e) (editors g) <> -1 ->
  match active (close_active e true g) with
  | None => length (editors g) = 1%nat
  | Some a' =>
      input_matches a' e = false /\
      exists h, head (mru (close_active e true g)) = Some h
                /\ input_matches h a' = true
  end.
Proof.
  intros Hok Hact Hi. unfold close_active. rewrite andb_true_l.
  unfold active_ok in Hact.
  destruct (active g) as [a|] eqn:Ha.
  2:{ exfalso. apply Hi. by rewrite Hact. }
  destruct Hact as (h & Hh & Hha). simpl matches.
  destruct (input_matches a e) eqn:Hae.
  2:{ rewrite Ha. eauto. }
  destruct (mru g) as [|h' [|h2 rest]] eqn:Hmru; simplify_eq/=.
  - pose proof (ok_length g Hok) as Hl. by rewrite Hmru in Hl.
  - assert (input_matches h h2 = false) as Hhh2.
    { apply (mru_distinct g 0 1 h h2 Hok); by rewrite ?Hmru. }
    assert (indexOf (Some h2) (editors g) <> -1) as Hh2.
    { apply indexOf_present. rewrite (ok_count g Hok), Hmru.
      rewrite !countM_cons, matches_refl. lia. }
    rewrite setActive_state.
    destruct (Z.eqb_spec (indexOf (Some h2) (editors g)) (-1)); [done|].
    rewrite Ha. simpl.
    assert (input_matches a h2 = false) as ->.
    { exact (not_matches_via h a h2 Hha Hhh2). }
    simpl. split; [|exists h2; by rewrite matches_refl].
    rewrite matches_sym.
    apply (not_matches_via h e h2); [by eapply matches_trans|done].
Qed.

Lemma head_delete {A} (l : list A) (j : nat) : head (delete (S j) l) = head l.
Proof. by destruct l. Qed.

Lemma closeEditor_active_ok o g :
  group_ok g -> active_ok g -> active_ok (fst (closeEditor o true g)).
Proof.
  intros Hok Hact.
  destruct (decide (indexOf o (editors g) = -1)) as [Hi|Hi].
  { by rewrite closeEditor_absent. }
  destruct o as [e|]; [|done].
  rewrite closeEditor_state by done.
  pose proof (close_active_result e g Hok Hact Hi) as Hres.
  set (g1 := close_preview e (close_active e true g)).
  assert (group_ok g1) as Hok1
    by by apply close_preview_group_ok, close_active_group_ok.
  assert (editors g1 = editors g) as Hed
    by by unfold g1; rewrite close_preview_editors, close_active_editors.
  assert (active g1 = active (close_active e true g)) as Hag
    by apply close_preview_active.
  assert (mru g1 = mru (close_active e true g)) as Hmg
    by apply close_preview_mru.
  rewrite <- Hag, <- Hmg in Hres. rewrite <- Hed in Hi |- *.
  destruct (splice_del_found e g1 Hok1 Hi)
    as (i & j & y & z & Hy & Hye & Hz & Hze & Hfirst & ->).
  unfold active_ok. simpl.
  destruct (active g1) as [a'|].
  - destruct Hres as (Ha'e & h & Hh & Hha'). exists h. split; [|done].
    destruct j as [|j]; [|by rewrite head_delete].
    exfalso. destruct (mru g1) as [|h' rest]; simplify_eq/=.
    assert (input_matches a' e = true); [|congruence].
    eapply matches_trans; [|exact Hze]. by rewrite matches_sym.
  - rewrite Hed in Hy |- *. pose proof (length_delete_lookup _ _ _ Hy) as Hd.
    destruct (delete i (editors g)); [done|]. simpl in Hd. lia.
Qed.

Lemma closeEditor_preview_kept o n g p :
  preview (fst (closeEditor o n g)) = Some p -> preview g = Some p.
Proof.
  destruct (decide (indexOf o (editors g) = -1)) as [Hi|Hi].
  { by rewrite closeEditor_absent. }
  destruct o as [e|]; [|done].
  rewrite closeEditor_state, splice_del_state by done. simpl.
  unfold close_preview. rewrite close_active_preview.
  destruct (matches (preview g) (Some e)); simpl; [done|].
  by rewrite close_active_preview.
Qed.

(** *** [pin], [unpin], [moveEditor] *)

Lemma pin_state o g :
  fst (pin o g) = if isPreview g o then set_preview None g else g.
Proof.
  unfold pin. destruct (isPreview g o) eqn:Hp; [|done]. simpl.
  destruct o; [done|]. unfold isPreview, matches in Hp. by destruct (preview g).
Qed.

Lemma pin_ok o g : group_ok g -> group_ok (fst (pin o g)).
Proof.
  intros Hok. rewrite pin_state.
  destruct (isPreview g o); [by apply group_ok_unpreview|done].
Qed.

Lemma pin_active_ok o g : active_ok g -> active_ok (fst (pin o g)).
Proof. intros Hact. rewrite pin_state. by destruct (isPreview g o). Qed.

Lemma isPinned_present o g : isPinned g o = true -> indexOf o (editors g) <> -1.
Proof. unfold isPinned. by destruct (Z.eqb_spec (indexOf o (editors g)) (-1)). Qed.

Lemma unpin_state e g :
  isPinned g (Some e) = true ->
  fst (unpin (Some e) g)
  = fst (closeEditor (preview g) true (set_preview (Some e) g)).
Proof. intros Hp. unfold unpin. by rewrite Hp. Qed.

Lemma unpin_absent o g : isPinned g o = false -> unpin o g = (g, []).
Proof. intros Hp. unfold unpin. by rewrite Hp. Qed.

Lemma set_preview_ok e g :
  group_ok g -> indexOf (Some e) (editors g) <> -1 ->
  group_ok (set_preview (Some e) g).
Proof.
  intros Hok He. pose proof (present_once g e Hok He).
  destruct Hok as [? ? ? ?]. split; simpl; try done. by intros p [= <-].
Qed.

Lemma unpin_ok o g : group_ok g -> group_ok (fst (unpin o g)).
Proof.
  intros Hok. destruct (isPinned g o) eqn:Hp; [|by rewrite unpin_absent].
  destruct o as [e|]; [|done]. rewrite unpin_state by done.
  apply closeEditor_ok, set_preview_ok; [done|]. by apply isPinned_present.
Qed.

Lemma unpin_active_ok o g :
  group_ok g -> active_ok g -> active_ok (fst (unpin o g)).
Proof.
  intros Hok Hact. destruct (isPinned g o) eqn:Hp; [|by rewrite unpin_absent].
  destruct o as [e|]; [|done]. rewrite unpin_state by done.
  apply closeEditor_active_ok; [|done].
  apply set_preview_ok; [done|]. by apply isPinned_present.
Qed.

Lemma moveEditor_absent o t g :
  indexOf o (editors g) = -1 -> moveEditor o t g = (g, []).
Proof. intros Hi. unfold moveEditor. by rewrite Hi. Qed.

Lemma moveEditor_state e t g :
  indexOf (Some e) (editors g) <> -1 ->
  fst (moveEditor (Some e) t g)
  = set_editors
      (JS.splice t 0 [e] (JS.splice (indexOf (Some e) (editors g)) 1 [] (editors g))) g.
Proof.
  intros Hi. unfold moveEditor. pose proof (indexOf_range (Some e) (editors g)).
  by destruct (Z.ltb_spec (indexOf (Some e) (editors g)) 0); [lia|].
Qed.

Lemma moveEditor_ok o t g : group_ok g -> group_ok (fst (moveEditor o t g)).
Proof.
  intros Hok.
  destruct (decide (indexOf o (editors g) = -1)) as [Hi|Hi].
  { by rewrite moveEditor_absent. }
  destruct o as [e|]; [|done]. rewrite moveEditor_state by done.
  destruct (indexOf_found e (editors g) _ eq_refl Hi) as (y & Hy & Hye & Hr & _).
  rewrite splice_delete by done.
  assert (forall x, countM x (JS.splice t 0 [e] (delete (Z.to_nat (indexOf (Some e) (editors g))) (editors g)))
                    = countM x (editors g)) as Hcount.
  { intros x. rewrite splice_insert_count.
    pose proof (countM_delete x _ _ _ Hy).
    rewrite (matches_sym e x), <- (matches_left _ _ x Hye), (matches_sym x y). lia. }
  destruct Hok as [Hl Hc Hn Hp]. split; simpl.
  - rewrite splice_insert_length, <- Hl. by eapply length_delete_lookup.
  - intros x. by rewrite Hcount.
  - intros x. by rewrite Hcount.
  - intros p Hpp. rewrite Hcount. by apply Hp.
Qed.

Lemma moveEditor_active_ok o t g :
  group_ok g -> active_ok g -> active_ok (fst (moveEditor o t g)).
Proof.
  intros Hok Hact.
  destruct (decide (indexOf o (editors g) = -1)) as [Hi|Hi].
  { by rewrite moveEditor_absent. }
  destruct o as [e|]; [|done]. rewrite moveEditor_state by done.
  unfold active_ok in *. simpl. destruct (active g); [done|].
  rewrite Hact in Hi. done.
Qed.

(** *** [closeEditors], [closeAllEditors] *)

Lemma closeEditors_preserves (P : EditorGroup E -> Prop) o d g :
  (forall o' g', P g' -> P (fst (closeEditor o' true g'))) ->
  P g -> P (fst (closeEditors o d g)).
Proof.
  intros Hclose Hg. unfold closeEditors.
  destruct (indexOf o (editors g) =? -1); [done|].
  destruct d as [[|]|]; apply forEach_preserves; eauto.
Qed.

Lemma closeAllEditors_preserves (P : EditorGroup E -> Prop) g :
  (forall o' g', P g' -> P (fst (closeEditor o' true g'))) ->
  P g -> P (fst (closeAllEditors g)).
Proof.
  intros Hclose Hg. unfold closeAllEditors. rewrite fst_andThen.
  apply Hclose, forEach_preserves; eauto.
Qed.

(** *** [openEditor] *)

Lemma openEditor_new dir e opts g :
  indexOf (Some e) (editors g) = -1 ->
  fst (openEditor dir e opts g) =
  activateIf (makeActive opts g) e
    (if makePinned opts
     then fst (splice (targetIndex dir opts g) false (Some e) g)
     else
       match preview g with
       | None =>
           set_preview (Some e)
             (fst (splice (targetIndex dir opts g) false (Some e) g))
       | Some _ =>
           set_preview (Some e)
             (fst (splice
                     (if targetIndex dir opts g >=? indexOf (preview g) (editors g)
                      then targetIndex dir opts g - 1 else targetIndex dir opts g)
                     false (Some e)
                     (fst (closeEditor (preview g) (negb (makeActive opts g)) g))))
       end).
Proof.
  intros Hi. unfold openEditor. cbv zeta. rewrite Hi.
  change (-1 =? -1) with true. cbv iota.
  fold (makePinned opts). fold (makeActive opts g). fold (targetIndex dir opts g).
  unfold activateIf.
  destruct (makePinned opts) eqn:Hp.
  - rewrite orb_true_l, !fst_andThen, fst_skip, fst_fireEvent.
    by destruct (makeActive opts g).
  - rewrite orb_false_l. destruct (preview g) as [p|] eqn:Hprev.
    + rewrite bool_decide_true by eauto. cbv [negb].
      rewrite !fst_andThen, fst_skip, fst_fireEvent, fst_modify. rewrite Hprev.
      rewrite !fst_andThen. by destruct (makeActive opts g).
    + rewrite bool_decide_false by (by intros [? ?]). cbv [negb].
      rewrite !fst_andThen, fst_fireEvent, fst_modify.
      change (preview (fst (splice (targetIndex dir opts g) false (Some e) g)))
        with (preview g).
      rewrite Hprev, fst_skip. by destruct (makeActive opts g).
Qed.

Lemma openEditor_existing dir e opts g :
  indexOf (Some e) (editors g) <> -1 ->
  fst (openEditor dir e opts g) =
  let g1 := if makePinned opts then fst (pin (Some e) g) else g in
  let g2 := if makeActive opts g then fst (setActive (Some e) g1) else g1 in
  match opts ≫= opt_index with
  | Some i => fst (moveEditor (Some e) i g2)
  | None => g2
  end.
Proof.
  intros Hi. unfold openEditor. cbv zeta.
  destruct (Z.eqb_spec (indexOf (Some e) (editors g)) (-1)); [done|].
  fold (makePinned opts). fold (makeActive opts g).
  rewrite !fst_andThen.
  destruct (makePinned opts), (makeActive opts g), (opts ≫= opt_index); done.
Qed.

Lemma closeEditor_active_unchanged o n g :
  n && matches (active g) o = false ->
  active (fst (closeEditor o n g)) = active g.
Proof.
  intros Hn.
  destruct (decide (indexOf o (editors g) = -1)) as [Hi|Hi].
  { by rewrite closeEditor_absent. }
  destruct o as [e|]; [|done].
  rewrite closeEditor_state, splice_del_state by done. simpl.
  rewrite close_preview_active. unfold close_active. by rewrite Hn.
Qed.

Lemma closeEditor_count x o n g :
  (countM x (editors (fst (closeEditor o n g))) <= countM x (editors g))%nat.
Proof.
  destruct (decide (indexOf o (editors g) = -1)) as [Hi|Hi].
  { by rewrite closeEditor_absent. }
  destruct o as [e|]; [|done].
  rewrite closeEditor_state, splice_del_state by done.
  cbn [editors set_mru set_editors].
  rewrite close_preview_editors, close_active_editors.
  destruct (indexOf_found e (editors g) _ eq_refl Hi) as (y & Hy & _ & Hr & _).
  rewrite splice_delete by done. pose proof (countM_delete x _ _ _ Hy).
  destruct (input_matches y x); lia.
Qed.

Lemma closeEditor_still_absent e o n g :
  indexOf (Some e) (editors g) = -1 ->
  indexOf (Some e) (editors (fst (closeEditor o n g))) = -1.
Proof.
  rewrite !indexOf_none. pose proof (closeEditor_count e o n g). lia.
Qed.

Lemma splice_add_present t e g :
  indexOf (Some e) (editors (fst (splice t false (Some e) g))) <> -1.
Proof.
  apply indexOf_present. rewrite splice_add_state. simpl.
  rewrite splice_insert_count, matches_refl. lia.
Qed.

Lemma activateIf_ok b e g : group_ok g -> group_ok (activateIf b e g).
Proof. intros Hok. unfold activateIf. destruct b; [by apply setActive_ok|done]. Qed.

Lemma openEditor_ok dir e opts g :
  group_ok g -> group_ok (fst (openEditor dir e opts g)).
Proof.
  intros Hok.
  destruct (decide (indexOf (Some e) (editors g) = -1)) as [Hi|Hi].
  - rewrite openEditor_new by done. apply activateIf_ok.
    destruct (makePinned opts); [by apply splice_add_ok|].
    destruct (preview g) as [p|] eqn:Hprev.
    + apply set_preview_ok; [|apply splice_add_present].
      apply splice_add_ok; [by apply closeEditor_ok|].
      by apply closeEditor_still_absent.
    + apply set_preview_ok; [|apply splice_add_present]. by apply splice_add_ok.
  - rewrite openEditor_existing by done. cbv zeta.
    assert (group_ok (if makePinned opts then fst (pin (Some e) g) else g)) as H1.
    { destruct (makePinned opts); [by apply pin_ok|done]. }
    set (g1 := if makePinned opts then _ else _) in *.
    assert (group_ok (if makeActive opts g then fst (setActive (Some e) g1) else g1)) as H2.
    { destruct (makeActive opts g); [by apply setActive_ok|done]. }
    destruct (opts ≫= opt_index); [by apply moveEditor_ok|done].
Qed.

Lemma active_ok_append g e t :
  is_Some (active g) -> active_ok g ->
  active_ok (fst (splice t false (Some e) g)).
Proof.
  intros [a Ha] Hact. unfold active_ok in *. rewrite splice_add_state. simpl.
  rewrite Ha in *. destruct Hact as (h & Hh & Hha). exists h. split; [|done].
  by destruct (mru g).
Qed.

Lemma active_ok_set_preview p g : active_ok g -> active_ok (set_preview p g).
Proof. done. Qed.

Lemma makeActive_false opts g :
  makeActive opts g = false ->
  is_Some (active g)
  /\ (makePinned opts = false -> matches (preview g) (active g) = false).
Proof.
  unfold makeActive. rewrite !orb_false_iff, negb_false_iff, bool_decide_eq_true.
  intros [[_ Ha] Hp]. split; [done|]. intros Hpin. by rewrite Hpin in Hp.
Qed.

Lemma matches_comm (a b : option E) : matches a b = matches b a.
Proof. destruct a, b; simpl; try done. apply matches_sym. Qed.

Lemma openEditor_active_ok dir e opts g :
  group_ok g -> active_ok g -> active_ok (fst (openEditor dir e opts g)).
Proof.
  intros Hok Hact.
  destruct (decide (indexOf (Some e) (editors g) = -1)) as [Hi|Hi].
  - rewrite openEditor_new by done.
    assert (matches (active g) (Some e) = false) as Hae.
    { destruct (active g) as [a|] eqn:Ha; [|done]. simpl.
      destruct (input_matches a e) eqn:Hm; [|done].
      pose proof (active_ok_present g a Hok Hact Ha) as H1.
      rewrite (countM_matches a e) in H1 by done.
      apply indexOf_none in Hi. lia. }
    unfold activateIf. destruct (makeActive opts g) eqn:Hma.
    + (* the new editor is activated *)
      apply setActive_activates.
      * destruct (makePinned opts); [apply splice_add_present|].
        destruct (preview g); apply splice_add_present.
      * destruct (makePinned opts); [done|].
        destruct (preview g) eqn:Hprev; simpl; [|done].
        by rewrite closeEditor_active_unchanged.
    + (* the active editor stays *)
      destruct (makeActive_false _ _ Hma) as [Hsome Hprevact].
      destruct (makePinned opts); [by apply active_ok_append|].
      specialize (Hprevact eq_refl).
      destruct (preview g) as [p|] eqn:Hprev;
        [|by apply active_ok_set_preview, active_ok_append].
      assert (active (fst (closeEditor (Some p) true g)) = active g) as Hsame.
      { apply closeEditor_active_unchanged. by rewrite matches_comm, Hprevact. }
      change (negb false) with true.
      apply active_ok_set_preview, active_ok_append.
      * by rewrite Hsame.
      * by apply closeEditor_active_ok.
  - rewrite openEditor_existing by done. cbv zeta.
    assert (group_ok (if makePinned opts then fst (pin (Some e) g) else g)
            /\ active_ok (if makePinned opts then fst (pin (Some e) g) else g))
      as [H1 H1'].
    { destruct (makePinned opts); [|done]. split; [by apply pin_ok|by apply pin_active_ok]. }
    set (g1 := if makePinned opts then _ else _) in *.
    assert (group_ok (if makeActive opts g then fst (setActive (Some e) g1) else g1)
            /\ active_ok (if makeActive opts g then fst (setActive (Some e) g1) else g1))
      as [H2 H2'].
    { destruct (makeActive opts g); [|done].
      split; [by apply setActive_ok|by apply setActive_active_ok]. }
    destruct (opts ≫= opt_index); [by apply moveEditor_active_ok|done].
Qed.

(** *** Every call keeps the invariant *)

Lemma call_ok op g : group_ok g -> group_ok (fst (call op g)).
Proof.
  intros Hok. destruct op; cbn [call].
  - by apply openEditor_ok.
  - by apply closeEditor_ok.
  - apply closeEditors_preserves; [|done]. intros. by apply closeEditor_ok.
  - apply closeAllEditors_preserves; [|done]. intros. by apply closeEditor_ok.
  - by apply moveEditor_ok.
  - by apply setActive_ok.
  - by apply pin_ok.
  - by apply unpin_ok.
Qed.

Lemma call_active_ok op g :
  opens_next op = true -> group_ok g /\ active_ok g ->
  group_ok (fst (call op g)) /\ active_ok (fst (call op g)).
Proof.
  intros Hnext [Hok Hact]. split; [by apply call_ok|].
  assert (forall o' g', group_ok g' /\ active_ok g' ->
            group_ok (fst (closeEditor o' true g'))
            /\ active_ok (fst (closeEditor o' true g'))) as Hclose.
  { intros o' g' [? ?]. split; [by apply closeEditor_ok|by apply closeEditor_active_ok]. }
  destruct op; cbn [call].
  - by apply openEditor_active_ok.
  - destruct openNext as [[|]|]; try done; by apply closeEditor_active_ok.
  - by apply (closeEditors_preserves (fun g' => group_ok g' /\ active_ok g')).
  - by apply (closeAllEditors_preserves (fun g' => group_ok g' /\ active_ok g')).
  - by apply moveEditor_active_ok.
  - by apply setActive_active_ok.
  - by apply pin_active_ok.
  - by apply unpin_active_ok.
Qed.

Lemma run_ok ops g : group_ok g -> group_ok (run ops g).
Proof.
  revert g. induction ops as [|op ops IH]; intros g Hok; [done|].
  apply IH. by apply call_ok.
Qed.

Lemma run_active_ok ops g :
  forallb opens_next ops = true -> group_ok g /\ active_ok g ->
  group_ok (run ops g) /\ active_ok (run ops g).
Proof.
  revert g. induction ops as [|op ops IH]; intros g Hall Hg; [done|].
  simpl in Hall. apply andb_true_iff in Hall as [H1 H2].
  apply IH; [done|]. by apply call_active_ok.
Qed.

Lemma group_ok_same_editors g : group_ok g -> same_editors g.
Proof.
  intros [Hl Hc Hn Hp]. split_and!; [done|..].
  - intros e He. apply countM_elem in He. rewrite <- Hc in He.
    specialize (Hn e). lia.
  - intros e He. apply countM_elem in He. rewrite <- Hc.
    specialize (Hn e). lia.
Qed.

(** C1, as amended. After every sequence of calls of the public methods of a
    group that starts from an empty group, [editors] and [mru] have the same
    length, every editor of one matches exactly one editor of the other, and
    the preview is null or matches exactly one editor. When no call is a
    [closeEditor] with [openNext = false], the active editor is null or
    matches exactly one editor. *)
Theorem invariants_after_calls (ops : list GroupOp) id s :
  same_editors (run ops (create id s))
  /\ preview_present (run ops (create id s))
  /\ (forallb opens_next ops = true -> active_present (run ops (create id s))).
Proof.
  pose proof (run_ok ops (create id s) (create_ok id s)) as Hok.
  split_and!.
  - by apply group_ok_same_editors.
  - intros p Hp. by apply (ok_preview _ Hok).
  - intros Hall a Ha.
    destruct (run_active_ok ops (create id s) Hall) as [_ Hact].
    { split; [apply create_ok|apply create_active_ok]. }
    by eapply active_ok_present.
Qed.

(** *** Editors that are not in the group *)

Lemma setActive_absent o g :
  indexOf o (editors g) = -1 -> setActive o g = (g, []).
Proof. intros Hi. unfold setActive. by rewrite Hi. Qed.

(** For an editor that the group does not hold, [closeEditor], [moveEditor]
    and [setActive] leave the group as it is and fire nothing. *)
Lemma absent_editor_noop e g n t :
  indexOf (Some e) (editors g) = -1 ->
  closeEditor (Some e) n g = (g, [])
  /\ moveEditor (Some e) t g = (g, [])
  /\ setActive (Some e) g = (g, []).
Proof.
  intros Hi. split_and!.
  - by apply closeEditor_absent.
  - by apply moveEditor_absent.
  - by apply setActive_absent.
Qed.

(** *** Replacing the preview *)

Lemma closeEditor_editors e n g :
  indexOf (Some e) (editors g) <> -1 ->
  exists i y, editors g !! i = Some y /\ input_matches y e = true
    /\ editors (fst (closeEditor (Some e) n g)) = delete i (editors g).
Proof.
  intros Hi.
  destruct (indexOf_found e (editors g) _ eq_refl Hi) as (y & Hy & Hye & Hr & _).
  exists (Z.to_nat (indexOf (Some e) (editors g))), y. split_and!; try done.
  rewrite closeEditor_state, splice_del_state by done.
  cbn [editors set_mru set_editors].
  rewrite close_preview_editors, close_active_editors. by apply splice_delete.
Qed.

Lemma activateIf_editors b e g : editors (activateIf b e g) = editors g.
Proof. unfold activateIf. destruct b; [apply setActive_editors|done]. Qed.

Lemma activateIf_preview b e g : preview (activateIf b e g) = preview g.
Proof. unfold activateIf. destruct b; [apply setActive_preview|done]. Qed.

Lemma closeEditor_fires e n g :
  indexOf (Some e) (editors g) <> -1 -> disposed g = false ->
  exists g',
    (EditorClosed {| ev_editor := e;
                     ev_pinned := negb (matches (preview g) (Some e)) |}, g')
    ∈ snd (closeEditor (Some e) n g).
Proof.
  intros Hi Hd. unfold closeEditor.
  destruct (Z.eqb_spec (indexOf (Some e) (editors g)) (-1)); [done|].
  cbv iota beta. rewrite snd_andThen. cbv beta zeta.
  assert (fst (if n && matches (active g) (Some e)
               then if (1 <? length (mru g))%nat
                    then setActive (mru g !! 1%nat) g
                    else modify (set_active None) g
               else skip g) = close_active e n g) as ->.
  { unfold close_active. destruct (n && _); [|done]. by destruct (1 <? _)%nat. }
  rewrite close_active_preview.
  assert (disposed (close_active e n g) = false) as Hd'.
  { unfold close_active. destruct (n && _); [|done].
    destruct (1 <? _)%nat; [|done]. rewrite setActive_state.
    destruct (mru g !! 1%nat); [|done]. by destruct (_ || _). }
  eexists. apply elem_of_app. right.
  rewrite !snd_andThen. apply elem_of_app. right. apply elem_of_app. right.
  unfold fireEvent. rewrite snd_andThen. apply elem_of_app. left.
  unfold fire.
  match goal with |- context [disposed ?g'] =>
    assert (disposed g' = false) as -> end.
  { by destruct (negb _). }
  apply list_elem_of_singleton. reflexivity.
Qed.

(** C5. In a group that keeps its invariant and has a preview, opening an
    editor that the group does not hold, without asking for it to be pinned,
    closes the old preview: it is no longer in [editors] nor in [mru] and
    its close is fired as that of a preview. The new editor is in the group
    and is its preview, and the group has as many editors as before. *)
Theorem openEditor_replaces_preview dir e opts g p :
  group_ok g -> disposed g = false -> preview g = Some p ->
  indexOf (Some e) (editors g) = -1 -> makePinned opts = false ->
  countM p (editors (fst (openEditor dir e opts g))) = 0%nat
  /\ countM p (mru (fst (openEditor dir e opts g))) = 0%nat
  /\ (exists g', (EditorClosed {| ev_editor := p; ev_pinned := false |}, g')
                 ∈ snd (openEditor dir e opts g))
  /\ preview (fst (openEditor dir e opts g)) = Some e
  /\ countM e (editors (fst (openEditor dir e opts g))) = 1%nat
  /\ length (editors (fst (openEditor dir e opts g))) = length (editors g).
Proof.
  intros Hok Hd Hprev He Hpin.
  pose proof (openEditor_ok dir e opts g Hok) as Hok'.
  assert (indexOf (Some p) (editors g) <> -1) as Hp.
  { apply indexOf_present. by rewrite (ok_preview g Hok p Hprev). }
  destruct (closeEditor_editors p (negb (makeActive opts g)) g Hp)
    as (i & y & Hy & Hyp & Hed).
  assert (input_matches e p = false) as Hep.
  { destruct (input_matches e p) eqn:Hm; [|done].
    apply indexOf_none in He. rewrite (countM_matches e p) in He by done.
    rewrite (ok_preview g Hok p Hprev) in He. done. }
  assert (editors (fst (openEditor dir e opts g))
          = JS.splice (if targetIndex dir opts g >=? indexOf (Some p) (editors g)
                       then targetIndex dir opts g - 1 else targetIndex dir opts g)
              0 [e] (delete i (editors g))) as Heds.
  { rewrite openEditor_new by done. rewrite activateIf_editors, Hpin, Hprev.
    rewrite splice_add_state. cbn [editors set_preview set_mru set_editors].
    by rewrite Hed. }
  assert (countM p (editors (fst (openEditor dir e opts g))) = 0%nat) as Hcp.
  { rewrite Heds, splice_insert_count, Hep.
    pose proof (countM_delete p _ _ _ Hy) as Hdel.
    rewrite Hyp, (ok_preview g Hok p Hprev) in Hdel. lia. }
  split_and!.
  - done.
  - by rewrite <- (ok_count _ Hok').
  - unfold openEditor. cbv zeta. rewrite He. change (-1 =? -1) with true.
    cbv iota. fold (makePinned opts). fold (makeActive opts g).
    rewrite Hpin, orb_false_l, (bool_decide_true (is_Some (preview g)))
      by (rewrite Hprev; eauto).
    cbv [negb]. rewrite snd_andThen, fst_skip, snd_andThen.
    destruct (closeEditor_fires p (negb (makeActive opts g)) g Hp Hd) as (g' & Hin).
    rewrite Hprev in Hin. simpl matches in Hin. rewrite matches_refl in Hin.
    exists g'. apply elem_of_app. right. apply elem_of_app. left.
    rewrite snd_andThen. apply elem_of_app. left. rewrite Hprev.
    rewrite snd_andThen. apply elem_of_app. left. exact Hin.
  - rewrite openEditor_new by done. by rewrite activateIf_preview, Hpin, Hprev.
  - rewrite Heds, splice_insert_count, matches_refl.
    pose proof (countM_delete e _ _ _ Hy) as Hdel. apply indexOf_none in He. lia.
  - rewrite Heds, splice_insert_length. by eapply length_delete_lookup.
Qed.

(** *** Serialization *)

Section Serialization.
Variable getEditorInputFactory : string -> option (IEditorInputFactory E).
Local Abbreviation serialized := (serialized getEditorInputFactory).
Local Abbreviation serializable := (serializable getEditorInputFactory).
Local Abbreviation previewIndex := (previewIndex getEditorInputFactory).
Local Abbreviation persisted := (persisted getEditorInputFactory).
Local Abbreviation restrict := (restrict getEditorInputFactory).

Lemma serializable_serialized e :
  serializable e = true -> exists s, serialized e = Some s.
Proof. unfold GroupProps.serializable. intros [s Hs]%bool_decide_eq_true. eauto. Qed.

Lemma not_serializable_serialized e :
  serializable e = false -> serialized e = None.
Proof.
  unfold GroupProps.serializable. intros Hs%bool_decide_eq_false.
  destruct (serialized e); [|done]. exfalso. eauto.
Qed.

Lemma serialize_editor_step g sE sd p0 e :
  serialize_editor getEditorInputFactory g (sE, sd, p0) e =
  if serializable e
  then (sE ++ [e], sd ++ option_list (serialized e),
        if bool_decide (preview g = Some e)
        then Some (Z.of_nat (length sE)) else p0)
  else (sE, sd, p0).
Proof.
  unfold serialize_editor.
  destruct (serializable e) eqn:Hs.
  - destruct (serializable_serialized e Hs) as [s Hser]. rewrite Hser.
    unfold GroupProps.serialized in Hser.
    destruct (getEditorInputFactory (getId e)) as [f|]; [|done].
    destruct (factory_serialize f e) as [v|]; [|done]. simplify_eq/=.
    rewrite length_app. simpl.
    by replace (Z.of_nat (length sE + 1) - 1) with (Z.of_nat (length sE)) by lia.
  - apply not_serializable_serialized in Hs. unfold GroupProps.serialized in Hs.
    destruct (getEditorInputFactory (getId e)) as [f|]; [|done].
    by destruct (factory_serialize f e).
Qed.

Lemma serialize_fold g l : forall sE sd p0,
  fold_left (serialize_editor getEditorInputFactory g) l (sE, sd, p0)
  = (sE ++ List.filter serializable l, sd ++ omap serialized l,
     previewIndex g l (length sE) p0).
Proof.
  induction l as [|e l IH]; intros sE sd p0.
  - simpl. by rewrite !app_nil_r.
  - cbn [fold_left]. rewrite serialize_editor_step.
    cbn [List.filter omap list_omap GroupProps.previewIndex].
    destruct (serializable e) eqn:Hs; rewrite IH.
    + destruct (serializable_serialized e Hs) as [s ->]. simpl.
      rewrite <- !app_assoc, length_app. simpl. rewrite Nat.add_1_r. done.
    + by rewrite (not_serializable_serialized e Hs).
Qed.

Lemma serialize_spec g :
  serialize getEditorInputFactory g =
  {| ser_label := label g;
     ser_editors := omap serialized (editors g);
     ser_mru :=
       List.filter (fun i => 0 <=? i)
         (map (fun e => indexOf (Some e) (List.filter serializable (editors g)))
            (mru g));
     ser_preview := previewIndex g (editors g) 0 None |}.
Proof. unfold serialize. by rewrite serialize_fold. Qed.

Lemma previewIndex_none g l : forall n p0,
  (forall e, e ∈ List.filter serializable l -> preview g <> Some e) ->
  previewIndex g l n p0 = p0.
Proof.
  induction l as [|e l IH]; intros n p0 Hno; simpl; [done|].
  simpl in Hno. destruct (serializable e).
  - rewrite IH by (intros e' He'; apply Hno; by right).
    rewrite bool_decide_false; [done|]. apply Hno. left.
  - by apply IH.
Qed.

Lemma previewIndex_found g l p : forall n p0,
  preview g = Some p -> p ∈ List.filter serializable l ->
  exists k, previewIndex g l n p0 = Some (Z.of_nat (n + k))
            /\ List.filter serializable l !! k = Some p.
Proof.
  induction l as [|e l IH]; intros n p0 Hp Hin; simpl in *.
  - by apply elem_of_nil in Hin.
  - destruct (serializable e); [|by apply IH].
    destruct (decide (p ∈ List.filter serializable l)) as [Hl|Hl].
    + destruct (IH (S n) (if bool_decide (preview g = Some e)
                          then Some (Z.of_nat n) else p0) Hp Hl) as (k & Hk & Hlk).
      exists (S k). split; [|done]. rewrite Hk. f_equal. lia.
    + apply elem_of_cons in Hin as [->|Hin]; [|done].
      exists 0%nat. split; [|done].
      rewrite previewIndex_none.
      * rewrite bool_decide_true by done. f_equal. lia.
      * intros e' He' Heq. rewrite Hp in Heq. by simplify_eq.
Qed.

Lemma mapOutcome_editors l :
  factories_round_trip getEditorInputFactory ->
  exists eds,
    mapOutcome
      (fun s => match getEditorInputFactory (ser_id s) with
                | Some factory => Returns (factory_deserialize factory (ser_value s))
                | None => Throws
                end) (omap serialized l) = Returns eds
    /\ Forall2 same_input eds (List.filter serializable l).
Proof.
  intros Hrt. induction l as [|e l (eds & Heds & Hall)]; simpl.
  - exists []. split; [done|constructor].
  - destruct (serializable e) eqn:Hs.
    + destruct (serializable_serialized e Hs) as [s Hser]. rewrite Hser. simpl.
      unfold GroupProps.serialized in Hser.
      destruct (getEditorInputFactory (getId e)) as [f|] eqn:Hf; [|done].
      destruct (factory_serialize f e) as [v|] eqn:Hv; [|done]. simplify_eq/=.
      rewrite Hf, Heds. eexists. split; [done|].
      constructor; [|done]. by apply (Hrt e f v).
    + rewrite (not_serializable_serialized e Hs). eauto.
Qed.

Lemma mapOutcome_mru (eds sE : list E) (m : list E) :
  Forall2 same_input eds sE ->
  exists m',
    mapOutcome
      (fun i => match JS.get eds i with
                | Some e => Returns e
                | None => Unrepresented
                end)
      (List.filter (fun i => 0 <=? i) (map (fun x => indexOf (Some x) sE) m))
    = Returns m'
    /\ Forall2 same_input m' (List.filter (fun x => 0 <=? indexOf (Some x) sE) m).
Proof.
  intros Hall. induction m as [|x m (m' & Hm' & Hall')].
  - exists []. split; [done|constructor].
  - cbn [map List.filter].
    destruct (Z.leb_spec 0 (indexOf (Some x) sE)) as [Hi|Hi]; [|eauto].
    cbn [mapOutcome]. assert (indexOf (Some x) sE <> -1) as Hne by lia.
    destruct (indexOf_found x sE _ eq_refl Hne) as (y & Hy & Hyx & Hr & _).
    destruct (Forall2_lookup_r _ _ _ _ _ Hall Hy) as (e' & He' & He'y).
    rewrite js_get_in, He', Hm' by lia.
    eexists. split; [done|]. constructor; [|done].
    by eapply matches_trans.
Qed.

(** C6, as amended. When the factories give back an input that matches the
    one they serialized, the active editor of [g] heads [mru] and the
    preview is the object held in [editors], [deserialize(serialize(g))]
    returns a group whose [editors], [mru] and preview are those of [g]
    restricted to the serializable editors, up to [matches]. Its active
    editor is the first editor of the restricted [mru]: the active editor of
    [g] when that one is serializable. *)
Theorem deserialize_serialize g id :
  factories_round_trip getEditorInputFactory ->
  active_ok g -> preview_stored g ->
  exists g',
    deserialize getEditorInputFactory id (serialize getEditorInputFactory g)
    = Returns g'
    /\ label g' = label g
    /\ Forall2 same_input (editors g') (List.filter serializable (editors g))
    /\ Forall2 same_input (mru g') (List.filter (persisted g) (mru g))
    /\ active g' = head (mru g')
    /\ (forall a, active g = Some a -> persisted g a = true ->
                  same_option (active g') (Some a))
    /\ same_option (preview g') (restrict (preview g)).
Proof.
  intros Hrt Hact Hstored. rewrite serialize_spec. unfold deserialize.
  cbn [ser_editors ser_mru ser_preview ser_label].
  destruct (mapOutcome_editors (editors g) Hrt) as (eds & -> & Heds).
  destruct (mapOutcome_mru eds _ (mru g) Heds) as (m' & -> & Hm').
  eexists. split; [done|].
  cbn [label editors mru active preview].
  split_and!; try done.
  - (* the active editor *)
    intros a Ha Hpa. unfold active_ok in Hact. rewrite Ha in Hact.
    destruct Hact as (h & Hh & Hha).
    destruct (mru g) as [|h' rest]; [done|]. simpl in Hh. injection Hh as ->.
    cbn [List.filter] in Hm'. unfold GroupProps.persisted in Hpa.
    rewrite <- (indexOf_matches h a) in Hpa by done. rewrite Hpa in Hm'.
    inversion Hm' as [|h1 ? ? ? Hh1]; subst. simpl.
    by eapply matches_trans.
  - (* the preview *)
    unfold GroupProps.restrict.
    destruct (preview g) as [p|] eqn:Hp.
    + destruct (serializable p) eqn:Hs.
      * assert (p ∈ List.filter serializable (editors g)) as Hin.
        { apply list_elem_of_In, List.filter_In. split; [|done].
          by apply list_elem_of_In, Hstored. }
        destruct (previewIndex_found g (editors g) p 0 None Hp Hin)
          as (k & -> & Hk).
        simpl. rewrite js_get_nat.
        destruct (Forall2_lookup_r _ _ _ _ _ Heds Hk) as (p' & -> & Hp').
        done.
      * rewrite previewIndex_none; [done|].
        intros e He Heq. simplify_eq.
        apply list_elem_of_In, List.filter_In in He as [_ He]. congruence.
    + rewrite previewIndex_none; [done|]. intros e _. by rewrite Hp.
Qed.

End Serialization.

End WithInputs.
End GroupFacts.

(** * Properties of the group view *)

Module ViewFacts.
Import Group GroupProps GroupFacts View.
Section WithInputs.
Context {E : Type} `{EditorInputType E}.
Implicit Types (g : EditorGroup E) (e : E) (v : NextEditorGroupView E).

Lemma isPinned_iff g e :
  isPinned g (Some e) = true
  <-> indexOf (Some e) (editors g) <> -1 /\ matches (preview g) (Some e) = false.
Proof.
  unfold isPinned.
  destruct (Z.eqb_spec (indexOf (Some e) (editors g)) (-1)) as [Hi|Hi].
  - split; [done|]. by intros [? _].
  - destruct (preview g) as [p|]; simpl.
    + rewrite negb_true_iff. tauto.
    + tauto.
Qed.

Lemma absent_not_preview g e :
  group_ok g -> indexOf (Some e) (editors g) = -1 ->
  matches (preview g) (Some e) = false.
Proof.
  intros Hok Hi. destruct (preview g) as [p|] eqn:Hp; [|done]. simpl.
  destruct (input_matches p e) eqn:Hm; [|done].
  pose proof (ok_preview g Hok p Hp) as H1.
  rewrite (countM_matches p e) in H1 by done. apply indexOf_none in Hi. lia.
Qed.

(** An editor opened with [pinned] set is a pinned editor of the group
    afterwards. *)
Lemma openEditor_pinned dir e opts g :
  group_ok g -> makePinned opts = true ->
  isPinned (fst (openEditor dir e opts g)) (Some e) = true.
Proof.
  intros Hok Hpin. apply isPinned_iff.
  destruct (decide (indexOf (Some e) (editors g) = -1)) as [Hi|Hi].
  - rewrite openEditor_new by done. rewrite Hpin.
    rewrite activateIf_editors, activateIf_preview. split.
    + apply splice_add_present.
    + rewrite splice_add_state. cbn [preview set_mru set_editors].
      by apply absent_not_preview.
  - rewrite openEditor_existing by done. cbv zeta. rewrite Hpin.
    set (g1 := fst (pin (Some e) g)).
    assert (editors g1 = editors g /\ matches (preview g1) (Some e) = false)
      as [Hed1 Hp1].
    { unfold g1. rewrite pin_state. unfold isPreview.
      by destruct (matches (preview g) (Some e)) eqn:Hm. }
    set (g2 := if makeActive opts g then fst (setActive (Some e) g1) else g1).
    assert (editors g2 = editors g /\ matches (preview g2) (Some e) = false)
      as [Hed2 Hp2].
    { unfold g2. destruct (makeActive opts g); [|done].
      by rewrite setActive_editors, setActive_preview. }
    destruct (opts ≫= opt_index) as [i|].
    + assert (indexOf (Some e) (editors g2) <> -1) as Hi2 by by rewrite Hed2.
      rewrite moveEditor_state by done. cbn [editors preview set_editors].
      split; [|done].
      apply indexOf_present. rewrite splice_insert_count, matches_refl. lia.
    + by rewrite Hed2.
Qed.

Lemma pinEditor_not_preview e v :
  isPreview (_group (pinEditor (Some e) v)) (Some e) = false.
Proof.
  unfold pinEditor.
  destruct (isPinned (_group v) (Some e)) eqn:Hp; simpl.
  - by apply isPinned_iff in Hp as [_ ?].
  - rewrite pin_state. unfold isPreview.
    by destruct (matches (preview (_group v)) (Some e)) eqn:Hm.
Qed.

Lemma pinEditor_editors e v :
  editors (_group (pinEditor (Some e) v)) = editors (_group v).
Proof.
  unfold pinEditor. destruct (isPinned (_group v) (Some e)); simpl; [done|].
  rewrite pin_state. by destruct (isPreview _ _).
Qed.

Section Dirty.
Variable isDirty : E -> bool.

(** C10. [doOpenEditor] asks for a pinned editor when the editor is dirty,
    when previews are disabled, when the caller asks for it and when the
    caller gives an index, and the editor is then a pinned editor of the
    group. When an editor becomes dirty the view leaves it pinned if the
    group holds it, and in no case as the preview. *)
Theorem dirty_editor_is_pinned dir e options v :
  group_ok (_group v) ->
  (isDirty e = true \/ enablePreview v = false
   \/ is_true_opt (options ≫= eo_pinned) = true
   \/ is_Some (options ≫= eo_index) ->
   opt_pinned (openEditorOptions isDirty v e options) = Some true
   /\ isPinned (_group (doOpenEditor isDirty dir e options v)) (Some e) = true
   /\ isPreview (_group (doOpenEditor isDirty dir e options v)) (Some e) = false)
  /\ (indexOf (Some e) (editors (_group v)) <> -1 ->
      isPinned (_group (onDidEditorBecomeDirty e v)) (Some e) = true)
  /\ isPreview (_group (onDidEditorBecomeDirty e v)) (Some e) = false.
Proof.
  intros Hok. split_and!.
  - intros Hcase.
    assert (opt_pinned (openEditorOptions isDirty v e options) = Some true) as Hp.
    { unfold openEditorOptions. cbn [opt_pinned]. f_equal.
      destruct Hcase as [->|[->|[->|Hidx]]]; rewrite ?orb_true_r; try done.
      by rewrite (bool_decide_true _ Hidx), !orb_true_r. }
    assert (isPinned (_group (doOpenEditor isDirty dir e options v)) (Some e) = true)
      as Hpinned.
    { unfold doOpenEditor. cbn [_group set_group].
      apply openEditor_pinned; [done|]. unfold makePinned. cbn [from_option].
      by rewrite Hp. }
    split_and!; [done..|]. by apply isPinned_iff in Hpinned as [_ ?].
  - intros Hi. unfold onDidEditorBecomeDirty. cbn [_group call_title].
    apply isPinned_iff. split.
    + by rewrite pinEditor_editors.
    + apply pinEditor_not_preview.
  - unfold onDidEditorBecomeDirty. cbn [_group call_title].
    apply pinEditor_not_preview.
Qed.
End Dirty.

End WithInputs.
End ViewFacts.

(** ** The group on concrete editors *)

Module GroupChecks.
Import Group GroupProps GroupFacts Sample.

Definition emptyGroup : EditorGroup TestInput := create 0%nat "".

Definition pinnedOption : option IEditorOpenOptions :=
  Some {| opt_pinned := Some true; opt_active := None; opt_index := None |}.

(** C1 as stated fails: [closeEditor(A, false)] on the active editor [A]
    removes [A] from [editors] and leaves it the active editor. *)
Lemma stale_active_after_close_without_next :
  ~ invariants (run [OpenEditor RIGHT A None; CloseEditor A (Some false)] emptyGroup).
Proof.
  intros (_ & Hact & _). specialize (Hact A eq_refl). vm_compute in Hact.
  discriminate.
Qed.

Lemma invariants_after_calls_witness :
  invariants
    (run [OpenEditor RIGHT A None; OpenEditor RIGHT B pinnedOption;
          CloseEditor A None; Unpin B] emptyGroup).
Proof.
  destruct (invariants_after_calls
              [OpenEditor RIGHT A None; OpenEditor RIGHT B pinnedOption;
               CloseEditor A None; Unpin B] 0%nat "") as (Hsame & Hprev & Hact).
  split_and!; [exact Hsame|apply Hact; reflexivity|exact Hprev].
Defined.

(** The group [A, B, C] with preview [B], as [openEditor] builds it. *)
Definition threeEditors : EditorGroup TestInput :=
  run [OpenEditor RIGHT A pinnedOption; OpenEditor RIGHT C pinnedOption;
       SetActive A; OpenEditor RIGHT B None] emptyGroup.

Lemma threeEditors_ok : group_ok threeEditors.
Proof. apply run_ok, create_ok. Defined.

Lemma openEditor_replaces_preview_witness :
  countM B (editors (fst (openEditor RIGHT D None threeEditors))) = 0%nat
  /\ countM B (mru (fst (openEditor RIGHT D None threeEditors))) = 0%nat
  /\ (exists g', (EditorClosed {| ev_editor := B; ev_pinned := false |}, g')
                 ∈ snd (openEditor RIGHT D None threeEditors))
  /\ preview (fst (openEditor RIGHT D None threeEditors)) = Some D
  /\ countM D (editors (fst (openEditor RIGHT D None threeEditors))) = 1%nat
  /\ length (editors (fst (openEditor RIGHT D None threeEditors)))
     = length (editors threeEditors).
Proof.
  apply (openEditor_replaces_preview RIGHT D None threeEditors B).
  - exact threeEditors_ok.
  - reflexivity.
  - reflexivity.
  - reflexivity.
  - reflexivity.
Defined.

(** The scenario of the specification: in [A, B, C] with [B] the preview and
    the active editor, a pinned [D] opens to the right of [B]. *)
Example open_pinned_right_of_active :
  editors (fst (openEditor RIGHT D pinnedOption
                  (fst (setActive (Some B) threeEditors))))
  = [A; B; D; C].
Proof. reflexivity. Qed.

(** *** The round trip through the serialized form *)

Lemma registry_round_trip : factories_round_trip registry.
Proof.
  intros e f v Hf Hs. destruct e as [r s [|]|r o m]; simpl in Hf; try done.
  injection Hf as <-. simpl in Hs. injection Hs as <-. simpl.
  by apply bool_decide_eq_true.
Qed.

Definition activeOption : option IEditorOpenOptions :=
  Some {| opt_pinned := Some true; opt_active := Some true; opt_index := None |}.

(** [A] and the untitled [U], which no factory serializes; [U] is active. *)
Definition untitledActive : EditorGroup TestInput :=
  run [OpenEditor RIGHT A pinnedOption; OpenEditor RIGHT U activeOption] emptyGroup.

(** C6 as stated fails: the active editor [U] is not serializable, and the
    restored group has the active editor [A]. *)
Lemma restored_active_is_next_serializable :
  exists g',
    deserialize registry 1%nat (serialize registry untitledActive) = Returns g'
    /\ active untitledActive = Some U
    /\ active g' = Some (File 0 "a" true)
    /\ ~ restored_as_stated registry untitledActive g'.
Proof.
  eexists. split_and!; [vm_compute; reflexivity|reflexivity|reflexivity|].
  intros (_ & _ & Hact & _). vm_compute in Hact. exact Hact.
Qed.

Lemma threeEditors_active_ok : active_ok threeEditors.
Proof.
  apply (run_active_ok _ emptyGroup); [reflexivity|].
  split; [apply create_ok|apply create_active_ok].
Defined.

Lemma threeEditors_preview_stored : preview_stored threeEditors.
Proof.
  intros p Hp. vm_compute in Hp. injection Hp as <-.
  apply list_elem_of_In. vm_compute. tauto.
Defined.

Lemma deserialize_serialize_witness :
  exists g',
    deserialize registry 1%nat (serialize registry threeEditors) = Returns g'
    /\ label g' = label threeEditors
    /\ Forall2 same_input (editors g')
         (List.filter (serializable registry) (editors threeEditors))
    /\ Forall2 same_input (mru g')
         (List.filter (persisted registry threeEditors) (mru threeEditors))
    /\ active g' = head (mru g')
    /\ (forall a, active threeEditors = Some a ->
                  persisted registry threeEditors a = true ->
                  same_option (active g') (Some a))
    /\ same_option (preview g') (restrict registry (preview threeEditors)).
Proof.
  apply (deserialize_serialize registry threeEditors 1%nat).
  - exact registry_round_trip.
  - exact threeEditors_active_ok.
  - exact threeEditors_preview_stored.
Defined.

End GroupChecks.

(** ** The view on concrete editors *)

Module ViewChecks.
Import Group GroupProps GroupFacts View ViewFacts Sample GroupChecks.

(** A view on [A, B, C] with the preview [B], previews enabled. *)
Definition threeEditorsView : NextEditorGroupView TestInput :=
  {| _group := threeEditors; enablePreview := true; titleAreaControl := [] |}.

(** [B] and [D] are dirty. *)
Definition dirtyInputs (e : TestInput) : bool :=
  match e with
  | File 2 _ _ | File 4 _ _ => true
  | _ => false
  end.

Lemma dirty_editor_is_pinned_witness :
  isPinned (_group (doOpenEditor dirtyInputs RIGHT D None threeEditorsView)) (Some D) = true
  /\ isPinned (_group (onDidEditorBecomeDirty B threeEditorsView)) (Some B) = true
  /\ isPreview (_group (onDidEditorBecomeDirty B threeEditorsView)) (Some B) = false.
Proof.
  destruct (dirty_editor_is_pinned dirtyInputs RIGHT D None threeEditorsView
              threeEditors_ok) as (Hopen & _ & _).
  destruct (dirty_editor_is_pinned dirtyInputs RIGHT B None threeEditorsView
              threeEditors_ok) as (_ & Hdirty & Hprev).
  split_and!.
  - apply Hopen. left. reflexivity.
  - apply Hdirty. vm_compute. discriminate.
  - exact Hprev.
Defined.

(** The preview [B] becomes dirty: the group has no preview afterwards. *)
Example dirty_preview_is_pinned :
  preview (_group (onDidEditorBecomeDirty B threeEditorsView)) = None.
Proof. reflexivity. Qed.

End ViewChecks.

(** * Properties of the model *)

Module StacksFacts.
Import Group GroupProps GroupFacts Stacks StacksProps.
Section WithInputs.
Context {E : Type} `{EditorInputType E}.
Implicit Types (m : Model E) (e : E).

Variable getEditorInputFactory : string -> option (IEditorInputFactory E).
Variable CONFIG_OPEN_EDITOR_DIRECTION : Direction.
Variable parseModel : string -> option ISerializedEditorStacksModel.
Variable parseLegacyEditors : string -> option (list ISerializedEditorInput).
Variable filesRequested : bool.

Local Abbreviation load :=
  (load getEditorInputFactory CONFIG_OPEN_EDITOR_DIRECTION parseModel
     parseLegacyEditors filesRequested).
Local Abbreviation ensureLoaded :=
  (ensureLoaded getEditorInputFactory CONFIG_OPEN_EDITOR_DIRECTION parseModel
     parseLegacyEditors filesRequested).

Lemma ensureLoaded_loaded m : loaded m = true -> ensureLoaded m = Returns (tt, m).
Proof. intros Hl. unfold Stacks.ensureLoaded. by rewrite Hl. Qed.

(** *** [doValidate] and [load] *)

Lemma existsb_elem {A} (f : A -> bool) (l : list A) :
  existsb f l = true <-> exists x, x ∈ l /\ f x = true.
Proof.
  rewrite existsb_exists. split; intros (x & Hx & Hf); exists x;
    by rewrite ?list_elem_of_In in *.
Qed.

Lemma length_zero {A} (l : list A) : (length l =? 0)%nat = true <-> l = [].
Proof. rewrite Nat.eqb_eq. by destruct l. Qed.

Lemma activeWithoutGroups_check s :
  (length (ser_groups s) =? 0)%nat && bool_decide (is_Some (ser_active s)) = true
  <-> activeWithoutGroups s.
Proof.
  unfold activeWithoutGroups.
  by rewrite andb_true_iff, length_zero, bool_decide_eq_true.
Qed.

Lemma activeNotAGroup_check s :
  negb (length (ser_groups s) =? 0)%nat
  && negb (bool_decide (is_Some (ser_active s ≫= JS.get (ser_groups s)))) = true
  <-> activeNotAGroup s.
Proof.
  unfold activeNotAGroup.
  rewrite andb_true_iff, !negb_true_iff, bool_decide_eq_false.
  rewrite <- not_true_iff_false, length_zero.
  by rewrite <- eq_None_not_Some.
Qed.

Lemma tooManyGroups_check s :
  (3 <? length (ser_groups s))%nat = true <-> tooManyGroups s.
Proof. apply Nat.ltb_lt. Qed.

Lemma groupWithoutEditors_check s :
  existsb (fun g => (length (ser_editors g) =? 0)%nat) (ser_groups s) = true
  <-> groupWithoutEditors s.
Proof.
  rewrite existsb_elem. unfold groupWithoutEditors.
  split; intros (g & Hg & Hc); exists g; by rewrite length_zero in *.
Qed.

Lemma mruOutOfSync_check s :
  existsb (fun g => negb (length (ser_editors g) =? length (ser_mru g))%nat)
    (ser_groups s) = true
  <-> mruOutOfSync s.
Proof.
  rewrite existsb_elem. unfold mruOutOfSync.
  split; intros (g & Hg & Hc); exists g; split; try done.
  - by apply negb_true_iff, Nat.eqb_neq in Hc.
  - by apply negb_true_iff, Nat.eqb_neq.
Qed.

Lemma previewOutOfRange_check s :
  existsb (fun g =>
    match ser_preview g with
    | Some p => negb (bool_decide (is_Some (JS.get (ser_editors g) p)))
    | None => false
    end) (ser_groups s) = true
  <-> previewOutOfRange s.
Proof.
  rewrite existsb_elem. unfold previewOutOfRange. split.
  - intros (g & Hg & Hc). destruct (ser_preview g) as [p|] eqn:Hp; [|done].
    exists g, p. split_and!; try done.
    apply negb_true_iff, bool_decide_eq_false in Hc. by apply eq_None_not_Some.
  - intros (g & p & Hg & Hp & Hc). exists g. split; [done|]. rewrite Hp, Hc.
    apply negb_true_iff, bool_decide_eq_false. by intros [? ?].
Qed.

Lemma emptyLabel_check s :
  existsb (fun g => String.eqb (ser_label g) "") (ser_groups s) = true
  <-> emptyLabel s.
Proof.
  rewrite existsb_elem. unfold emptyLabel.
  split; intros (g & Hg & Hc); exists g; by rewrite String.eqb_eq in *.
Qed.

(** C7. [doValidate] returns 1 to 7 for the first of the seven violations
    that the stored model has, in the order of the source, and 0 when it has
    none. When the code is not 0, [load] returns and leaves the model as it
    was: the first access to a new model sets [loaded] and nothing else. *)
Theorem doValidate_codes_and_load s :
  (doValidate s = 1 <-> activeWithoutGroups s)
  /\ (doValidate s = 2 <-> ~ activeWithoutGroups s /\ activeNotAGroup s)
  /\ (doValidate s = 3 <->
        ~ activeWithoutGroups s /\ ~ activeNotAGroup s /\ tooManyGroups s)
  /\ (doValidate s = 4 <->
        ~ activeWithoutGroups s /\ ~ activeNotAGroup s /\ ~ tooManyGroups s
        /\ groupWithoutEditors s)
  /\ (doValidate s = 5 <->
        ~ activeWithoutGroups s /\ ~ activeNotAGroup s /\ ~ tooManyGroups s
        /\ ~ groupWithoutEditors s /\ mruOutOfSync s)
  /\ (doValidate s = 6 <->
        ~ activeWithoutGroups s /\ ~ activeNotAGroup s /\ ~ tooManyGroups s
        /\ ~ groupWithoutEditors s /\ ~ mruOutOfSync s /\ previewOutOfRange s)
  /\ (doValidate s = 7 <->
        ~ activeWithoutGroups s /\ ~ activeNotAGroup s /\ ~ tooManyGroups s
        /\ ~ groupWithoutEditors s /\ ~ mruOutOfSync s /\ ~ previewOutOfRange s
        /\ emptyLabel s)
  /\ (doValidate s = 0 <->
        ~ activeWithoutGroups s /\ ~ activeNotAGroup s /\ ~ tooManyGroups s
        /\ ~ groupWithoutEditors s /\ ~ mruOutOfSync s /\ ~ previewOutOfRange s
        /\ ~ emptyLabel s)
  /\ (forall m raw,
        truthy (editorStacks_model (storage m)) = Some raw ->
        parseModel raw = Some s -> doValidate s <> 0 ->
        load m = Returns (tt, m)
        /\ (loaded m = false -> ensureLoaded m = Returns (tt, set_loaded true m))).
Proof.
  assert (Hcodes :
    (doValidate s = 1 <-> activeWithoutGroups s)
    /\ (doValidate s = 2 <-> ~ activeWithoutGroups s /\ activeNotAGroup s)
    /\ (doValidate s = 3 <->
          ~ activeWithoutGroups s /\ ~ activeNotAGroup s /\ tooManyGroups s)
    /\ (doValidate s = 4 <->
          ~ activeWithoutGroups s /\ ~ activeNotAGroup s /\ ~ tooManyGroups s
          /\ groupWithoutEditors s)
    /\ (doValidate s = 5 <->
          ~ activeWithoutGroups s /\ ~ activeNotAGroup s /\ ~ tooManyGroups s
          /\ ~ groupWithoutEditors s /\ mruOutOfSync s)
    /\ (doValidate s = 6 <->
          ~ activeWithoutGroups s /\ ~ activeNotAGroup s /\ ~ tooManyGroups s
          /\ ~ groupWithoutEditors s /\ ~ mruOutOfSync s /\ previewOutOfRange s)
    /\ (doValidate s = 7 <->
          ~ activeWithoutGroups s /\ ~ activeNotAGroup s /\ ~ tooManyGroups s
          /\ ~ groupWithoutEditors s /\ ~ mruOutOfSync s /\ ~ previewOutOfRange s
          /\ emptyLabel s)
    /\ (doValidate s = 0 <->
          ~ activeWithoutGroups s /\ ~ activeNotAGroup s /\ ~ tooManyGroups s
          /\ ~ groupWithoutEditors s /\ ~ mruOutOfSync s /\ ~ previewOutOfRange s
          /\ ~ emptyLabel s)).
  { rewrite <- activeWithoutGroups_check, <- activeNotAGroup_check,
      <- tooManyGroups_check, <- groupWithoutEditors_check, <- mruOutOfSync_check,
      <- previewOutOfRange_check, <- emptyLabel_check.
    unfold doValidate. cbv zeta.
    repeat match goal with
           | |- context [if ?b then _ else _] => destruct b
           end;
      repeat split; intros; try discriminate; try congruence;
      repeat match goal with
             | Hc : _ /\ _ |- _ => destruct Hc
             end; try discriminate; try congruence. }
  destruct Hcodes as (H1 & H2 & H3 & H4 & H5 & H6 & H7 & H0).
  do 8 (split; [assumption|]).
  intros m raw Hraw Hparse Hcode.
  assert (load m = Returns (tt, m)) as Hload.
  { unfold Stacks.load. destruct filesRequested; [done|].
    rewrite Hraw, Hparse.
    destruct (Z.eqb_spec (doValidate s) 0); [done|]. done. }
  split; [done|]. intros Hl. unfold Stacks.ensureLoaded. rewrite Hl.
  cbn [negb]. unfold bind, update.
  unfold Stacks.load in *. destruct filesRequested; [done|].
  cbn [storage set_loaded]. rewrite Hraw, Hparse in *.
  by destruct (Z.eqb_spec (doValidate s) 0).
Qed.

(** *** [openGroup] *)

(** The array after [arr[i] = x], for an array index [i]. *)
Lemma js_store_index {A} (i : Z) (x : A) (l : list (option A)) :
  0 <= i < 4294967295 ->
  exists stored,
    JS.store i x l = Some stored
    /\ stored !! Z.to_nat i = Some (Some x)
    /\ length stored = Nat.max (length l) (S (Z.to_nat i))
    /\ (forall j, j <> Z.to_nat i -> (j < length l)%nat -> stored !! j = l !! j)
    /\ (forall j, (length l <= j < Z.to_nat i)%nat -> stored !! j = Some None)
    /\ (i = Z.of_nat (length l) -> stored = l ++ [Some x]).
Proof.
  intros Hi. unfold JS.store.
  destruct (Z.leb_spec 0 i); [|lia]. destruct (Z.ltb_spec i 4294967295); [|lia].
  cbn [andb]. eexists. split; [reflexivity|].
  destruct (Nat.ltb_spec (Z.to_nat i) (length l)) as [Hlt|Hge].
  - split_and!.
    + by apply list_lookup_insert_eq.
    + rewrite length_insert. lia.
    + intros j Hj _. by apply list_lookup_insert_ne.
    + intros j Hj. lia.
    + intros ->. lia.
  - split_and!.
    + rewrite lookup_app_r by lia.
      rewrite lookup_app_r; rewrite length_replicate; [|lia].
      by rewrite Nat.sub_diag.
    + rewrite !length_app, length_replicate. cbn [length]. lia.
    + intros j _ Hj. by rewrite lookup_app_l.
    + intros j Hj. rewrite lookup_app_r by lia.
      rewrite lookup_app_l by (rewrite length_replicate; lia).
      apply lookup_replicate_2. lia.
    + intros ->. rewrite Nat2Z.id, Nat.sub_diag. done.
Qed.


Lemma doOpenGroup_index l activate index m stored :
  @JS.store GroupIdentifier index (IDS m) (_groups m) = Some stored ->
  exists m',
    doOpenGroup getEditorInputFactory l activate (Some index) m
    = Returns (IDS m, m')
    /\ _groups m' = stored
    /\ heap m' = <[IDS m := Group.create (IDS m) l]> (heap m)
    /\ groupToIdentifier m' = <[IDS m := IDS m]> (groupToIdentifier m)
    /\ _activeGroup m'
       = if negb (bool_decide (is_Some (_activeGroup m))) || default true activate
         then Some (IDS m) else _activeGroup m.
Proof.
  intros Hs.
  cbv [doOpenGroup bind doCreateGroup update fireEvent ret].
  cbn [_activeGroup set_fired set_groupToIdentifier set_groups set_heap set_IDS
       _groups IDS heap groupToIdentifier].
  rewrite Hs.
  cbn [_activeGroup set_fired set_groupToIdentifier set_groups set_heap set_IDS
       _groups IDS heap groupToIdentifier].
  destruct (negb (bool_decide (is_Some (_activeGroup m))) || default true activate).
  - unfold doSetActive.
    cbn [_activeGroup set_fired set_groupToIdentifier set_groups set_heap set_IDS].
    case_bool_decide as Hsame; (eexists; split; [reflexivity|]); [|done].
    cbn [_activeGroup set_fired set_groupToIdentifier set_groups set_heap set_IDS
         _groups IDS heap groupToIdentifier]. done.
  - eexists. split; [reflexivity|]. done.
Qed.

(** C3, as amended. [openGroup] with an index assigns the new group to
    that position of the list of groups and leaves the other positions as
    they are. With the number of groups as index, the list is one longer
    and holds every group that it held. With a larger index, the
    positions in between are holes. With a smaller index the list keeps
    its length; a group that held the position is replaced: it is not in
    the list any more when it was there once, and it stays in the store as
    it was, in the table of groups and, if [activate] is [false], the
    active group. *)
Theorem openGroup_at_index m m0 l activate index :
  ensureLoaded m = Returns (tt, m0) -> 0 <= index < 4294967295 ->
  exists m',
    openGroup getEditorInputFactory CONFIG_OPEN_EDITOR_DIRECTION parseModel
      parseLegacyEditors filesRequested l activate (Some index) m
    = Returns (IDS m0, m')
    /\ groupAt m' index = Some (IDS m0)
    /\ length (_groups m') = Nat.max (length (_groups m0)) (S (Z.to_nat index))
    /\ (forall j, j <> Z.to_nat index -> (j < length (_groups m0))%nat ->
          _groups m' !! j = _groups m0 !! j)
    /\ (forall j, (length (_groups m0) <= j < Z.to_nat index)%nat ->
          _groups m' !! j = Some None)
    /\ (index = Z.of_nat (length (_groups m0)) -> inserted_at m0 index (IDS m0) m')
    /\ (forall old, groupAt m0 index = Some old -> old <> IDS m0 ->
          heap m' !! old = heap m0 !! old
          /\ groupToIdentifier m' !! old = groupToIdentifier m0 !! old
          /\ ((forall j, _groups m0 !! j = Some (Some old) -> j = Z.to_nat index) ->
              indexOf m' (Some old) = -1)
          /\ (activate = Some false -> _activeGroup m0 = Some old ->
              _activeGroup m' = Some old)).
Proof.
  intros Hload Hi. unfold openGroup, bind. rewrite Hload.
  destruct (js_store_index (A := GroupIdentifier) index (IDS m0) (_groups m0) Hi)
    as (stored & Hs & Hat & Hlen & Hother & Hholes & Happend).
  destruct (doOpenGroup_index l activate index m0 stored Hs)
    as (m' & -> & Hg & Hh & Ht & Ha).
  exists m'. split; [done|]. unfold indexOf, groupAt, inserted_at, groupAt.
  rewrite Hg. fold (groupAt m0 index). split_and!; try done.
  - rewrite js_get_in by lia. by rewrite Hat.
  - intros Hn. rewrite js_get_in by lia. rewrite Hat, (Happend Hn).
    split_and!; [done|..].
    + rewrite length_app. cbn [length]. by rewrite Nat.add_1_r.
    + intros x Hx. apply elem_of_app. by left.
  - intros old Hold Hne.
    assert (_groups m0 !! Z.to_nat index = Some (Some old)) as Hslot.
    { unfold groupAt in Hold. rewrite js_get_in in Hold by lia.
      destruct (_groups m0 !! Z.to_nat index) as [[x|]|]; simplify_eq/=. done. }
    pose proof (lookup_lt_Some _ _ _ Hslot) as Hlt.
    split_and!.
    + by rewrite Hh, lookup_insert_ne.
    + by rewrite Ht, lookup_insert_ne.
    + intros Honce. unfold JS.indexOf.
      destruct (list_find _ stored) as [[j y]|] eqn:Hf; [|done]. exfalso.
      apply list_find_Some in Hf as (Hj & -> & _).
      destruct (decide (j = Z.to_nat index)) as [->|Hj'].
      * rewrite Hat in Hj. congruence.
      * destruct (Nat.lt_ge_cases j (length (_groups m0))) as [Hjlt|Hjge].
        -- rewrite Hother in Hj by done. by apply Honce in Hj.
        -- pose proof (lookup_lt_Some _ _ _ Hj). lia.
    + intros -> Hact. rewrite Ha, Hact.
      rewrite bool_decide_true by by eexists. done.
Qed.

(** *** Groups that are not in the model *)

Lemma closeGroup_absent g m :
  loaded m = true -> indexOf m g = -1 ->
  closeGroup getEditorInputFactory CONFIG_OPEN_EDITOR_DIRECTION parseModel
    parseLegacyEditors filesRequested g m = Returns (tt, m).
Proof.
  intros Hl Hi. unfold closeGroup, bind. rewrite ensureLoaded_loaded by done.
  unfold doCloseGroup. by rewrite Hi.
Qed.

Lemma moveGroup_absent g t m :
  loaded m = true -> indexOf m g = -1 ->
  moveGroup getEditorInputFactory CONFIG_OPEN_EDITOR_DIRECTION parseModel
    parseLegacyEditors filesRequested g t m = Returns (tt, m).
Proof.
  intros Hl Hi. unfold moveGroup, bind. rewrite ensureLoaded_loaded by done.
  by rewrite Hi.
Qed.

(** [setActive] does not look for the group in the list. *)
Lemma setActive_any_group g m :
  loaded m = true -> _activeGroup m <> g ->
  exists m',
    setActive getEditorInputFactory CONFIG_OPEN_EDITOR_DIRECTION parseModel
      parseLegacyEditors filesRequested g m = Returns (tt, m')
    /\ _activeGroup m' = g
    /\ fired m' = fired m ++ [(GroupActivated, g); (ModelChanged, g)].
Proof.
  intros Hl Hg. unfold setActive, bind. rewrite ensureLoaded_loaded by done.
  unfold doSetActive. rewrite bool_decide_false by done.
  eexists. split; [reflexivity|]. done.
Qed.

(** *** The recently closed editors *)

Lemma onEditorClosed_recentlyClosed ev m :
  recentlyClosedEditors (onEditorClosed getEditorInputFactory ev m)
  = if ev_pinned ev
    then match serialized getEditorInputFactory (ev_editor ev) with
         | Some s => JS.slice0 10 (recentlyClosedEditors m ++ [s])
         | None => recentlyClosedEditors m
         end
    else recentlyClosedEditors m.
Proof.
  unfold onEditorClosed. cbv zeta.
  set (m1 := if negb (isOpen m (ev_editor ev)) then _ else m).
  assert (recentlyClosedEditors m1 = recentlyClosedEditors m) as Hm1.
  { unfold m1. destruct (negb _); [|done].
    destruct (diffInputs (ev_editor ev)) as [[o md]|]; [|done].
    simpl. by repeat destruct (negb _). }
  unfold serialized. destruct (ev_pinned ev); [|done].
  destruct (getEditorInputFactory _) as [f|]; [|done].
  destruct (factory_serialize f _); [|done]. simpl. by rewrite Hm1.
Qed.

(** The buffer never holds more than 10 entries. *)
Lemma recentlyClosed_bounded ev m :
  (length (recentlyClosedEditors m) <= 10)%nat ->
  (length (recentlyClosedEditors (onEditorClosed getEditorInputFactory ev m)) <= 10)%nat.
Proof.
  intros Hm. rewrite onEditorClosed_recentlyClosed.
  destruct (ev_pinned ev); [|done].
  destruct (serialized _ _); [|done].
  unfold JS.slice0. rewrite length_take. lia.
Qed.

(** Once the buffer holds 10 entries, [slice(0, 10)] drops the entry that
    was just pushed: the buffer stays as it was. *)
Lemma full_buffer_drops_newest ev m :
  length (recentlyClosedEditors m) = 10%nat ->
  recentlyClosedEditors (onEditorClosed getEditorInputFactory ev m)
  = recentlyClosedEditors m.
Proof.
  intros Hm. rewrite onEditorClosed_recentlyClosed.
  destruct (ev_pinned ev); [|done].
  destruct (serialized _ _); [|done].
  unfold JS.slice0. rewrite <- Hm. by rewrite take_app_length.
Qed.

(** *** Closing an input that no group holds any more *)



Lemma onEditorClosed_groups ev m :
  _groups (onEditorClosed getEditorInputFactory ev m) = _groups m
  /\ heap (onEditorClosed getEditorInputFactory ev m) = heap m.
Proof.
  unfold onEditorClosed. cbv zeta.
  set (m1 := if negb (isOpen m (ev_editor ev)) then _ else m).
  assert (_groups m1 = _groups m /\ heap m1 = heap m) as [Hg Hh].
  { unfold m1. destruct (negb _); [|done].
    destruct (diffInputs (ev_editor ev)) as [[o md]|]; [|done].
    simpl. by repeat destruct (negb _). }
  destruct (ev_pinned ev); [|done].
  destruct (getEditorInputFactory _) as [f|]; [|done].
  by destruct (factory_serialize f _).
Qed.

Lemma deliver_other id m f :
  isClose f = false ->
  closed (deliver getEditorInputFactory id m f) = closed m
  /\ _groups (deliver getEditorInputFactory id m f) = _groups m
  /\ heap (deliver getEditorInputFactory id m f) = <[id := snd f]> (heap m).
Proof. unfold isClose, deliver. by destruct (fst f). Qed.

Lemma deliver_others id fs : forall m,
  forallb (fun f => negb (isClose f)) fs = true ->
  closed (fold_left (deliver getEditorInputFactory id) fs m) = closed m
  /\ _groups (fold_left (deliver getEditorInputFactory id) fs m) = _groups m.
Proof.
  induction fs as [|f fs IH]; intros m Hfs; [done|].
  simpl in Hfs. apply andb_true_iff in Hfs as [Hf Hfs].
  apply negb_true_iff in Hf.
  destruct (deliver_other id m f Hf) as (Hc & Hg & _).
  cbn [fold_left].
  destruct (IH (deliver getEditorInputFactory id m f) Hfs) as [-> ->].
  by rewrite Hc, Hg.
Qed.

Lemma deliver_heap id fs : forall m g,
  heap m !! id = Some g ->
  exists g', heap (fold_left (deliver getEditorInputFactory id) fs m) !! id = Some g'
    /\ delete id (heap (fold_left (deliver getEditorInputFactory id) fs m))
       = delete id (heap m).
Proof.
  induction fs as [|f fs IH]; intros m g Hg; [eauto|].
  cbn [fold_left].
  assert (heap (deliver getEditorInputFactory id m f) = <[id := snd f]> (heap m))
    as Hh.
  { unfold deliver. destruct (fst f); try done.
    by destruct (onEditorClosed_groups ev (set_heap (<[id:=snd f]> (heap m)) m))
      as [_ ->]. }
  destruct (IH (deliver getEditorInputFactory id m f) (snd f)) as (g' & Hg' & Hd).
  { by rewrite Hh, lookup_insert_eq. }
  exists g'. split; [done|]. by rewrite Hd, Hh, delete_insert_eq.
Qed.

(** What [closeEditor] fires: the activation of the next editor, if any,
    then the close and the change, both in the state the group ends in. *)
Lemma closeEditor_trace e n g :
  Group.indexOf (Some e) (editors g) <> -1 -> disposed g = false ->
  exists pre pinned,
    snd (closeEditor (Some e) n g)
    = pre ++ [(EditorClosed {| ev_editor := e; ev_pinned := pinned |},
               fst (closeEditor (Some e) n g));
              (EditorChanged e, fst (closeEditor (Some e) n g))]
    /\ forallb (fun f => negb (isClose f)) pre = true.
Proof.
  intros Hi Hd.
  assert (disposed (close_active e n g) = false) as Hd'.
  { unfold close_active. destruct (n && _); [|done].
    destruct (1 <? _)%nat; [|done]. rewrite setActive_state.
    destruct (mru g !! 1%nat); [|done]. by destruct (_ || _). }
  rewrite (closeEditor_state e n g Hi).
  unfold closeEditor.
  destruct (Z.eqb_spec (Group.indexOf (Some e) (editors g)) (-1)); [done|].
  cbv iota beta. rewrite snd_andThen. cbv beta zeta.
  assert (fst (if n && matches (active g) (Some e)
               then if (1 <? length (mru g))%nat
                    then Group.setActive (mru g !! 1%nat) g
                    else modify (set_active None) g
               else skip g) = close_active e n g) as ->.
  { unfold close_active. destruct (n && _); [|done]. by destruct (1 <? _)%nat. }
  eexists _, _. split.
  - f_equal. rewrite !snd_andThen, ?fst_andThen.
    assert (snd ((if negb (matches (preview (close_active e n g)) (Some e))
                  then skip else modify (set_preview None)) (close_active e n g))
            = []) as -> by by destruct (negb _).
    assert (fst ((if negb (matches (preview (close_active e n g)) (Some e))
                  then skip else modify (set_preview None)) (close_active e n g))
            = close_preview e (close_active e n g)) as ->.
    { unfold close_preview. by destruct (matches _ _). }
    change (snd (splice (Group.indexOf (Some e) (editors g)) true None
                   (close_preview e (close_active e n g)))) with (@nil (Fired E)).
    cbn [app]. unfold Group.fireEvent. rewrite snd_andThen. unfold fire. cbn [fst snd].
    assert (disposed (fst (splice (Group.indexOf (Some e) (editors g)) true None
                             (close_preview e (close_active e n g)))) = false)
      as ->.
    { rewrite splice_del_state. cbn [disposed set_mru set_editors].
      unfold close_preview. by destruct (matches _ _). }
    reflexivity.
  - destruct (n && _); [|done].
    destruct (1 <? _)%nat; [|done].
    unfold Group.setActive. destruct (_ =? -1); [done|].
    destruct (matches _ _); [done|].
    destruct (mru g !! 1%nat) as [h|]; [|done].
    rewrite !snd_andThen. unfold setMostRecentlyUsed, Group.fireEvent, modify, fire.
    cbn [fst snd]. rewrite snd_andThen.
    repeat match goal with
           | |- context [if ?b then _ else _] => destruct b
           end; done.
Qed.

(** *** The rule of C4 and [isOpen] *)





(** The rule, read out: nothing while a group holds [e]; else [e], and
    each side of a diff input that no group holds. *)
Lemma expected_closes_spec m e x :
  x ∈ expected_closes m e
  <-> ~ referenced m e
      /\ (x = e
          \/ exists original modified,
               diffInputs e = Some (original, modified)
               /\ (x = original \/ x = modified) /\ ~ referenced m x).
Proof.
  unfold expected_closes.
  destruct (decide (referenced m e)) as [Hr|Hr].
  { split; [by intros ?%elem_of_nil|]. by intros [? _]. }
  rewrite elem_of_cons. split.
  - intros [->|Hx]; [by split; [|left]|]. split; [done|]. right.
    destruct (diffInputs e) as [[o md]|]; [|by apply elem_of_nil in Hx].
    apply list_elem_of_filter in Hx as [Hn Hx]. exists o, md. split; [done|].
    split; [|done].
    apply elem_of_cons in Hx as [->|Hx]; [by left|].
    apply elem_of_cons in Hx as [->|Hx]; [by right|]. by apply elem_of_nil in Hx.
  - intros [_ [->|(o & md & -> & Hx & Hn)]]; [by left|]. right.
    apply list_elem_of_filter. split; [done|].
    destruct Hx as [->| ->]; [left|right; left].
Qed.









End WithInputs.
End StacksFacts.

(** ** The model on concrete editors *)

Module StacksChecks.
Import Group GroupProps Stacks StacksProps StacksFacts Sample GroupChecks.

(** A workspace storage without stored model, and the services around the
    model: no stored text parses. *)
Definition emptyStorage : Storage :=
  {| editorStacks_model := None; legacy_memento := None |}.

Definition parseNothing {A} (raw : string) : option A := None.

Definition openGroup (l : string) (index : option Z) : MM TestInput GroupIdentifier :=
  Stacks.openGroup registry RIGHT parseNothing parseNothing false l None index.

Definition inGroup (id : GroupIdentifier) (c : Cmd TestInput) : MM TestInput unit :=
  Stacks.inGroup registry id c.

(** Two groups: [A] in the first, [A] and [B] in the second. *)
Definition twoGroups : Model TestInput :=
  exec (inGroup 1%nat (openEditor RIGHT B pinnedOption))
    (exec (inGroup 1%nat (openEditor RIGHT A pinnedOption))
       (exec (openGroup "two" None)
          (exec (inGroup 0%nat (openEditor RIGHT A pinnedOption))
             (exec (openGroup "one" None)
                (Stacks.create emptyStorage 0%nat ∅))))).

Example twoGroups_groups :
  _groups twoGroups = [Some 0%nat; Some 1%nat] /\ _activeGroup twoGroups = Some 1%nat.
Proof. by vm_compute. Qed.

(** *** C3 *)

(** C3 as stated fails: [openGroup] with the index 5 in a model of two
    groups leaves three holes before the new group; the list is four
    longer, not one. *)
Lemma openGroup_leaves_holes :
  exists m',
    openGroup "three" (Some 5) twoGroups = Returns (2%nat, m')
    /\ _groups m' = [Some 0%nat; Some 1%nat; None; None; None; Some 2%nat]
    /\ ~ inserted_at twoGroups 5 2%nat m'.
Proof.
  eexists. split_and!; [vm_compute; reflexivity|reflexivity|].
  intros (_ & Hlen & _). vm_compute in Hlen. discriminate.
Qed.

(** The index 1 of two groups, without activation: the new group takes
    the place of the second group, which was active. The second group is
    not in the list any more; it is still the active group, still in the
    table of groups, and not disposed. At the index 2 the new group is
    added behind the two groups. *)
Lemma openGroup_at_index_witness :
  (exists m',
     Stacks.openGroup registry RIGHT parseNothing parseNothing false "three"
       (Some false) (Some 1) twoGroups = Returns (IDS twoGroups, m')
     /\ groupAt m' 1 = Some (IDS twoGroups)
     /\ length (_groups m')
        = Nat.max (length (_groups twoGroups)) (S (Z.to_nat 1))
     /\ _groups m' !! 0%nat = _groups twoGroups !! 0%nat
     /\ indexOf m' (Some 1%nat) = -1
     /\ _activeGroup m' = Some 1%nat
     /\ heap m' !! 1%nat = heap twoGroups !! 1%nat
     /\ groupToIdentifier m' !! 1%nat = groupToIdentifier twoGroups !! 1%nat)
  /\ (exists m',
        Stacks.openGroup registry RIGHT parseNothing parseNothing false "three"
          None (Some 2) twoGroups = Returns (IDS twoGroups, m')
        /\ inserted_at twoGroups 2 (IDS twoGroups) m').
Proof.
  split.
  - destruct (openGroup_at_index registry RIGHT parseNothing parseNothing false
                twoGroups twoGroups "three" (Some false) 1)
      as (m' & Hrun & Hat & Hlen & Hother & _ & _ & Hold).
    + vm_compute. reflexivity.
    + lia.
    + destruct (Hold 1%nat) as (Hheap & Htable & Hgone & Hactive).
      * reflexivity.
      * vm_compute. discriminate.
      * exists m'. split_and!;
          [exact Hrun|exact Hat|exact Hlen| | | |exact Hheap|exact Htable].
        -- apply Hother; vm_compute; [discriminate|lia].
        -- apply Hgone. intros [|[|[|j]]] Hj; vm_compute in Hj;
             [discriminate|reflexivity|discriminate..].
        -- apply Hactive; reflexivity.
  - destruct (openGroup_at_index registry RIGHT parseNothing parseNothing false
                twoGroups twoGroups "three" None 2)
      as (m' & Hrun & _ & _ & _ & _ & Happend & _).
    + vm_compute. reflexivity.
    + lia.
    + exists m'. split; [exact Hrun|]. apply Happend. reflexivity.
Defined.

(** The same two calls, computed. *)
Example openGroup_at_occupied_index :
  exists m',
    Stacks.openGroup registry RIGHT parseNothing parseNothing false "three"
      (Some false) (Some 1) twoGroups = Returns (2%nat, m')
    /\ _groups m' = [Some 0%nat; Some 2%nat]
    /\ _activeGroup m' = Some 1%nat
    /\ groupToIdentifier m' !! 1%nat = Some 1%nat
    /\ (disposed <$> heap m' !! 1%nat) = Some false.
Proof. eexists. split_and!; [vm_compute; reflexivity|reflexivity..]. Qed.

(** *** C4 *)

(** The first group of [twoGroups]. *)
Definition firstGroup : EditorGroup TestInput :=
  fst (openEditor RIGHT A pinnedOption (Group.create 0%nat "one")).

(** A diff of [A] and [C] next to [A] in the first group. *)
Definition diffAC : TestInput := Diff 6 A C.






(** [A] is in both groups: closing it in the first closes no input, closing
    it then in the second closes [A]. *)
Example close_in_both_groups :
  closed (exec (inGroup 0%nat (closeEditor (Some A) true)) twoGroups) = []
  /\ closed (exec (inGroup 1%nat (closeEditor (Some A) true))
               (exec (inGroup 0%nat (closeEditor (Some A) true)) twoGroups))
     = [A].
Proof. by vm_compute. Qed.

(** Closing the diff closes the diff and [C], and leaves [A], which a group
    still holds. *)
Example close_diff_sides :
  closed (exec (inGroup 0%nat (closeEditor (Some diffAC) true))
            (exec (inGroup 0%nat (openEditor RIGHT diffAC pinnedOption)) twoGroups))
  = [diffAC; C].
Proof. by vm_compute. Qed.

(** *** C2 *)

Definition file (i : nat) : TestInput :=
  File i (String (Ascii.ascii_of_nat (64 + i)) EmptyString) true.

Definition elevenFiles : list TestInput := map file (seq 1 11).

Definition openAll (es : list TestInput) (m : Model TestInput) : Model TestInput :=
  fold_left (fun m' e => exec (inGroup 0%nat (openEditor RIGHT e pinnedOption)) m') es m.

Definition closeAll (es : list TestInput) (m : Model TestInput) : Model TestInput :=
  fold_left (fun m' e => exec (inGroup 0%nat (closeEditor (Some e) true)) m') es m.

(** One group in which eleven pinned files are opened and then closed, the
    file 1 first and the file 11 last. *)
Definition elevenClosed : Model TestInput :=
  closeAll elevenFiles
    (openAll elevenFiles
       (exec (openGroup "one" None) (Stacks.create emptyStorage 0%nat ∅))).

(** C2: the code keeps the ten oldest entries. After eleven closes the
    buffer holds the files 1 to 10, the file 11 that was closed last is not
    in it, and [popLastClosedEditor] gives the file 10. *)
Theorem eleventh_close_is_dropped :
  recentlyClosedEditors elevenClosed
  = omap (serialized registry) (take 10 elevenFiles)
  /\ serialized registry (file 11) ∉ (Some <$> recentlyClosedEditors elevenClosed)
  /\ exists m',
       popLastClosedEditor registry elevenClosed
       = Returns (Some (File 0 "J" true), m').
Proof.
  split_and!.
  - by vm_compute.
  - vm_compute. intros Hin.
    repeat (apply elem_of_cons in Hin as [Hin|Hin]; [discriminate|]).
    by apply elem_of_nil in Hin.
  - eexists. vm_compute. reflexivity.
Qed.

(** *** C7 *)

(** A stored model whose only group has no label. *)
Definition unlabelled : ISerializedEditorStacksModel :=
  {| ser_groups :=
       [{| ser_label := "";
           ser_editors := [{| ser_id := "file"; ser_value := "a" |}];
           ser_mru := [0]; ser_preview := None |}];
     ser_active := Some 0;
     ser_lastClosed := None |}.

Definition parseStored (raw : string) : option ISerializedEditorStacksModel :=
  if String.eqb raw "stored" then Some unlabelled else None.

Definition storedStorage : Storage :=
  {| editorStacks_model := Some "stored"; legacy_memento := None |}.

Lemma doValidate_codes_and_load_witness :
  doValidate unlabelled = 7
  /\ ensureLoaded registry RIGHT parseStored parseNothing false
       (Stacks.create storedStorage 0%nat ∅)
     = Returns (tt, set_loaded true (Stacks.create storedStorage 0%nat ∅)).
Proof.
  destruct (doValidate_codes_and_load registry RIGHT parseStored parseNothing
              false unlabelled) as (_ & _ & _ & _ & _ & _ & _ & _ & Hload).
  split; [reflexivity|].
  apply (Hload (Stacks.create storedStorage 0%nat ∅) "stored").
  - reflexivity.
  - reflexivity.
  - vm_compute. discriminate.
  - reflexivity.
Defined.

(** *** C8 *)

(** The model after the first of its two groups is closed. *)
Definition firstClosed : Model TestInput :=
  exec (closeGroup registry RIGHT parseNothing parseNothing false (Some 0%nat))
    twoGroups.

(** C8: the code of [setActive] does not look for the group. The group 0
    is closed and not in the list of groups; [setActive] makes it the active
    group and fires its activation. *)
Theorem setActive_takes_closed_group :
  indexOf firstClosed (Some 0%nat) = -1
  /\ _activeGroup firstClosed = Some 1%nat
  /\ exists m',
       setActive registry RIGHT parseNothing parseNothing false (Some 0%nat)
         firstClosed = Returns (tt, m')
       /\ _activeGroup m' = Some 0%nat
       /\ fired m' = fired firstClosed
                     ++ [(GroupActivated, Some 0%nat); (ModelChanged, Some 0%nat)].
Proof.
  split_and!; [by vm_compute..|].
  eexists. split_and!; [vm_compute; reflexivity|reflexivity|reflexivity].
Qed.

End StacksChecks.

(** * More on the group *)

Module GroupMore.
Import Group GroupProps GroupMoreProps GroupFacts ViewFacts.
Section WithInputs.
Context {E : Type} `{EditorInputType E}.
Implicit Types (g : EditorGroup E) (e x y : E) (l : list E).

(** ** [closeEditor] *)

(** X1. [closeEditor] of an editor that the group holds removes one editor,
    the one that matches: afterwards nothing in [editors] nor in [mru]
    matches the editor, and the other editors keep their order. *)
Theorem closeEditor_removes e n g :
  group_ok g -> indexOf (Some e) (editors g) <> -1 ->
  exists i y,
    editors g !! i = Some y /\ input_matches y e = true
    /\ editors (fst (closeEditor (Some e) n g)) = delete i (editors g)
    /\ countM e (editors (fst (closeEditor (Some e) n g))) = 0%nat
    /\ countM e (mru (fst (closeEditor (Some e) n g))) = 0%nat.
Proof.
  intros Hok Hi.
  destruct (closeEditor_editors e n g Hi) as (i & y & Hy & Hye & Hed).
  pose proof (closeEditor_ok (Some e) n g Hok) as Hok'.
  assert (countM e (editors (fst (closeEditor (Some e) n g))) = 0%nat) as H0.
  { rewrite Hed. pose proof (countM_delete e _ _ _ Hy) as Hd.
    rewrite Hye, (present_once g e Hok Hi) in Hd. lia. }
  exists i, y. split_and!; try done. by rewrite <- (ok_count _ Hok').
Qed.

Lemma closeEditor_active_field e n g :
  indexOf (Some e) (editors g) <> -1 ->
  active (fst (closeEditor (Some e) n g)) = active (close_active e n g).
Proof.
  intros Hi. rewrite closeEditor_state, splice_del_state by done.
  cbn [active set_mru set_editors]. apply close_preview_active.
Qed.

(** X2. Closing the active editor with [openNext]: with two editors or more
    the second editor of [mru] becomes the active editor and the head of
    [mru]; with one editor the group is left empty without active editor. *)
Theorem closeEditor_active_next e a g :
  group_ok g -> active_ok g -> active g = Some a -> input_matches a e = true ->
  match mru g with
  | _ :: h2 :: _ =>
      active (fst (closeEditor (Some e) true g)) = Some h2
      /\ head (mru (fst (closeEditor (Some e) true g))) = Some h2
  | _ =>
      active (fst (closeEditor (Some e) true g)) = None
      /\ editors (fst (closeEditor (Some e) true g)) = []
  end.
Proof.
  intros Hok Hact Ha Hae.
  assert (indexOf (Some e) (editors g) <> -1) as Hi.
  { apply indexOf_present. rewrite <- (countM_matches a e) by done.
    by rewrite (active_ok_present g a Hok Hact Ha). }
  pose proof (closeEditor_active_ok (Some e) g Hok Hact) as Hact'.
  pose proof (closeEditor_active_field e true g Hi) as Hfield.
  pose proof Hact as Hhead. unfold active_ok in Hhead. rewrite Ha in Hhead.
  destruct Hhead as (h & Hh & Hha).
  unfold close_active in Hfield. rewrite andb_true_l, Ha in Hfield.
  simpl matches in Hfield. rewrite Hae in Hfield.
  destruct (mru g) as [|h' [|h2 rest]] eqn:Hmru; [done| |].
  - simpl in Hfield. split; [done|].
    unfold active_ok in Hact'. by rewrite Hfield in Hact'.
  - simpl in Hh. injection Hh as ->.
    assert (input_matches h h2 = false) as Hhh2.
    { apply (mru_distinct g 0 1 h h2 Hok); by rewrite ?Hmru. }
    assert (indexOf (Some h2) (editors g) <> -1) as Hh2.
    { apply indexOf_present. rewrite (ok_count g Hok), Hmru.
      rewrite !countM_cons, matches_refl. lia. }
    assert (active (fst (closeEditor (Some e) true g)) = Some h2) as Hnew.
    { rewrite Hfield. change (1 <? length (h :: h2 :: rest))%nat with true.
      cbn [lookup list_lookup]. rewrite setActive_state.
      destruct (Z.eqb_spec (indexOf (Some h2) (editors g)) (-1)); [done|].
      rewrite Ha. simpl matches.
      by rewrite (not_matches_via h a h2 Hha Hhh2). }
    split; [done|].
    assert (input_matches h2 e = false) as Hh2e.
    { rewrite matches_sym. apply (not_matches_via h e h2); [|done].
      by eapply matches_trans. }
    set (g1 := close_preview e (close_active e true g)).
    assert (group_ok g1) as Hok1
      by by apply close_preview_group_ok, close_active_group_ok.
    assert (editors g1 = editors g) as Hed
      by by unfold g1; rewrite close_preview_editors, close_active_editors.
    assert (exists tail, mru g1 = h2 :: tail) as (tail & Hmru1).
    { unfold g1. rewrite close_preview_mru. unfold close_active.
      rewrite andb_true_l, Ha. simpl matches. rewrite Hae, Hmru.
      change (1 <? length (h :: h2 :: rest))%nat with true.
      cbn [lookup list_lookup]. rewrite setActive_state.
      destruct (Z.eqb_spec (indexOf (Some h2) (editors g)) (-1)); [done|].
      rewrite Ha. simpl matches.
      rewrite (not_matches_via h a h2 Hha Hhh2). cbn [orb mru set_mru]. eauto. }
    rewrite closeEditor_state by done. fold g1. rewrite <- Hed in Hi |- *.
    destruct (splice_del_found e g1 Hok1 Hi)
      as (i & j & y & z & Hy & Hye & Hz & Hze & _ & ->).
    cbn [mru set_mru]. rewrite Hmru1 in Hz |- *.
    destruct j as [|j]; [|done].
    simpl in Hz. injection Hz as <-. congruence.
Qed.


(** ** [openEditor] *)

(** X3. Where a new pinned editor goes when the caller gives no index. To
    the right: directly behind the active editor, first when there is no
    active editor. To the left: first when the active editor is first or
    the group is empty; at the position [indexOfActive - 1] when the
    active editor is further right; and, when no editor of a group that
    is not empty is active, two positions before the end. *)
Theorem openEditor_position dir e opts g i :
  indexOf (Some e) (editors g) = -1 -> makePinned opts = true ->
  opts ≫= opt_index = None -> indexOf (active g) (editors g) = i ->
  editors (fst (openEditor dir e opts g)) =
  match dir with
  | RIGHT =>
      take (Z.to_nat (i + 1)) (editors g) ++ e :: drop (Z.to_nat (i + 1)) (editors g)
  | LEFT =>
      if (i =? 0) || (length (editors g) =? 0)%nat then e :: editors g
      else if 1 <=? i
      then take (Z.to_nat (i - 1)) (editors g) ++ e :: drop (Z.to_nat (i - 1)) (editors g)
      else take (length (editors g) - 2) (editors g)
           ++ e :: drop (length (editors g) - 2) (editors g)
  end.
Proof.
  intros He Hpin Hidx Hi. rewrite openEditor_new by done.
  rewrite activateIf_editors, Hpin, splice_add_state.
  cbn [editors set_mru set_editors]. unfold targetIndex. rewrite Hidx, Hi.
  pose proof (indexOf_range (active g) (editors g)) as Hr. rewrite Hi in Hr.
  unfold JS.splice. cbv zeta. rewrite Nat.add_0_r. cbn [app].
  destruct dir.
  - destruct (Z.eqb_spec i 0) as [->|Hi0]; [done|]. cbn [orb].
    destruct (Nat.eqb_spec (length (editors g)) 0) as [Hl|Hl].
    { by destruct (editors g). }
    destruct (Z.leb_spec 1 i).
    + replace (JS.start_of (i - 1) (editors g)) with (Z.to_nat (i - 1)); [done|].
      unfold JS.start_of. destruct (Z.ltb_spec (i - 1) 0); lia.
    + replace (JS.start_of (i - 1) (editors g)) with (length (editors g) - 2)%nat;
        [done|].
      unfold JS.start_of. destruct (Z.ltb_spec (i - 1) 0); lia.
  - replace (JS.start_of (i + 1) (editors g)) with (Z.to_nat (i + 1)); [done|].
    unfold JS.start_of. destruct (Z.ltb_spec (i + 1) 0); lia.
Qed.

(** X4. [openEditor] of an editor that the group holds adds no editor; when
    the caller gives no index, [editors] is left as it is. *)
Theorem openEditor_existing_editors dir e opts g :
  indexOf (Some e) (editors g) <> -1 ->
  length (editors (fst (openEditor dir e opts g))) = length (editors g)
  /\ (opts ≫= opt_index = None ->
      editors (fst (openEditor dir e opts g)) = editors g).
Proof.
  intros Hi. rewrite openEditor_existing by done. cbv zeta.
  set (g1 := if makePinned opts then fst (pin (Some e) g) else g).
  assert (editors g1 = editors g) as Hed1.
  { unfold g1. destruct (makePinned opts); [|done]. rewrite pin_state.
    by destruct (isPreview g (Some e)). }
  set (g2 := if makeActive opts g then fst (setActive (Some e) g1) else g1).
  assert (editors g2 = editors g) as Hed2.
  { unfold g2. destruct (makeActive opts g); [|done]. by rewrite setActive_editors. }
  destruct (opts ≫= opt_index) as [t|]; [|by rewrite Hed2].
  split; [|done].
  assert (indexOf (Some e) (editors g2) <> -1) as Hi2 by by rewrite Hed2.
  rewrite moveEditor_state by done. cbn [editors set_editors].
  destruct (indexOf_found e (editors g2) _ eq_refl Hi2) as (y & Hy & _ & Hr & _).
  rewrite splice_delete, splice_insert_length by done.
  rewrite <- Hed2. by eapply length_delete_lookup.
Qed.

(** ** [setActive] *)

(** X5. [setActive] of an editor that the group holds and that is not
    active makes it the active editor and moves its entry to the front of
    [mru], the other entries keeping their order; [editors] and the preview
    stay, and the activation is fired. *)
Theorem setActive_promotes e g :
  group_ok g -> disposed g = false ->
  indexOf (Some e) (editors g) <> -1 -> matches (active g) (Some e) = false ->
  exists j y,
    mru g !! j = Some y /\ input_matches y e = true
    /\ fst (setActive (Some e) g)
       = set_mru (e :: delete j (mru g)) (set_active (Some e) g)
    /\ fst <$> snd (setActive (Some e) g) = [EditorActivated e; EditorChanged e].
Proof.
  intros Hok Hd Hi Hm.
  destruct (promote_mru g e Hok Hi) as (j & y & Hj & Hye & Hsp).
  exists j, y. split_and!; try done.
  - rewrite setActive_state.
    destruct (Z.eqb_spec (indexOf (Some e) (editors g)) (-1)); [done|].
    by rewrite Hm, Hsp.
  - unfold setActive.
    destruct (Z.eqb_spec (indexOf (Some e) (editors g)) (-1)); [done|].
    rewrite Hm. rewrite !snd_andThen. unfold setMostRecentlyUsed.
    cbn [modify fst snd editors set_active].
    destruct (Z.eqb_spec (indexOf (Some e) (editors g)) (-1)); [done|].
    unfold fireEvent. rewrite snd_andThen. unfold fire.
    cbn [fst snd disposed set_mru set_active]. by rewrite Hd.
Qed.

(** ** [moveEditor] *)

(** X6. [moveEditor] to an index that is not negative puts the editor at
    that index, at the last position when the index is past the end; it
    keeps the length of [editors], every editor of it up to [matches], and
    [mru], the active editor and the preview. *)
Theorem moveEditor_position e t g :
  indexOf (Some e) (editors g) <> -1 -> 0 <= t ->
  editors (fst (moveEditor (Some e) t g))
    !! Nat.min (Z.to_nat t) (length (editors g) - 1) = Some e
  /\ length (editors (fst (moveEditor (Some e) t g))) = length (editors g)
  /\ (forall x, countM x (editors (fst (moveEditor (Some e) t g)))
                = countM x (editors g))
  /\ mru (fst (moveEditor (Some e) t g)) = mru g
  /\ active (fst (moveEditor (Some e) t g)) = active g
  /\ preview (fst (moveEditor (Some e) t g)) = preview g.
Proof.
  intros Hi Ht. rewrite moveEditor_state by done.
  cbn [editors mru active preview set_editors].
  destruct (indexOf_found e (editors g) _ eq_refl Hi) as (y & Hy & Hye & Hr & _).
  rewrite splice_delete by done.
  set (rest := delete (Z.to_nat (indexOf (Some e) (editors g))) (editors g)).
  assert (S (length rest) = length (editors g)) as Hlen
    by by eapply length_delete_lookup.
  split_and!; try done.
  - unfold JS.splice. cbv zeta. rewrite Nat.add_0_r.
    assert (JS.start_of t rest = Nat.min (Z.to_nat t) (length (editors g) - 1)) as ->.
    { unfold JS.start_of. destruct (Z.ltb_spec t 0); lia. }
    rewrite lookup_app_r; rewrite length_take; [|lia].
    replace (_ - _)%nat with 0%nat by lia. done.
  - by rewrite splice_insert_length.
  - intros x. rewrite splice_insert_count.
    pose proof (countM_delete x _ _ _ Hy) as Hd. fold rest in Hd.
    rewrite (matches_sym e x), <- (matches_left _ _ x Hye), (matches_sym x y).
    lia.
Qed.

(** ** [pin] and [unpin] *)

Lemma set_preview_back g : set_preview (preview g) (set_preview None g) = g.
Proof. by destruct g. Qed.

(** X7. [pin] and [unpin] undo each other: pinning the preview and
    unpinning it again gives the group back, and so does unpinning a pinned
    editor of a group without preview and pinning it again. Neither closes
    an editor. *)
Theorem pin_unpin_inverse e g :
  indexOf (Some e) (editors g) <> -1 ->
  (preview g = Some e -> fst (unpin (Some e) (fst (pin (Some e) g))) = g)
  /\ (preview g = None -> fst (pin (Some e) (fst (unpin (Some e) g))) = g).
Proof.
  intros Hi. split.
  - intros Hp. rewrite pin_state. unfold isPreview. rewrite Hp.
    simpl matches. rewrite matches_refl.
    rewrite unpin_state.
    + cbn [preview set_preview]. rewrite closeEditor_absent by done.
      cbn [fst]. rewrite <- Hp. apply set_preview_back.
    + apply isPinned_iff. by split.
  - intros Hp. rewrite unpin_state.
    + rewrite Hp, closeEditor_absent by done. cbn [fst].
      rewrite pin_state. unfold isPreview. cbn [preview set_preview].
      simpl matches. rewrite matches_refl. destruct g. simpl in *. by subst.
    + apply isPinned_iff. split; [done|]. by rewrite Hp.
Qed.

(** X8. In a group that keeps its invariant, an editor that the group holds
    is either pinned or the preview, and an editor that it does not hold is
    neither. *)
Theorem pinned_or_preview e g :
  group_ok g ->
  (indexOf (Some e) (editors g) <> -1 ->
   isPinned g (Some e) = negb (isPreview g (Some e)))
  /\ (indexOf (Some e) (editors g) = -1 ->
      isPinned g (Some e) = false /\ isPreview g (Some e) = false).
Proof.
  intros Hok. split.
  - intros Hi. unfold isPinned, isPreview.
    destruct (Z.eqb_spec (indexOf (Some e) (editors g)) (-1)); [done|].
    by destruct (preview g).
  - intros Hi. split.
    + unfold isPinned. by rewrite Hi.
    + by apply absent_not_preview.
Qed.

(** ** Closing several editors *)

Lemma distinct_positions l i j x y :
  (forall z, (countM z l <= 1)%nat) ->
  l !! i = Some x -> l !! j = Some y -> i <> j -> input_matches x y = false.
Proof.
  intros Hn Hi Hj Hne. destruct (input_matches x y) eqn:Hxy; [|done]. exfalso.
  specialize (Hn y). revert i j Hi Hj Hne Hn.
  induction l as [|z l IH]; intros [|i] [|j] Hi Hj Hne Hn;
    simplify_eq/=; rewrite countM_cons in Hn.
  - rewrite Hxy in Hn. apply list_elem_of_lookup_2, countM_elem in Hj. lia.
  - rewrite matches_refl in Hn.
    apply list_elem_of_lookup_2, countM_elem in Hi.
    rewrite (countM_matches x y) in Hi by done. lia.
  - eapply (IH i j); eauto with lia.
Qed.

(** The position that [indexOf] finds for an editor held in [editors] is
    the position of that editor. *)
Lemma indexOf_stored g i y :
  group_ok g -> editors g !! i = Some y ->
  indexOf (Some y) (editors g) = Z.of_nat i.
Proof.
  intros Hok Hy.
  assert (indexOf (Some y) (editors g) <> -1) as Hne.
  { apply indexOf_present, countM_elem. by eapply list_elem_of_lookup_2. }
  destruct (indexOf_found y (editors g) _ eq_refl Hne) as (y' & Hy' & Hm & Hr & _).
  destruct (decide (Z.to_nat (indexOf (Some y) (editors g)) = i)) as [<-|Hd]; [lia|].
  pose proof (distinct_positions _ _ _ _ _ (ok_nodup g Hok) Hy' Hy Hd). congruence.
Qed.

Lemma closeEditor_stored g i y n :
  group_ok g -> editors g !! i = Some y ->
  editors (fst (closeEditor (Some y) n g)) = delete i (editors g).
Proof.
  intros Hok Hy. pose proof (indexOf_stored g i y Hok Hy) as Hi.
  assert (indexOf (Some y) (editors g) <> -1) as Hne by lia.
  rewrite closeEditor_state, splice_del_state by done.
  cbn [editors set_mru set_editors].
  rewrite close_preview_editors, close_active_editors, Hi.
  rewrite splice_delete; [by rewrite Nat2Z.id|].
  apply lookup_lt_Some in Hy. lia.
Qed.

Lemma closeEditor_count_after x y n g :
  group_ok g ->
  countM y (editors (fst (closeEditor (Some x) n g)))
  = if input_matches x y then 0%nat else countM y (editors g).
Proof.
  intros Hok.
  destruct (decide (indexOf (Some x) (editors g) = -1)) as [Hi|Hi].
  - rewrite closeEditor_absent by done. cbn [fst].
    destruct (input_matches x y) eqn:Hxy; [|done].
    rewrite <- (countM_matches x y) by done. by apply indexOf_none.
  - destruct (closeEditor_editors x n g Hi) as (i & y0 & Hy0 & Hm & ->).
    pose proof (countM_delete y _ _ _ Hy0) as Hd.
    assert (input_matches y0 y = input_matches x y) as Hsame.
    { rewrite (matches_sym y0 y), (matches_sym x y). by apply matches_left. }
    rewrite Hsame in Hd. destruct (input_matches x y) eqn:Hxy; [|lia].
    pose proof (present_once g x Hok Hi) as H1.
    rewrite (countM_matches x y) in H1 by done. lia.
Qed.

Lemma forEach_close_count L : forall g y,
  group_ok g ->
  countM y (editors (fst (forEach (fun x => closeEditor (Some x) true) L g)))
  = if existsb (fun x => input_matches x y) L then 0%nat else countM y (editors g).
Proof.
  induction L as [|x L IH]; intros g y Hok; [done|].
  cbn [forEach existsb]. rewrite fst_andThen, IH by by apply closeEditor_ok.
  rewrite closeEditor_count_after by done.
  destruct (input_matches x y); simpl; [|done]. by destruct (existsb _ L).
Qed.

Lemma countM_zero_nil l : (forall y, countM y l = 0%nat) -> l = [].
Proof.
  destruct l as [|h l]; [done|]. intros Hz. specialize (Hz h).
  rewrite countM_cons, matches_refl in Hz. lia.
Qed.

Lemma existsb_matches_elem L y :
  existsb (fun x => input_matches x y) L = false ->
  forall x, x ∈ L -> input_matches x y = false.
Proof.
  intros Hex x Hx. destruct (input_matches x y) eqn:Hxy; [|done].
  assert (existsb (fun x => input_matches x y) L = true); [|congruence].
  apply existsb_exists. exists x. by rewrite <- list_elem_of_In.
Qed.

Lemma countM_positive y l :
  (1 <= countM y l)%nat -> exists z, z ∈ l /\ input_matches z y = true.
Proof.
  induction l as [|h l IH]; [rewrite countM_nil; lia|].
  rewrite countM_cons. destruct (input_matches h y) eqn:Hh.
  - intros _. exists h. split; [left|done].
  - intros Hc. destruct IH as (z & Hz & Hm); [lia|]. exists z. split; [by right|done].
Qed.

Lemma forEach_close_keeps_active L : forall g,
  (forall x, x ∈ L -> matches (active g) (Some x) = false) ->
  active (fst (forEach (fun x => closeEditor (Some x) true) L g)) = active g.
Proof.
  induction L as [|x L IH]; intros g HL; [done|].
  cbn [forEach]. rewrite fst_andThen.
  assert (active (fst (closeEditor (Some x) true g)) = active g) as Hsame.
  { apply closeEditor_active_unchanged. rewrite HL by left. done. }
  rewrite IH; [done|].
  intros x' Hx'. rewrite Hsame. apply HL. by right.
Qed.

Lemma closeAllEditors_clears g :
  group_ok g -> active_ok g ->
  editors (fst (closeAllEditors g)) = []
  /\ mru (fst (closeAllEditors g)) = []
  /\ preview (fst (closeAllEditors g)) = None
  /\ active (fst (closeAllEditors g)) = None.
Proof.
  intros Hok Hact.
  assert (group_ok (fst (closeAllEditors g)) /\ active_ok (fst (closeAllEditors g)))
    as [Hok' Hact'].
  { apply (closeAllEditors_preserves (fun g' => group_ok g' /\ active_ok g'));
      [|done].
    intros o' g' [? ?].
    split; [by apply closeEditor_ok|by apply closeEditor_active_ok]. }
  assert (editors (fst (closeAllEditors g)) = []) as Hed.
  { apply countM_zero_nil. intros y.
    unfold closeAllEditors. rewrite fst_andThen.
    set (L := List.filter (fun e => negb (matches (Some e) (active g))) (mru g)).
    set (g0 := fst (forEach (fun e => closeEditor (Some e) true) L g)).
    assert (group_ok g0) as Hok0.
    { apply (forEach_preserves group_ok); [|done].
      intros b g' ?. by apply closeEditor_ok. }
    pose proof (forEach_close_count L g y Hok) as Hcount. fold g0 in Hcount.
    assert (countM y (editors g0) = 0%nat \/
            exists a, active g = Some a /\ input_matches a y = true
                      /\ existsb (fun x => input_matches x y) L = false) as Hcase.
    { destruct (existsb (fun x => input_matches x y) L) eqn:Hex; [by left|].
      destruct (decide (countM y (editors g) = 0%nat)) as [Hz|Hnz]; [left; lia|].
      right.
      destruct (countM_positive y (mru g)) as (z & Hz & Hzy).
      { rewrite <- (ok_count g Hok). lia. }
      destruct (matches (Some z) (active g)) eqn:Hza.
      - destruct (active g) as [a|]; [|done]. exists a. split_and!; try done.
        simpl in Hza. eapply matches_trans; [|done]. by rewrite matches_sym.
      - exfalso.
        assert (z ∈ L) as HzL.
        { apply list_elem_of_In, List.filter_In. rewrite <- list_elem_of_In.
          by rewrite Hza. }
        pose proof (existsb_matches_elem L y Hex z HzL). congruence. }
    destruct Hcase as [Hz|(a & Ha & Hay & Hex)].
    - pose proof (closeEditor_count y (active g0) true g0). lia.
    - assert (active g0 = Some a) as Ha0.
      { unfold g0. rewrite <- Ha. apply forEach_close_keeps_active.
        intros x Hx. apply list_elem_of_In, List.filter_In in Hx as [_ Hx].
        apply negb_true_iff in Hx. by rewrite matches_comm. }
      rewrite Ha0, closeEditor_count_after by done. by rewrite Hay. }
  split_and!; [done|..].
  - pose proof (ok_length _ Hok') as Hl. rewrite Hed in Hl.
    by destruct (mru (fst (closeAllEditors g))).
  - destruct (preview (fst (closeAllEditors g))) as [p|] eqn:Hp; [|done].
    pose proof (ok_preview _ Hok' p Hp) as H1. by rewrite Hed in H1.
  - unfold active_ok in Hact'.
    destruct (active (fst (closeAllEditors g))) as [a|]; [|done].
    destruct Hact' as (h & Hh & _).
    pose proof (ok_length _ Hok') as Hl. rewrite Hed in Hl.
    by destruct (mru (fst (closeAllEditors g))).
Qed.

(** X9. [closeAllEditors] leaves the group empty: no editor, no entry in
    [mru], no preview and no active editor. *)
Theorem closeAllEditors_empties g :
  group_ok g -> active_ok g ->
  editors (fst (closeAllEditors g)) = []
  /\ mru (fst (closeAllEditors g)) = []
  /\ preview (fst (closeAllEditors g)) = None
  /\ active (fst (closeAllEditors g)) = None.
Proof. apply closeAllEditors_clears. Qed.


Lemma closeEditor_subset o n g y :
  y ∈ editors (fst (closeEditor o n g)) -> y ∈ editors g.
Proof.
  destruct (decide (indexOf o (editors g) = -1)) as [Hi|Hi].
  { by rewrite closeEditor_absent. }
  destruct o as [e|]; [|done].
  destruct (closeEditor_editors e n g Hi) as (i & y0 & _ & _ & ->).
  intros Hy. eapply elem_of_sublist; [done|]. apply sublist_delete.
Qed.

(** X10. [closeEditors(except)] without direction leaves one editor, the
    one that the group holds for [except]. *)
Theorem closeEditors_others e g :
  group_ok g -> indexOf (Some e) (editors g) <> -1 ->
  exists y,
    editors (fst (closeEditors (Some e) None g)) = [y]
    /\ y ∈ editors g /\ input_matches y e = true
    /\ length (mru (fst (closeEditors (Some e) None g))) = 1%nat.
Proof.
  intros Hok Hi. unfold closeEditors.
  destruct (Z.eqb_spec (indexOf (Some e) (editors g)) (-1)); [done|].
  set (L := List.filter (fun x => negb (matches (Some x) (Some e))) (mru g)).
  set (g' := fst (forEach (fun x => closeEditor (Some x) true) L g)).
  assert (group_ok g') as Hok'.
  { apply (forEach_preserves group_ok); [|done].
    intros b g0 ?. by apply closeEditor_ok. }
  assert (forall y, y ∈ editors g' -> y ∈ editors g) as Hsub.
  { intros y. unfold g'.
    apply (forEach_preserves (fun g0 => y ∈ editors g0 -> y ∈ editors g)); [|done].
    intros b g0 Hg0 Hy. by apply Hg0, (closeEditor_subset (Some b) true). }
  assert (forall y, countM y (editors g')
                    = if input_matches e y then 1%nat else 0%nat) as Hcount.
  { intros y. unfold g'. rewrite forEach_close_count by done.
    destruct (input_matches e y) eqn:Hey.
    - assert (existsb (fun x => input_matches x y) L = false) as ->.
      { apply not_true_is_false. intros (x & Hx & Hxy)%existsb_exists.
        apply List.filter_In in Hx as [_ Hx]. apply negb_true_iff in Hx.
        simpl in Hx.
        assert (input_matches x e = true); [|congruence].
        eapply matches_trans; [done|]. by rewrite matches_sym. }
      rewrite <- (countM_matches e y) by done. by apply present_once.
    - destruct (existsb (fun x => input_matches x y) L) eqn:Hex; [done|].
      destruct (decide (countM y (editors g) = 0%nat)) as [Hz|Hnz]; [done|].
      exfalso.
      destruct (countM_positive y (mru g)) as (z & Hz & Hzy).
      { rewrite <- (ok_count g Hok). lia. }
      assert (z ∈ L) as HzL.
      { apply list_elem_of_In, List.filter_In. rewrite <- list_elem_of_In.
        split; [done|]. apply negb_true_iff. simpl.
        destruct (input_matches z e) eqn:Hze; [|done].
        assert (input_matches e y = true); [|congruence].
        eapply matches_trans; [|done]. by rewrite matches_sym. }
      pose proof (existsb_matches_elem L y Hex z HzL). congruence. }
  destruct (editors g') as [|y [|y2 rest]] eqn:Hed.
  - specialize (Hcount e). rewrite matches_refl, countM_nil in Hcount. lia.
  - exists y. split_and!; [done|apply Hsub; left|..].
    + specialize (Hcount y). rewrite countM_cons, matches_refl, countM_nil in Hcount.
      rewrite matches_sym. by destruct (input_matches e y).
    + pose proof (ok_length _ Hok') as Hl. by rewrite Hed in Hl.
  - exfalso.
    pose proof (Hcount y) as H1. pose proof (Hcount y2) as H2.
    rewrite !countM_cons, matches_refl in H1, H2.
    destruct (input_matches e y) eqn:Hey; [|lia].
    destruct (input_matches e y2) eqn:Hey2; [|destruct (input_matches y y2); lia].
    assert (input_matches y2 y = true) as Hyy.
    { eapply matches_trans; [|done]. by rewrite matches_sym. }
    rewrite Hyy in H1. lia.
Qed.

Lemma closeLeft_editors k : forall g pre rest,
  group_ok g -> editors g = pre ++ rest -> length pre = k ->
  editors (fst (forEach (fun i g0 => closeEditor (editors g0 !! i) true g0)
                  (rev (seq 0 k)) g)) = rest.
Proof.
  induction k as [|k IH]; intros g pre rest Hok Hed Hlen.
  - destruct pre; [done|done].
  - rewrite seq_S, rev_app_distr. cbn [rev app forEach Nat.add].
    rewrite fst_andThen.
    destruct (lookup_lt_is_Some_2 pre k) as [y Hy]; [lia|].
    assert (editors g !! k = Some y) as Hgy by by rewrite Hed, lookup_app_l by lia.
    rewrite Hgy.
    apply (IH _ (take k pre)).
    + by apply closeEditor_ok.
    + rewrite (closeEditor_stored g k y) by done. rewrite Hed.
      rewrite delete_take_drop, take_app_le, drop_app_ge by lia.
      by replace (S k - length pre)%nat with 0%nat by lia.
    + rewrite length_take. lia.
Qed.

Lemma closeRight_editors n : forall g pre suf,
  group_ok g -> editors g = pre ++ suf -> length suf = n ->
  editors (fst (forEach (fun i g0 => closeEditor (editors g0 !! i) true g0)
                  (rev (seq (length pre) n)) g)) = pre.
Proof.
  induction n as [|n IH]; intros g pre suf Hok Hed Hlen.
  - destruct suf; [|done]. by rewrite app_nil_r in Hed.
  - rewrite seq_S, rev_app_distr. cbn [rev app forEach].
    rewrite fst_andThen.
    destruct (lookup_lt_is_Some_2 suf n) as [y Hy]; [lia|].
    assert (editors g !! (length pre + n)%nat = Some y) as Hgy.
    { rewrite Hed, lookup_app_r by lia. by replace (_ + _ - _)%nat with n by lia. }
    rewrite Hgy.
    apply (IH _ pre (take n suf)).
    + by apply closeEditor_ok.
    + rewrite (closeEditor_stored g (length pre + n) y) by done. rewrite Hed.
      rewrite delete_take_drop, take_app_ge, drop_app_ge by lia.
      replace (length pre + n - length pre)%nat with n by lia.
      replace (S (length pre + n) - length pre)%nat with (S n) by lia.
      rewrite (drop_ge suf) by lia. by rewrite app_nil_r.
    + rewrite length_take. lia.
Qed.

(** X11. [closeEditors(except, direction)] with a direction closes the
    neighbours on that side: to the left it leaves [except] and the editors
    behind it, to the right it leaves the editors up to [except]. *)
Theorem closeEditors_direction e d g :
  group_ok g -> indexOf (Some e) (editors g) <> -1 ->
  editors (fst (closeEditors (Some e) (Some d) g)) =
  match d with
  | LEFT => drop (Z.to_nat (indexOf (Some e) (editors g))) (editors g)
  | RIGHT => take (S (Z.to_nat (indexOf (Some e) (editors g)))) (editors g)
  end.
Proof.
  intros Hok Hi. unfold closeEditors.
  destruct (Z.eqb_spec (indexOf (Some e) (editors g)) (-1)); [done|].
  pose proof (indexOf_range (Some e) (editors g)) as Hr.
  set (k := Z.to_nat (indexOf (Some e) (editors g))).
  destruct d.
  - apply (closeLeft_editors k g (take k (editors g))).
    + done.
    + by rewrite take_drop.
    + rewrite length_take. lia.
  - assert (length (take (S k) (editors g)) = S k) as Hlen
      by (rewrite length_take; lia).
    rewrite <- Hlen at 1.
    apply (closeRight_editors _ g (take (S k) (editors g)) (drop (S k) (editors g))).
    + done.
    + by rewrite take_drop.
    + rewrite length_drop. done.
Qed.

(** ** What [serialize] writes *)

Section Serialization.
Variable getEditorInputFactory : string -> option (IEditorInputFactory E).
Local Abbreviation serialized := (serialized getEditorInputFactory).
Local Abbreviation serializable := (serializable getEditorInputFactory).
Local Abbreviation previewIndex := (previewIndex getEditorInputFactory).

Lemma matchingPairs_cons_r x l1 l2 :
  matchingPairs l2 (x :: l1) = (countM x l2 + matchingPairs l2 l1)%nat.
Proof.
  unfold matchingPairs. induction l2 as [|y l2 IH]; [done|].
  cbn [sum_list_with]. rewrite IH, !countM_cons, (matches_sym x y). lia.
Qed.

Lemma matchingPairs_sym l1 l2 : matchingPairs l1 l2 = matchingPairs l2 l1.
Proof.
  induction l1 as [|x l1 IH].
  - unfold matchingPairs. cbn [sum_list_with].
    induction l2 as [|y l2 IH2]; [done|].
    cbn [sum_list_with]. by rewrite <- IH2.
  - rewrite matchingPairs_cons_r, <- IH. done.
Qed.

Lemma countM_filter_le (P : E -> bool) x l :
  (countM x (List.filter P l) <= countM x l)%nat.
Proof.
  induction l as [|y l IH]; [done|]. simpl.
  destruct (P y); rewrite !countM_cons; lia.
Qed.

Lemma length_found_is_pairs (sE m : list E) :
  (forall x, (countM x sE <= 1)%nat) ->
  length (List.filter (fun x => 0 <=? indexOf (Some x) sE) m) = matchingPairs m sE.
Proof.
  intros Hn. unfold matchingPairs. induction m as [|x m IH]; [done|].
  cbn [List.filter sum_list_with]. specialize (Hn x).
  destruct (Z.leb_spec 0 (indexOf (Some x) sE)) as [Hi|Hi].
  - assert (indexOf (Some x) sE <> -1) as Hp%indexOf_present by lia.
    cbn [length]. rewrite IH. lia.
  - pose proof (indexOf_range (Some x) sE).
    assert (indexOf (Some x) sE = -1) as Hz%indexOf_none by lia.
    rewrite IH. lia.
Qed.

Lemma pairs_of_present (sE l : list E) :
  (forall y, y ∈ sE -> countM y l = 1%nat) -> matchingPairs sE l = length sE.
Proof.
  unfold matchingPairs. induction sE as [|y sE IH]; intros Hone; [done|].
  cbn [sum_list_with length]. rewrite IH.
  - rewrite Hone by left. done.
  - intros z Hz. apply Hone. by right.
Qed.

Lemma length_serialized l :
  length (omap serialized l) = length (List.filter serializable l).
Proof.
  induction l as [|e l IH]; [done|].
  cbn [omap list_omap List.filter]. destruct (serializable e) eqn:Hs.
  - destruct (serializable_serialized _ e Hs) as [s ->]. simpl. by rewrite IH.
  - by rewrite (not_serializable_serialized _ e Hs).
Qed.

Lemma previewIndex_range g l : forall n p0 p,
  previewIndex g l n p0 = Some p ->
  p0 = Some p
  \/ Z.of_nat n <= p < Z.of_nat (n + length (List.filter serializable l)).
Proof.
  induction l as [|e l IH]; intros n p0 p Hp; simpl in Hp; [by left|].
  cbn [List.filter]. destruct (serializable e).
  - apply IH in Hp as [Hp|Hp].
    + case_bool_decide; [|by left]. injection Hp as <-. right. simpl. lia.
    + right. simpl. lia.
  - by apply IH in Hp.
Qed.

Lemma serialize_shape g :
  group_ok g ->
  let s := serialize getEditorInputFactory g in
  length (ser_mru s) = length (ser_editors s)
  /\ Forall (fun i => 0 <= i < Z.of_nat (length (ser_editors s))) (ser_mru s)
  /\ (forall p, ser_preview s = Some p ->
                0 <= p < Z.of_nat (length (ser_editors s)))
  /\ length (ser_editors s) = length (List.filter serializable (editors g))
  /\ ser_label s = label g.
Proof.
  intros Hok. cbv zeta. rewrite serialize_spec.
  cbn [ser_mru ser_editors ser_preview ser_label].
  rewrite length_serialized.
  set (sE := List.filter serializable (editors g)).
  assert (forall x, (countM x sE <= 1)%nat) as Hn.
  { intros x. pose proof (countM_filter_le serializable x (editors g)).
    pose proof (ok_nodup g Hok x). unfold sE. lia. }
  assert (List.filter (fun i => 0 <=? i)
            (map (fun e => indexOf (Some e) sE) (mru g))
          = map (fun e => indexOf (Some e) sE)
              (List.filter (fun x => 0 <=? indexOf (Some x) sE) (mru g))) as Hmap.
  { induction (mru g) as [|x m IH]; [done|]. cbn [map List.filter].
    destruct (0 <=? indexOf (Some x) sE); cbn [map]; by rewrite IH. }
  split_and!; try done.
  - rewrite Hmap, length_map, length_found_is_pairs, matchingPairs_sym by done.
    apply pairs_of_present. intros y Hy.
    rewrite <- (ok_count g Hok).
    assert (y ∈ editors g) as Hin.
    { apply list_elem_of_In, List.filter_In in Hy as [Hy _].
      by apply list_elem_of_In. }
    apply countM_elem in Hin. pose proof (ok_nodup g Hok y). lia.
  - rewrite Hmap. apply Forall_forall. intros i Hi.
    apply list_elem_of_fmap in Hi as (x & -> & Hx).
    apply list_elem_of_In, List.filter_In in Hx as [_ Hx].
    pose proof (indexOf_range (Some x) sE). apply Z.leb_le in Hx. lia.
  - intros p Hp. apply previewIndex_range in Hp as [Hp|Hp]; [done|].
    fold sE in Hp. lia.
Qed.

(** X12. What [serialize] writes for a group that keeps its invariant is
    consistent: [mru] has one index for each serialized editor, every index
    of [mru] and the index of the preview are positions of [editors], and
    the label is the label of the group. *)
Theorem serialize_consistent g :
  group_ok g ->
  let s := serialize getEditorInputFactory g in
  length (ser_mru s) = length (ser_editors s)
  /\ Forall (fun i => 0 <= i < Z.of_nat (length (ser_editors s))) (ser_mru s)
  /\ (forall p, ser_preview s = Some p ->
                0 <= p < Z.of_nat (length (ser_editors s)))
  /\ length (ser_editors s) = length (List.filter serializable (editors g))
  /\ ser_label s = label g.
Proof. apply serialize_shape. Qed.

End Serialization.

End WithInputs.
End GroupMore.

(** * More facts about the model *)

Module StacksMore.
Import Group GroupProps GroupFacts Stacks StacksProps StacksFacts StacksSave
  StacksMoreProps GroupMore.
Section WithInputs.
Context {E : Type} `{EditorInputType E}.
Implicit Types (m : Model E) (e : E) (id : GroupIdentifier)
  (ids : list GroupIdentifier).

Variable getEditorInputFactory : string -> option (IEditorInputFactory E).
Variable CONFIG_OPEN_EDITOR_DIRECTION : Direction.
Variable parseModel : string -> option ISerializedEditorStacksModel.
Variable parseLegacyEditors : string -> option (list ISerializedEditorInput).
Variable filesRequested : bool.

Local Abbreviation ensureLoaded :=
  (Stacks.ensureLoaded getEditorInputFactory CONFIG_OPEN_EDITOR_DIRECTION
     parseModel parseLegacyEditors filesRequested).
Local Abbreviation inGroup := (Stacks.inGroup getEditorInputFactory).
Local Abbreviation deliver := (Stacks.deliver getEditorInputFactory).
Local Abbreviation onEditorClosed := (Stacks.onEditorClosed getEditorInputFactory).

(** ** Calls of a group leave the rest of the model alone *)

Lemma frame_refl m : frame m m.
Proof. by repeat split. Qed.

Lemma frame_trans m1 m2 m3 : frame m1 m2 -> frame m2 m3 -> frame m1 m3.
Proof.
  unfold frame. intros (?&?&?&?&?&?) (?&?&?&?&?&?). split_and!; congruence.
Qed.

Lemma onEditorClosed_frame ev m : frame m (onEditorClosed ev m).
Proof.
  unfold Stacks.onEditorClosed. cbv zeta.
  set (m1 := if negb (isOpen m (ev_editor ev)) then _ else m).
  assert (frame m m1) as Hf.
  { unfold m1. destruct (negb _); [|apply frame_refl].
    destruct (diffInputs (ev_editor ev)) as [[o md]|]; [|by repeat split].
    cbn [fold_left]. by repeat destruct (negb _). }
  clearbody m1. eapply frame_trans; [exact Hf|].
  destruct (ev_pinned ev); [|apply frame_refl].
  destruct (getEditorInputFactory _) as [f|]; [|apply frame_refl].
  destruct (factory_serialize f _); [|apply frame_refl]. by repeat split.
Qed.

Lemma deliver_frame id m f : frame m (deliver id m f).
Proof.
  unfold Stacks.deliver. cbv zeta. destruct (fst f); try by repeat split.
  eapply frame_trans; [|apply onEditorClosed_frame]. by repeat split.
Qed.

Lemma fold_deliver_frame id fs : forall m, frame m (fold_left (deliver id) fs m).
Proof.
  induction fs as [|f fs IH]; intros m; [apply frame_refl|].
  cbn [fold_left]. eapply frame_trans; [apply deliver_frame|apply IH].
Qed.

(** A call of a method of a group of the store returns; the group ends in
    the state the method leaves it in, and no other group changes. *)
Lemma inGroup_returns id c m g :
  heap m !! id = Some g ->
  exists m', inGroup id c m = Returns (tt, m')
    /\ frame m m' /\ heap m' = <[id := fst (c g)]> (heap m).
Proof.
  intros Hg. unfold Stacks.inGroup. rewrite Hg. cbv zeta.
  eexists. split; [reflexivity|].
  pose proof (fold_deliver_frame id (snd (c g)) m) as Hf.
  destruct (deliver_heap getEditorInputFactory id (snd (c g)) m g Hg)
    as (g1 & Hg1 & Hdel).
  set (m1 := fold_left _ _ m) in *. clearbody m1.
  split.
  - eapply frame_trans; [exact Hf|]. by repeat split.
  - cbn [heap set_heap].
    by rewrite <- (insert_delete_eq (heap m1)), Hdel, insert_delete_eq.
Qed.

(** ** The list of groups *)

Lemma js_indexOf_lookup {A} `{EqDecision A} (x : A) (l : list (option A)) (i : nat) :
  JS.indexOf (Some x) l = Z.of_nat i -> l !! i = Some (Some x).
Proof.
  unfold JS.indexOf. destruct (list_find _ l) as [[k y]|] eqn:Hf; [|lia].
  apply list_find_Some in Hf as (Hk & -> & _). intros Hi.
  by replace i with k by lia.
Qed.

Lemma js_indexOf_distinct (ids : list GroupIdentifier) (i : nat) id :
  NoDup ids -> ids !! i = Some id ->
  JS.indexOf (Some id) (Some <$> ids) = Z.of_nat i.
Proof.
  intros Hnd Hi. unfold JS.indexOf.
  destruct (list_find _ _) as [[k y]|] eqn:Hf.
  - apply list_find_Some in Hf as (Hk & -> & _).
    rewrite list_lookup_fmap in Hk.
    destruct (ids !! k) as [z|] eqn:Hz; simplify_eq/=.
    by rewrite (NoDup_lookup ids k i id Hnd Hz Hi).
  - apply list_find_None in Hf. rewrite Forall_forall in Hf.
    exfalso. apply (Hf (Some id)); [|done].
    apply list_elem_of_fmap. exists id. split; [done|].
    by eapply list_elem_of_lookup_2.
Qed.

Lemma js_indexOf_absent (ids : list GroupIdentifier) id :
  id ∉ ids -> JS.indexOf (Some id) (Some <$> ids) = -1.
Proof.
  intros Hid. unfold JS.indexOf.
  destruct (list_find _ _) as [[k y]|] eqn:Hf; [|done].
  apply list_find_Some in Hf as (Hk & -> & _).
  rewrite list_lookup_fmap in Hk.
  destruct (ids !! k) as [z|] eqn:Hz; simplify_eq/=.
  exfalso. apply Hid. by eapply list_elem_of_lookup_2.
Qed.

Lemma groupAt_nat m (ids : list GroupIdentifier) (i : nat) :
  _groups m = Some <$> ids -> groupAt m (Z.of_nat i) = ids !! i.
Proof.
  intros Hg. unfold groupAt. rewrite js_get_nat, Hg, list_lookup_fmap.
  by destruct (ids !! i).
Qed.

Lemma groupAt_negative m (i : Z) : i < 0 -> groupAt m i = None.
Proof. intros Hi. unfold groupAt, JS.get. by destruct (Z.ltb_spec i 0); [|lia]. Qed.

Lemma doSetActive_state g m :
  doSetActive g m
  = Returns (tt, if bool_decide (_activeGroup m = g) then m
                 else set_fired (fired m ++ [(GroupActivated, g); (ModelChanged, g)])
                        (set_activeGroup g m)).
Proof. unfold doSetActive. by case_bool_decide. Qed.

(** ** [closeGroup] *)

Lemma doCloseGroup_closes m ids id i o :
  _groups m = Some <$> ids -> NoDup ids ->
  ids !! i = Some id -> heap m !! id = Some o -> group_ok o -> active_ok o ->
  exists m',
    doCloseGroup getEditorInputFactory (Some id) m = Returns (tt, m')
    /\ _groups m' = Some <$> delete i ids
    /\ groupToIdentifier m' = delete id (groupToIdentifier m)
    /\ (exists o', heap m' !! id = Some o' /\ editors o' = []
                   /\ disposed o' = true)
    /\ (forall id', id' <> id -> heap m' !! id' = heap m !! id')
    /\ _activeGroup m'
       = (if bool_decide (_activeGroup m = Some id) then neighbour ids i
          else _activeGroup m)
    /\ _activeGroup m' <> Some id
    /\ exists pre, fired m' = pre ++ [(GroupClosed, Some id); (ModelChanged, Some id)].
Proof.
  intros Hg Hnd Hi Ho Hok Hact.
  unfold doCloseGroup. cbv zeta.
  assert (indexOf m (Some id) = Z.of_nat i) as Hidx.
  { unfold indexOf. rewrite Hg. by apply js_indexOf_distinct. }
  rewrite Hidx. destruct (Z.ltb_spec (Z.of_nat i) 0); [lia|].
  pose proof (lookup_lt_Some _ _ _ Hi) as Hlt.
  assert (length (_groups m) = length ids) as Hlen by by rewrite Hg, length_fmap.
  (* the new active group *)
  set (a' := if bool_decide (_activeGroup m = Some id) then neighbour ids i
             else _activeGroup m).
  assert (a' <> Some id) as Ha'.
  { unfold a'. case_bool_decide as Hag; [|congruence].
    unfold neighbour. destruct (ids !! S i) as [r|] eqn:Hr.
    - intros [= ->]. pose proof (NoDup_lookup _ _ _ _ Hnd Hr Hi). lia.
    - destruct i as [|j]; [done|]. intros Hj.
      pose proof (NoDup_lookup _ _ _ _ Hnd Hj Hi). lia. }
  unfold bind.
  assert (exists m1,
    (if bool_decide (Some id = _activeGroup m)
     then if (1 <? length (_groups m))%nat
          then doSetActive
                 (if Z.of_nat i + 1 <? Z.of_nat (length (_groups m))
                  then groupAt m (Z.of_nat i + 1)
                  else groupAt m (Z.of_nat i - 1)) m
          else update (set_activeGroup None) m
     else ret tt m) = Returns (tt, m1)
    /\ _groups m1 = _groups m /\ heap m1 = heap m
    /\ groupToIdentifier m1 = groupToIdentifier m
    /\ _activeGroup m1 = a') as (m1 & -> & Hg1 & Hh1 & Ht1 & Ha1).
  { unfold a'. case_bool_decide as Hag.
    - rewrite bool_decide_true by done.
      destruct (Nat.ltb_spec 1 (length (_groups m))) as [Hn|Hn].
      + rewrite doSetActive_state. eexists. split; [reflexivity|].
        assert ((if Z.of_nat i + 1 <? Z.of_nat (length (_groups m))
                 then groupAt m (Z.of_nat i + 1)
                 else groupAt m (Z.of_nat i - 1)) = neighbour ids i) as ->.
        { unfold neighbour.
          destruct (Z.ltb_spec (Z.of_nat i + 1) (Z.of_nat (length (_groups m)))).
          - replace (Z.of_nat i + 1) with (Z.of_nat (S i)) by lia.
            rewrite (groupAt_nat m ids) by done.
            destruct (lookup_lt_is_Some_2 ids (S i)) as [r Hr]; [lia|].
            by rewrite Hr.
          - rewrite (lookup_ge_None_2 ids (S i)) by lia.
            destruct i as [|j]; [lia|].
            replace (Z.of_nat (S j) - 1) with (Z.of_nat j) by lia.
            by rewrite (groupAt_nat m ids). }
        case_bool_decide as Hsame; [by rewrite <- Hsame|done].
      + eexists. split; [reflexivity|]. split_and!; try done.
        cbn [_activeGroup set_activeGroup]. unfold neighbour.
        rewrite (lookup_ge_None_2 ids (S i)) by lia.
        destruct i as [|j]; [done|lia].
    - rewrite bool_decide_false by congruence.
      eexists. split; [reflexivity|]. done. }
  assert (heap m1 !! id = Some o) as Ho1 by by rewrite Hh1.
  destruct (inGroup_returns id closeAllEditors m1 o Ho1)
    as (m2 & -> & (Hg2 & Ha2 & Ht2 & _) & Hh2).
  rewrite Hh2, lookup_insert_eq. unfold update, fireEvent.
  eexists. split; [reflexivity|].
  cbn [_groups _activeGroup groupToIdentifier heap fired set_fired
       set_groupToIdentifier set_groups set_heap].
  destruct (closeAllEditors_clears o Hok Hact) as (Hed & _).
  split_and!.
  - rewrite Hg2, Hg1, Hg. rewrite splice_delete by (rewrite length_fmap; lia).
    rewrite Nat2Z.id. by rewrite list_fmap_delete.
  - by rewrite Ht2, Ht1.
  - eexists. rewrite lookup_insert_eq. split; [reflexivity|]. by split.
  - intros id' Hne. rewrite !lookup_insert_ne by done. by rewrite Hh1.
  - by rewrite Ha2, Ha1.
  - by rewrite Ha2, Ha1.
  - by eexists.
Qed.

(** X13. Closing a group of the list of groups closes all its editors,
    disposes it and takes it out of the list and of the table of groups;
    no other group changes. Was the group active, its right neighbour is
    active afterwards, else its left neighbour, else no group; the closed
    group is never left active. The last events are the close of the group
    and the change of the model. *)
Theorem closeGroup_closes m ids id i o :
  loaded m = true -> _groups m = Some <$> ids -> NoDup ids ->
  ids !! i = Some id -> heap m !! id = Some o -> group_ok o -> active_ok o ->
  exists m',
    closeGroup getEditorInputFactory CONFIG_OPEN_EDITOR_DIRECTION parseModel
      parseLegacyEditors filesRequested (Some id) m = Returns (tt, m')
    /\ _groups m' = Some <$> delete i ids
    /\ groupToIdentifier m' = delete id (groupToIdentifier m)
    /\ (exists o', heap m' !! id = Some o' /\ editors o' = []
                   /\ disposed o' = true)
    /\ (forall id', id' <> id -> heap m' !! id' = heap m !! id')
    /\ _activeGroup m'
       = (if bool_decide (_activeGroup m = Some id) then neighbour ids i
          else _activeGroup m)
    /\ _activeGroup m' <> Some id
    /\ exists pre, fired m' = pre ++ [(GroupClosed, Some id); (ModelChanged, Some id)].
Proof.
  intros Hl Hg Hnd Hi Ho Hok Hact.
  unfold closeGroup, bind. rewrite ensureLoaded_loaded by done.
  by apply (doCloseGroup_closes m ids id i o).
Qed.

(** ** [openGroup] without index, [moveGroup] *)

Lemma splice_insert_fmap (ids : list GroupIdentifier) (s : Z) (n : GroupIdentifier) :
  JS.splice s 0 [Some n] (Some <$> ids)
  = Some <$> (take (JS.start_of s ids) ids ++ n :: drop (JS.start_of s ids) ids).
Proof.
  unfold JS.splice. cbv zeta. rewrite Nat.add_0_r.
  assert (JS.start_of s (Some <$> ids) = JS.start_of s ids) as ->.
  { unfold JS.start_of. by rewrite length_fmap. }
  rewrite fmap_app, fmap_cons, fmap_take, fmap_drop. done.
Qed.

Lemma doOpenGroup_beside m ids l activate :
  _groups m = Some <$> ids -> NoDup ids ->
  exists m',
    doOpenGroup getEditorInputFactory l activate None m = Returns (IDS m, m')
    /\ heap m' = <[IDS m := Group.create (IDS m) l]> (heap m)
    /\ groupToIdentifier m' !! IDS m = Some (IDS m)
    /\ IDS m' = S (IDS m) /\ storage m' = storage m /\ loaded m' = loaded m
    /\ recentlyClosedEditors m' = recentlyClosedEditors m
    /\ (_activeGroup m = None ->
        _groups m' = Some <$> (ids ++ [IDS m]) /\ _activeGroup m' = Some (IDS m))
    /\ (forall a k, _activeGroup m = Some a -> ids !! k = Some a ->
        _groups m' = Some <$> (take (S k) ids ++ IDS m :: drop (S k) ids))
    /\ (forall a, _activeGroup m = Some a -> a ∉ ids ->
        _groups m' = Some <$> (IDS m :: ids))
    /\ (forall a, _activeGroup m = Some a ->
        _activeGroup m' = if default true activate then Some (IDS m) else Some a).
Proof.
  intros Hg Hnd.
  cbv [doOpenGroup bind doCreateGroup update fireEvent ret].
  cbn [_activeGroup set_fired set_groupToIdentifier set_groups set_heap set_IDS
       _groups].
  assert (forall (a : GroupIdentifier) k, ids !! k = Some a ->
            JS.start_of (JS.indexOf (Some a) (Some <$> ids) + 1) ids = S k)
    as Hin.
  { intros a k Hk. rewrite (js_indexOf_distinct ids k a) by done.
    pose proof (lookup_lt_Some _ _ _ Hk).
    unfold JS.start_of. destruct (Z.ltb_spec (Z.of_nat k + 1) 0); lia. }
  assert (forall a : GroupIdentifier, a ∉ ids ->
            JS.start_of (JS.indexOf (Some a) (Some <$> ids) + 1) ids = 0%nat)
    as Hout.
  { intros a Ha. rewrite js_indexOf_absent by done.
    change (JS.start_of (-1 + 1) ids) with (Nat.min 0 (length ids)).
    apply Nat.min_0_l. }
  destruct (_activeGroup m) as [a|] eqn:Ha.
  - cbn [negb orb]. rewrite bool_decide_true by by eexists. cbn [negb orb].
    unfold indexOf.
    cbn [_activeGroup set_fired set_groupToIdentifier set_groups set_heap
         set_IDS _groups heap groupToIdentifier IDS fired].
    rewrite Hg, splice_insert_fmap.
    destruct (default true activate) eqn:Hact.
    + rewrite doSetActive_state.
      cbn [_activeGroup set_fired set_groupToIdentifier set_groups set_heap
           set_IDS _groups heap groupToIdentifier IDS fired].
      rewrite Ha.
      case_bool_decide as Hs; (eexists; split; [reflexivity|]);
        cbn [_activeGroup set_fired set_groupToIdentifier set_groups set_heap
             set_IDS _groups heap groupToIdentifier IDS fired set_activeGroup
             storage loaded recentlyClosedEditors];
        (split_and!;
         [reflexivity
         |by rewrite lookup_insert_eq
         |reflexivity
         |reflexivity
         |reflexivity
         |reflexivity
         |done
         |intros a0 k [= <-] Hk; by rewrite (Hin a k)
         |intros a0 [= <-] Hna; by rewrite (Hout a), take_0, drop_0
         |intros a0 [= <-]; by rewrite ?Ha, ?Hs]).
    + eexists. split; [reflexivity|].
      cbn [_activeGroup set_fired set_groupToIdentifier set_groups set_heap
           set_IDS _groups heap groupToIdentifier IDS storage loaded
           recentlyClosedEditors].
      split_and!; try done.
      * by rewrite lookup_insert_eq.
      * intros a0 k [= <-] Hk. by rewrite (Hin a k).
      * intros a0 [= <-] Hna. by rewrite (Hout a), take_0, drop_0.
      * intros a0 [= <-]. exact Ha.
  - cbn [_activeGroup set_fired set_groupToIdentifier set_groups set_heap
         set_IDS _groups heap groupToIdentifier IDS fired].
    rewrite Ha, bool_decide_false by (by intros [? ?]). cbn [negb orb].
    rewrite doSetActive_state.
    cbn [_activeGroup set_fired set_groupToIdentifier set_groups set_heap
         set_IDS]. rewrite Ha, bool_decide_false by done.
    eexists. split; [reflexivity|].
    cbn [_activeGroup set_fired set_groupToIdentifier set_groups set_heap
         set_IDS _groups heap groupToIdentifier IDS set_activeGroup storage
         loaded recentlyClosedEditors].
    split_and!; try done.
    + by rewrite lookup_insert_eq.
    + intros _. split; [|done]. by rewrite Hg, fmap_app.
Qed.

(** X14. [openGroup] without index creates the group with the next id and
    the given label, without editors. Without active group it is put at
    the end of the list and becomes active. With an active group it is put
    right behind the active group, or first when the active group is not
    in the list, and it becomes active unless [activate] is [false]. *)
Theorem openGroup_beside_active m ids l activate :
  loaded m = true -> _groups m = Some <$> ids -> NoDup ids ->
  exists m',
    openGroup getEditorInputFactory CONFIG_OPEN_EDITOR_DIRECTION parseModel
      parseLegacyEditors filesRequested l activate None m = Returns (IDS m, m')
    /\ heap m' = <[IDS m := Group.create (IDS m) l]> (heap m)
    /\ groupToIdentifier m' !! IDS m = Some (IDS m)
    /\ IDS m' = S (IDS m)
    /\ (_activeGroup m = None ->
        _groups m' = Some <$> (ids ++ [IDS m]) /\ _activeGroup m' = Some (IDS m))
    /\ (forall a k, _activeGroup m = Some a -> ids !! k = Some a ->
        _groups m' = Some <$> (take (S k) ids ++ IDS m :: drop (S k) ids))
    /\ (forall a, _activeGroup m = Some a -> a ∉ ids ->
        _groups m' = Some <$> (IDS m :: ids))
    /\ (forall a, _activeGroup m = Some a ->
        _activeGroup m' = if default true activate then Some (IDS m) else Some a).
Proof.
  intros Hl Hg Hnd. unfold openGroup, bind. rewrite ensureLoaded_loaded by done.
  destruct (doOpenGroup_beside m ids l activate Hg Hnd)
    as (m' & -> & ? & ? & ? & _ & _ & _ & ? & ? & ? & ?).
  by exists m'.
Qed.

(** X15. [moveGroup] of a group of the list to a target that is not
    negative puts the group at the target position, or last when the
    target is past the end. The list holds the same groups, nothing else
    of the model changes, and the move and the change of the model are
    fired. *)
Theorem moveGroup_position m ids id i t :
  loaded m = true -> _groups m = Some <$> ids -> NoDup ids ->
  ids !! i = Some id -> 0 <= t ->
  exists m' ids',
    moveGroup getEditorInputFactory CONFIG_OPEN_EDITOR_DIRECTION parseModel
      parseLegacyEditors filesRequested (Some id) t m = Returns (tt, m')
    /\ _groups m' = Some <$> ids'
    /\ ids' !! Nat.min (Z.to_nat t) (length ids - 1) = Some id
    /\ ids' ≡ₚ ids
    /\ heap m' = heap m /\ _activeGroup m' = _activeGroup m
    /\ fired m' = fired m ++ [(GroupMoved, Some id); (ModelChanged, Some id)].
Proof.
  intros Hl Hg Hnd Hi Ht. unfold moveGroup, bind.
  rewrite ensureLoaded_loaded by done.
  assert (indexOf m (Some id) = Z.of_nat i) as Hidx.
  { unfold indexOf. rewrite Hg. by apply js_indexOf_distinct. }
  rewrite Hidx. destruct (Z.ltb_spec (Z.of_nat i) 0); [lia|].
  pose proof (lookup_lt_Some _ _ _ Hi) as Hlt.
  unfold update, fireEvent. eexists _, _. split; [reflexivity|].
  cbn [_groups heap _activeGroup fired set_fired set_groups].
  rewrite Hg, splice_delete by (rewrite length_fmap; lia).
  rewrite Nat2Z.id, <- list_fmap_delete, splice_insert_fmap.
  split; [reflexivity|].
  pose proof (length_delete_lookup ids i id Hi) as Hdl.
  assert (JS.start_of t (delete i ids) = Nat.min (Z.to_nat t) (length ids - 1))
    as ->.
  { unfold JS.start_of. destruct (Z.ltb_spec t 0); lia. }
  set (p := Nat.min (Z.to_nat t) (length ids - 1)).
  split_and!; try done.
  - rewrite lookup_app_r; rewrite length_take; [|lia].
    by replace (p - Nat.min p (length (delete i ids)))%nat with 0%nat by lia.
  - rewrite <- Permutation_middle, take_drop.
    symmetry. by apply delete_Permutation.
Qed.

(** ** The recently closed editors *)

Lemma fold_deliver_recentlyClosed id fs : forall m,
  forallb (fun f => negb (isClose f)) fs = true ->
  recentlyClosedEditors (fold_left (deliver id) fs m) = recentlyClosedEditors m.
Proof.
  induction fs as [|f fs IH]; intros m Hfs; [done|].
  cbn [forallb] in Hfs. apply andb_true_iff in Hfs as [Hf Hfs].
  cbn [fold_left]. rewrite IH by done.
  unfold isClose in Hf. unfold Stacks.deliver. by destruct (fst f).
Qed.

(** The close that [closeEditor] fires says whether the editor was pinned. *)
Lemma closeEditor_trace_pinned e n g :
  Group.indexOf (Some e) (editors g) <> -1 -> disposed g = false ->
  exists pre,
    snd (closeEditor (Some e) n g)
    = pre ++ [(EditorClosed {| ev_editor := e;
                               ev_pinned := isPinned g (Some e) |},
               fst (closeEditor (Some e) n g));
              (EditorChanged e, fst (closeEditor (Some e) n g))]
    /\ forallb (fun f => negb (isClose f)) pre = true.
Proof.
  intros Hi Hd.
  destruct (closeEditor_trace e n g Hi Hd) as (pre & pinned & Hs & Hpre).
  destruct (closeEditor_fires e n g Hi Hd) as (g' & Hin).
  exists pre. split; [|done]. rewrite Hs. do 4 f_equal.
  assert (isPinned g (Some e) = negb (matches (preview g) (Some e))) as ->.
  { unfold isPinned. destruct (Z.eqb_spec (Group.indexOf (Some e) (editors g)) (-1));
      [done|]. by destruct (preview g). }
  rewrite Hs in Hin. apply elem_of_app in Hin as [Hin|Hin].
  - exfalso. rewrite forallb_forall in Hpre.
    apply list_elem_of_In, Hpre in Hin. done.
  - apply elem_of_cons in Hin as [Hin|Hin]; [congruence|].
    apply list_elem_of_singleton in Hin. discriminate.
Qed.

Lemma inGroup_closeEditor m id g e n :
  heap m !! id = Some g -> disposed g = false ->
  Group.indexOf (Some e) (editors g) <> -1 ->
  exists m',
    inGroup id (closeEditor (Some e) n) m = Returns (tt, m')
    /\ recentlyClosedEditors m'
       = if isPinned g (Some e)
         then match serialized getEditorInputFactory e with
              | Some s => take 10 (recentlyClosedEditors m ++ [s])
              | None => recentlyClosedEditors m
              end
         else recentlyClosedEditors m.
Proof.
  intros Hg Hd Hi. unfold Stacks.inGroup. rewrite Hg. cbv zeta.
  destruct (closeEditor_trace_pinned e n g Hi Hd) as (pre & -> & Hpre).
  set (gf := fst (closeEditor (Some e) n g)). clearbody gf.
  eexists. split; [reflexivity|].
  rewrite fold_left_app.
  match goal with
  | |- context [@fold_left ?A ?B ?f pre m] => set (m1 := @fold_left A B f pre m)
  end.
  assert (recentlyClosedEditors m1 = recentlyClosedEditors m) as Hrc
    by exact (fold_deliver_recentlyClosed id pre m Hpre).
  clearbody m1.
  cbn [fold_left Stacks.deliver fst snd recentlyClosedEditors set_heap set_fired].
  rewrite onEditorClosed_recentlyClosed.
  cbn [ev_pinned ev_editor recentlyClosedEditors set_heap].
  by rewrite Hrc.
Qed.

(** X16. When a group of the model closes an editor that it holds, the
    editor is put on the list of recently closed editors exactly when it
    was pinned and its factory serializes it; the list is then cut to its
    first 10 entries. The close of a preview editor is not recorded. *)
Theorem closed_editor_recorded m id g e n :
  heap m !! id = Some g -> disposed g = false ->
  Group.indexOf (Some e) (editors g) <> -1 ->
  exists m',
    inGroup id (closeEditor (Some e) n) m = Returns (tt, m')
    /\ recentlyClosedEditors m'
       = if isPinned g (Some e)
         then match serialized getEditorInputFactory e with
              | Some s => take 10 (recentlyClosedEditors m ++ [s])
              | None => recentlyClosedEditors m
              end
         else recentlyClosedEditors m.
Proof. apply inGroup_closeEditor. Qed.

(** X17. A pinned editor with a factory that a group of the model closes
    while fewer than 10 editors are recorded is the one that
    [popLastClosedEditor] gives back next: the factory deserializes the
    value that it had serialized, and the list of recently closed editors
    is again as before the close. *)
Theorem pop_returns_last_closed m id g e n factory value :
  heap m !! id = Some g -> disposed g = false ->
  Group.indexOf (Some e) (editors g) <> -1 -> isPinned g (Some e) = true ->
  getEditorInputFactory (getId e) = Some factory ->
  factory_serialize factory e = Some value ->
  (length (recentlyClosedEditors m) < 10)%nat ->
  exists m1 m2,
    inGroup id (closeEditor (Some e) n) m = Returns (tt, m1)
    /\ popLastClosedEditor getEditorInputFactory m1
       = Returns (Some (factory_deserialize factory value), m2)
    /\ recentlyClosedEditors m2 = recentlyClosedEditors m.
Proof.
  intros Hg Hd Hi Hp Hf Hv Hlen.
  destruct (inGroup_closeEditor m id g e n Hg Hd Hi) as (m1 & Hm1 & Hrc).
  rewrite Hp in Hrc. unfold serialized in Hrc. rewrite Hf, Hv in Hrc.
  rewrite take_ge in Hrc by (rewrite length_app; cbn [length]; lia).
  exists m1. eexists. split; [done|].
  unfold popLastClosedEditor, JS.pop. rewrite Hrc, last_snoc, removelast_last.
  cbn [ser_id ser_value]. rewrite Hf. split; [reflexivity|]. done.
Qed.

(** ** [next] and [previous] *)

Local Abbreviation next :=
  (Stacks.next getEditorInputFactory CONFIG_OPEN_EDITOR_DIRECTION
     parseModel parseLegacyEditors filesRequested).
Local Abbreviation previous :=
  (Stacks.previous getEditorInputFactory CONFIG_OPEN_EDITOR_DIRECTION
     parseModel parseLegacyEditors filesRequested).

Lemma indexOf_distinct m ids (i : nat) id :
  _groups m = Some <$> ids -> NoDup ids -> ids !! i = Some id ->
  indexOf m (Some id) = Z.of_nat i.
Proof. intros Hg Hnd Hi. unfold indexOf. rewrite Hg. by apply js_indexOf_distinct. Qed.

(** [next] on a list of groups without holes: the editor behind the
    active one, else the first editor of the group behind the active
    group, else the first editor of the first group. *)
Lemma next_at m ids g o (k i : nat) :
  loaded m = true -> _groups m = Some <$> ids -> NoDup ids ->
  ids !! i = Some g -> _activeGroup m = Some g -> heap m !! g = Some o ->
  Group.indexOf (active o) (editors o) = Z.of_nat k ->
  next m =
  if (S k <? length (editors o))%nat
  then Returns (Some {| group := g; editor := editors o !! S k |}, m)
  else match (match ids !! S i with Some n => Some n | None => head ids end) with
       | Some n =>
           match heap m !! n with
           | Some on => Returns (Some {| group := n; editor := editors on !! 0%nat |}, m)
           | None => Unrepresented
           end
       | None => Throws
       end.
Proof.
  intros Hl Hg Hnd Hi Ha Ho Hk. unfold Stacks.next, bind.
  rewrite ensureLoaded_loaded by done. rewrite Ha, Ho. cbv zeta. rewrite Hk.
  unfold count, ret.
  destruct (Nat.ltb_spec (S k) (length (editors o)));
    destruct (Z.ltb_spec (Z.of_nat k + 1) (Z.of_nat (length (editors o))));
    try lia.
  - unfold getEditor. replace (Z.of_nat k + 1) with (Z.of_nat (S k)) by lia.
    by rewrite js_get_nat.
  - rewrite (indexOf_distinct m ids i g) by done.
    replace (Z.of_nat i + 1) with (Z.of_nat (S i)) by lia.
    rewrite (groupAt_nat m ids) by done.
    destruct (ids !! S i) as [n|] eqn:Hn.
    + by destruct (heap m !! n).
    + change 0 with (Z.of_nat 0). rewrite (groupAt_nat m ids) by done.
      rewrite <- head_lookup. destruct (head ids) as [n|]; [|done].
      by destruct (heap m !! n).
Qed.

(** [previous] on a list of groups without holes: the editor before the
    active one, else the last editor of the group before the active
    group, else the last editor of the last group. *)
Lemma previous_at m ids g o (k i : nat) :
  loaded m = true -> _groups m = Some <$> ids -> NoDup ids ->
  ids !! i = Some g -> _activeGroup m = Some g -> heap m !! g = Some o ->
  Group.indexOf (active o) (editors o) = Z.of_nat k ->
  previous m =
  match k with
  | S k' => Returns (Some {| group := g; editor := editors o !! k' |}, m)
  | O =>
      match (match i with S i' => ids !! i' | O => last ids end) with
      | Some p =>
          match heap m !! p with
          | Some op =>
              Returns (Some {| group := p;
                               editor := getEditor op (Z.of_nat (length (editors op)) - 1) |},
                       m)
          | None => Unrepresented
          end
      | None => Throws
      end
  end.
Proof.
  intros Hl Hg Hnd Hi Ha Ho Hk. unfold Stacks.previous, bind.
  rewrite ensureLoaded_loaded by done. rewrite Ha, Ho. cbv zeta. rewrite Hk.
  unfold count, ret.
  pose proof (lookup_lt_Some _ _ _ Hi) as Hlt.
  destruct k as [|k'].
  - change (0 <? Z.of_nat 0) with false. cbv iota.
    rewrite (indexOf_distinct m ids i g) by done.
    destruct i as [|i'].
    + rewrite groupAt_negative by lia.
      assert (length (_groups m) = length ids) as -> by by rewrite Hg, length_fmap.
      replace (Z.of_nat (length ids) - 1) with (Z.of_nat (length ids - 1)) by lia.
      rewrite (groupAt_nat m ids) by done.
      rewrite last_lookup. replace (pred (length ids)) with (length ids - 1)%nat by lia.
      done.
    + replace (Z.of_nat (S i') - 1) with (Z.of_nat i') by lia.
      rewrite (groupAt_nat m ids) by done.
      destruct (lookup_lt_is_Some_2 ids i') as [p Hp]; [lia|]. by rewrite Hp.
  - destruct (Z.ltb_spec 0 (Z.of_nat (S k'))); [|lia].
    unfold getEditor. replace (Z.of_nat (S k') - 1) with (Z.of_nat k') by lia.
    by rewrite js_get_nat.
Qed.

Lemma sound_active m id :
  group_sound m id ->
  exists o a k x,
    heap m !! id = Some o /\ group_ok o /\ active o = Some a
    /\ Group.indexOf (active o) (editors o) = Z.of_nat k
    /\ editors o !! k = Some x /\ input_matches x a = true.
Proof.
  intros (o & Ho & Hok & Hact & Hne).
  destruct (active o) as [a|] eqn:Ha; [|by unfold active_ok in Hact; rewrite Ha in Hact].
  assert (Group.indexOf (Some a) (editors o) <> -1) as Hi.
  { apply indexOf_present. by rewrite (active_ok_present o a Hok Hact Ha). }
  destruct (indexOf_found a (editors o) _ eq_refl Hi) as (x & Hx & Hxa & Hr & _).
  exists o, a, (Z.to_nat (Group.indexOf (Some a) (editors o))), x.
  split_and!; try done. rewrite Ha. symmetry. apply Z2Nat.id. lia.
Qed.

Lemma sound_first m id :
  group_sound m id ->
  exists o x, heap m !! id = Some o /\ group_ok o /\ editors o !! 0%nat = Some x.
Proof.
  intros (o & Ho & Hok & _ & Hne). destruct (editors o) as [|x l] eqn:He; [done|].
  exists o, x. by rewrite He.
Qed.

Lemma sound_last m id :
  group_sound m id ->
  exists o x, heap m !! id = Some o /\ group_ok o
              /\ editors o !! (length (editors o) - 1)%nat = Some x
              /\ (0 < length (editors o))%nat.
Proof.
  intros (o & Ho & Hok & _ & Hne).
  assert (0 < length (editors o))%nat as Hlen.
  { destruct (editors o); [done|]. cbn [length]. lia. }
  destruct (lookup_lt_is_Some_2 (editors o) (length (editors o) - 1)) as [x Hx];
    [lia|].
  by exists o, x.
Qed.

Lemma positioned_at m m2 g o e' k :
  same_layout m m2 -> positioned m2 g e' -> heap m !! g = Some o ->
  group_ok o -> editors o !! k = Some e' ->
  exists o2, _activeGroup m2 = Some g /\ heap m2 !! g = Some o2
             /\ editors o2 = editors o
             /\ Group.indexOf (active o2) (editors o2) = Z.of_nat k.
Proof.
  intros [_ Hlay] (Hag & o2 & a2 & Ho2 & Ha2 & Hm) Ho Hok Hk.
  destruct (Hlay g o Ho) as (o2' & Ho2' & Hed).
  assert (o2' = o2) as -> by congruence.
  exists o2. split_and!; try done.
  rewrite Ha2, Hed, (indexOf_matches a2 e') by done. by apply indexOf_stored.
Qed.

Lemma same_layout_editors m m2 g o :
  same_layout m m2 -> heap m !! g = Some o ->
  exists o2, heap m2 !! g = Some o2 /\ editors o2 = editors o.
Proof. intros [_ Hlay] Ho. by apply Hlay. Qed.

Lemma current_at m g o k :
  _activeGroup m = Some g -> heap m !! g = Some o ->
  Group.indexOf (active o) (editors o) = Z.of_nat k ->
  current m = Some {| group := g; editor := editors o !! k |}.
Proof.
  intros Ha Ho Hk. unfold current. rewrite Ha, Ho, Hk. unfold getEditor.
  by rewrite js_get_nat.
Qed.

(** X18. In a loaded model whose groups are all in the store, distinct and
    not empty, [next] returns an editor of a group of the model and
    leaves the model as it is. Once the model stands at that editor, with
    the same groups and editors, [previous] returns the place where the
    model stood before: [previous] undoes [next], also from the last
    editor of the last group, where [next] wraps around to the first
    editor of the first group. *)
Theorem previous_after_next m ids ag :
  model_sound m ids -> _activeGroup m = Some ag -> ag ∈ ids ->
  exists g' e',
    next m = Returns (Some {| group := g'; editor := Some e' |}, m)
    /\ g' ∈ ids
    /\ forall m2, loaded m2 = true -> same_layout m m2 -> positioned m2 g' e' ->
         previous m2 = Returns (current m, m2).
Proof.
  intros [Hl Hg Hnd Hs] Ha Hin.
  apply list_elem_of_lookup in Hin as [i Hi].
  pose proof (lookup_lt_Some _ _ _ Hi) as Hlt.
  destruct (sound_active m ag) as (o & a & k & x & Ho & Hok & Hact & Hk & Hx & Hxa).
  { apply Hs. by eapply list_elem_of_lookup_2. }
  pose proof (lookup_lt_Some _ _ _ Hx) as Hklt.
  rewrite (next_at m ids ag o k i) by done.
  rewrite (current_at m ag o k) by done.
  destruct (Nat.ltb_spec (S k) (length (editors o))) as [Hn|Hn].
  - destruct (lookup_lt_is_Some_2 (editors o) (S k) Hn) as [e' He'].
    exists ag, e'. rewrite He'. split_and!; [done|by eapply list_elem_of_lookup_2|].
    intros m2 Hl2 Hlay Hpos.
    destruct (positioned_at m m2 ag o e' (S k) Hlay Hpos Ho Hok He')
      as (o2 & Ha2 & Ho2 & Hed & Hk2).
    rewrite (previous_at m2 ids ag o2 (S k) i); try done.
    + by rewrite Hed.
    + destruct Hlay as [-> _]. done.
  - assert (k = (length (editors o) - 1)%nat) as Hklast by lia.
    set (n' := match ids !! S i with Some n => Some n | None => head ids end).
    assert (exists n j, n' = Some n /\ ids !! j = Some n
                        /\ match j with S j' => ids !! j' | O => last ids end
                           = Some ag) as (n & j & -> & Hj & Hback).
    { unfold n'. destruct (ids !! S i) as [n|] eqn:Hn'.
      - exists n, (S i). done.
      - apply lookup_ge_None_1 in Hn'.
        destruct ids as [|n0 ids0] eqn:Hids; [done|].
        exists n0, 0%nat. split_and!; try done.
        rewrite last_lookup. rewrite <- Hi. f_equal. cbn [length] in *. lia. }
    destruct (sound_first m n) as (on & e0 & Hon & Hokn & He0).
    { apply Hs. by eapply list_elem_of_lookup_2. }
    rewrite Hon, He0. exists n, e0.
    split_and!; [done|by eapply list_elem_of_lookup_2|].
    intros m2 Hl2 Hlay Hpos.
    destruct (positioned_at m m2 n on e0 0 Hlay Hpos Hon Hokn He0)
      as (o2 & Ha2 & Ho2 & Hed & Hk2).
    destruct (same_layout_editors m m2 ag o Hlay Ho) as (oa & Hoa & Heda).
    rewrite (previous_at m2 ids n o2 0 j); try done.
    + rewrite Hback, Hoa. unfold getEditor. rewrite Heda.
      replace (Z.of_nat (length (editors o)) - 1) with (Z.of_nat k) by lia.
      by rewrite js_get_nat.
    + destruct Hlay as [-> _]. done.
Qed.

(** X19. In such a model [previous] returns an editor of a group of the
    model and leaves the model as it is, and once the model stands at
    that editor [next] returns the place where the model stood before:
    [next] undoes [previous], also from the first editor of the first
    group, where [previous] wraps around to the last editor of the last
    group. *)
Theorem next_after_previous m ids ag :
  model_sound m ids -> _activeGroup m = Some ag -> ag ∈ ids ->
  exists g' e',
    previous m = Returns (Some {| group := g'; editor := Some e' |}, m)
    /\ g' ∈ ids
    /\ forall m2, loaded m2 = true -> same_layout m m2 -> positioned m2 g' e' ->
         next m2 = Returns (current m, m2).
Proof.
  intros [Hl Hg Hnd Hs] Ha Hin.
  apply list_elem_of_lookup in Hin as [i Hi].
  pose proof (lookup_lt_Some _ _ _ Hi) as Hlt.
  destruct (sound_active m ag) as (o & a & k & x & Ho & Hok & Hact & Hk & Hx & Hxa).
  { apply Hs. by eapply list_elem_of_lookup_2. }
  pose proof (lookup_lt_Some _ _ _ Hx) as Hklt.
  rewrite (previous_at m ids ag o k i) by done.
  rewrite (current_at m ag o k) by done.
  destruct k as [|k'].
  - set (p' := match i with S i' => ids !! i' | O => last ids end).
    assert (exists p j, p' = Some p /\ ids !! j = Some p
                        /\ match ids !! S j with Some n => Some n | None => head ids end
                           = Some ag) as (p & j & -> & Hj & Hforth).
    { unfold p'. destruct i as [|i'].
      - destruct (last ids) as [p|] eqn:Hp.
        + exists p, (length ids - 1)%nat. rewrite last_lookup in Hp.
          replace (pred (length ids)) with (length ids - 1)%nat in Hp by lia.
          split_and!; try done.
          rewrite (lookup_ge_None_2 ids (S (length ids - 1))) by lia.
          by rewrite head_lookup.
        + rewrite last_lookup in Hp. apply lookup_ge_None_1 in Hp. lia.
      - destruct (lookup_lt_is_Some_2 ids i') as [p Hp]; [lia|].
        exists p, i'. by rewrite Hp, Hi. }
    destruct (sound_last m p) as (op & el & Hop & Hokp & Hel & Hpos0).
    { apply Hs. by eapply list_elem_of_lookup_2. }
    rewrite Hop. unfold getEditor.
    replace (Z.of_nat (length (editors op)) - 1)
      with (Z.of_nat (length (editors op) - 1)) by lia.
    rewrite js_get_nat, Hel. exists p, el.
    split_and!; [done|by eapply list_elem_of_lookup_2|].
    intros m2 Hl2 Hlay Hpos.
    destruct (positioned_at m m2 p op el _ Hlay Hpos Hop Hokp Hel)
      as (o2 & Ha2 & Ho2 & Hed & Hk2).
    destruct (same_layout_editors m m2 ag o Hlay Ho) as (oa & Hoa & Heda).
    rewrite (next_at m2 ids p o2 (length (editors op) - 1) j); try done.
    + rewrite Hed. destruct (Nat.ltb_spec (S (length (editors op) - 1))
                               (length (editors op))); [lia|].
      by rewrite Hforth, Hoa, Heda.
    + destruct Hlay as [-> _]. done.
  - destruct (lookup_lt_is_Some_2 (editors o) k') as [e' He']; [lia|].
    exists ag, e'. rewrite He'. split_and!; [done|by eapply list_elem_of_lookup_2|].
    intros m2 Hl2 Hlay Hpos.
    destruct (positioned_at m m2 ag o e' k' Hlay Hpos Ho Hok He')
      as (o2 & Ha2 & Ho2 & Hed & Hk2).
    rewrite (next_at m2 ids ag o2 k' i); try done.
    + rewrite Hed. destruct (Nat.ltb_spec (S k') (length (editors o))); [|lia].
      done.
    + destruct Hlay as [-> _]. done.
Qed.

(** X20. Without active group [next] and [previous] return null, whatever
    the groups hold. With a single group that is active and holds no
    editor, both return an identifier of that group without editor. *)
Theorem next_previous_without_position m :
  loaded m = true ->
  (_activeGroup m = None ->
   next m = Returns (None, m) /\ previous m = Returns (None, m))
  /\ (forall g o, _groups m = [Some g] -> _activeGroup m = Some g ->
        heap m !! g = Some o -> editors o = [] ->
        next m = Returns (Some {| group := g; editor := None |}, m)
        /\ previous m = Returns (Some {| group := g; editor := None |}, m)).
Proof.
  intros Hl. split.
  - intros Ha. unfold Stacks.next, Stacks.previous, bind.
    rewrite ensureLoaded_loaded by done. by rewrite Ha.
  - intros g o Hg Ha Ho He.
    assert (Group.indexOf (active o) (editors o) = -1) as Hi.
    { rewrite He. unfold Group.indexOf. by destruct (active o). }
    assert (_groups m = Some <$> [g]) as Hg' by done.
    assert (NoDup [g]) as Hnd by apply NoDup_singleton.
    unfold Stacks.next, Stacks.previous, bind.
    rewrite ensureLoaded_loaded by done. rewrite Ha, Ho. cbv zeta.
    rewrite Hi, (indexOf_distinct m [g] 0 g) by done.
    unfold count, getEditor. rewrite He, Hg.
    change (-1 + 1 <? Z.of_nat (length [])) with false.
    change (0 <? -1) with false. cbv iota.
    change (Z.of_nat 0 + 1) with (Z.of_nat 1).
    change (Z.of_nat (length [Some g]) - 1) with (Z.of_nat 0).
    assert (groupAt m 0 = Some g) as -> by (unfold groupAt; by rewrite Hg).
    rewrite (groupAt_nat m [g] 1), (groupAt_nat m [g] 0) by done.
    rewrite (groupAt_negative m (Z.of_nat 0 - 1)) by lia.
    cbn [lookup list_lookup]. rewrite Ho, He. done.
Qed.

(** ** Loading a stored model *)

Local Abbreviation load :=
  (Stacks.load getEditorInputFactory CONFIG_OPEN_EDITOR_DIRECTION
     parseModel parseLegacyEditors filesRequested).
Local Abbreviation doCreateGroup := (Stacks.doCreateGroup getEditorInputFactory).
Local Abbreviation deserialize := (Group.deserialize getEditorInputFactory).

Lemma mapMM_doCreateGroup (ds : list ISerializedEditorGroup) : forall m,
  (forall i d, ds !! i = Some d ->
     exists g, deserialize (IDS m + i)%nat d = Returns g) ->
  exists m',
    mapMM (fun s => doCreateGroup (inr s)) ds m
    = Returns (seq (IDS m) (length ds), m')
    /\ IDS m' = (IDS m + length ds)%nat
    /\ (forall i d, ds !! i = Some d ->
          exists g, heap m' !! (IDS m + i)%nat = Some g
                    /\ deserialize (IDS m + i)%nat d = Returns g)
    /\ (forall id, (id < IDS m)%nat -> heap m' !! id = heap m !! id)
    /\ loaded m' = loaded m /\ groupToIdentifier m' = groupToIdentifier m
    /\ storage m' = storage m /\ fired m' = fired m /\ closed m' = closed m.
Proof.
  induction ds as [|d ds IH]; intros m Hds.
  - exists m. cbn [mapMM length seq]. unfold ret. rewrite Nat.add_0_r.
    split_and!; try done.
  - destruct (Hds 0%nat d eq_refl) as (g & Hg). rewrite Nat.add_0_r in Hg.
    cbn [mapMM]. unfold bind at 1. unfold Stacks.doCreateGroup at 1. cbv zeta.
    rewrite Hg.
    set (m1 := set_heap (<[IDS m := g]> (heap (set_IDS (S (IDS m)) m)))
                 (set_IDS (S (IDS m)) m)).
    destruct (IH m1) as (m' & Hmap & Hids & Hheap & Hold & Hl & Ht & Hst & Hf & Hc).
    { intros i d' Hi. cbn [IDS m1 set_heap set_IDS].
      replace (S (IDS m) + i)%nat with (IDS m + S i)%nat by lia.
      by apply (Hds (S i)). }
    exists m'. unfold bind. rewrite Hmap. unfold ret.
    cbn [IDS set_heap set_IDS m1] in *. cbn [length seq].
    split_and!; try done.
    + lia.
    + intros [|i] d' Hi.
      * simplify_eq/=. exists g. rewrite Nat.add_0_r. split; [|done].
        rewrite Hold by lia. cbn [heap set_heap]. by rewrite lookup_insert_eq.
      * replace (IDS m + S i)%nat with (S (IDS m) + i)%nat by lia.
        by apply Hheap.
    + intros id Hid. rewrite Hold by lia. unfold m1. cbn [heap set_heap set_IDS].
      by rewrite lookup_insert_ne by lia.
Qed.

Lemma fold_insert_ids (l : list GroupIdentifier) : forall (t : gmap GroupIdentifier GroupIdentifier) id,
  id ∈ l -> fold_left (fun t g => <[g := g]> t) l t !! id = Some id.
Proof.
  induction l as [|x l IH]; intros t id Hid; [by apply elem_of_nil in Hid|].
  cbn [fold_left]. destruct (decide (id ∈ l)) as [Hl|Hl]; [by apply IH|].
  apply elem_of_cons in Hid as [->|?]; [|done].
  clear IH. revert t. induction l as [|y l IH]; intros t.
  - cbn. by rewrite lookup_insert_eq.
  - cbn [fold_left]. apply not_elem_of_cons in Hl as [Hne Hl].
    rewrite insert_insert_ne by done. by apply IH.
Qed.

Lemma ensureLoaded_valid m raw s :
  loaded m = false -> filesRequested = false ->
  truthy (editorStacks_model (storage m)) = Some raw ->
  parseModel raw = Some s -> doValidate s = 0 ->
  (forall i d, ser_groups s !! i = Some d ->
     exists g, deserialize (IDS m + i)%nat d = Returns g) ->
  exists m',
    ensureLoaded m = Returns (tt, m') /\ loaded m' = true
    /\ _groups m' = Some <$> seq (IDS m) (length (ser_groups s))
    /\ (forall i d, ser_groups s !! i = Some d ->
          exists g, heap m' !! (IDS m + i)%nat = Some g
                    /\ deserialize (IDS m + i)%nat d = Returns g
                    /\ groupToIdentifier m' !! (IDS m + i)%nat = Some (IDS m + i)%nat)
    /\ (ser_groups s = [] -> _activeGroup m' = None)
    /\ (ser_groups s <> [] ->
        exists a, ser_active s = Some (Z.of_nat a)
                  /\ (a < length (ser_groups s))%nat
                  /\ _activeGroup m' = Some (IDS m + a)%nat)
    /\ recentlyClosedEditors m' = default [] (ser_lastClosed s).
Proof.
  intros Hl Hfiles Hraw Hparse Hvalid Hds.
  unfold Stacks.ensureLoaded. rewrite Hl. cbn [negb].
  unfold bind at 1. unfold update at 1. unfold Stacks.load.
  rewrite Hfiles. cbn [storage set_loaded]. rewrite Hraw, Hparse. cbv zeta.
  rewrite Hvalid. cbn [Z.eqb negb].
  destruct (mapMM_doCreateGroup (ser_groups s) (set_loaded true m))
    as (m1 & Hmap & Hids & Hheap & Hold & Hl1 & Ht1 & _).
  { done. }
  unfold bind at 1. rewrite Hmap. cbn [IDS set_loaded] in *.
  unfold bind, update. eexists. split; [reflexivity|].
  cbn [_groups heap _activeGroup groupToIdentifier recentlyClosedEditors loaded
       set_recentlyClosedEditors set_groupToIdentifier set_activeGroup set_groups].
  split_and!; try done.
  - intros i d Hi. destruct (Hheap i d Hi) as (g & Hg & Hd).
    exists g. split_and!; try done. apply fold_insert_ids.
    apply elem_of_seq. apply lookup_lt_Some in Hi. lia.
  - intros Hnil. unfold doValidate in Hvalid. cbv zeta in Hvalid.
    rewrite Hnil in Hvalid. cbn [length Nat.eqb andb] in Hvalid.
    case_bool_decide as Hact; [done|].
    destruct (ser_active s); [by destruct Hact|done].
  - intros Hne. unfold doValidate in Hvalid. cbv zeta in Hvalid.
    destruct (ser_groups s) as [|d0 ds] eqn:Hgs; [done|].
    cbn [length Nat.eqb andb negb] in Hvalid.
    case_bool_decide as Hact; [|done]. destruct Hact as [d Hd].
    destruct (ser_active s) as [a|]; [|done]. cbn [mbind option_bind] in Hd.
    unfold JS.get in Hd. destruct (Z.ltb_spec a 0); [done|].
    pose proof (lookup_lt_Some _ _ _ Hd) as Hlt.
    exists (Z.to_nat a). rewrite Z2Nat.id by done. split_and!; try done.
    cbn [mbind option_bind]. unfold groupAt.
    cbn [_groups set_groups]. rewrite js_get_in by done.
    rewrite list_lookup_fmap, lookup_seq_lt by done. done.
Qed.

(** X21. The first call of a method that loads, on a model whose storage
    holds a valid model, restores the model: one group for every stored
    group, in the stored order and with the ids that follow the counter,
    each the group that the constructor deserializes from the stored one,
    and all in the table of groups. The stored active index selects the
    active group, and the recently closed editors are the stored ones. *)
Theorem ensureLoaded_restores m raw s :
  loaded m = false -> filesRequested = false ->
  truthy (editorStacks_model (storage m)) = Some raw ->
  parseModel raw = Some s -> doValidate s = 0 ->
  (forall i d, ser_groups s !! i = Some d ->
     exists g, deserialize (IDS m + i)%nat d = Returns g) ->
  exists m',
    ensureLoaded m = Returns (tt, m') /\ loaded m' = true
    /\ _groups m' = Some <$> seq (IDS m) (length (ser_groups s))
    /\ (forall i d, ser_groups s !! i = Some d ->
          exists g, heap m' !! (IDS m + i)%nat = Some g
                    /\ deserialize (IDS m + i)%nat d = Returns g
                    /\ groupToIdentifier m' !! (IDS m + i)%nat = Some (IDS m + i)%nat)
    /\ (ser_groups s = [] -> _activeGroup m' = None)
    /\ (ser_groups s <> [] ->
        exists a, ser_active s = Some (Z.of_nat a)
                  /\ (a < length (ser_groups s))%nat
                  /\ _activeGroup m' = Some (IDS m + a)%nat)
    /\ recentlyClosedEditors m' = default [] (ser_lastClosed s).
Proof. apply ensureLoaded_valid. Qed.

Lemma mapOutcome_throws {A B} (f : A -> Outcome B) (l : list A) x :
  x ∈ l -> f x = Throws -> (forall y, f y <> Unrepresented) ->
  Group.mapOutcome f l = Throws.
Proof.
  intros Hx Hfx Hf. induction l as [|y l IH]; [by apply elem_of_nil in Hx|].
  cbn [Group.mapOutcome]. destruct (f y) as [b| |] eqn:Hy; [|done|by destruct (Hf y)].
  apply elem_of_cons in Hx as [->|Hx]; [congruence|]. by rewrite IH.
Qed.

(** X22. When a stored group holds an editor whose type id has no factory
    and the stored groups before it deserialize, the first call of a
    method that loads throws: the valid stored model is not restored and
    the method does not return. *)
Theorem ensureLoaded_throws_without_factory m raw s i d se :
  loaded m = false -> filesRequested = false ->
  truthy (editorStacks_model (storage m)) = Some raw ->
  parseModel raw = Some s -> doValidate s = 0 ->
  ser_groups s !! i = Some d -> se ∈ ser_editors d ->
  getEditorInputFactory (ser_id se) = None ->
  (forall j d', (j < i)%nat -> ser_groups s !! j = Some d' ->
     exists g, deserialize (IDS m + j)%nat d' = Returns g) ->
  ensureLoaded m = Throws.
Proof.
  intros Hl Hfiles Hraw Hparse Hvalid Hi He Hf Hbefore.
  unfold Stacks.ensureLoaded. rewrite Hl. cbn [negb].
  unfold bind at 1. unfold update at 1. unfold Stacks.load.
  rewrite Hfiles. cbn [storage set_loaded]. rewrite Hraw, Hparse. cbv zeta.
  rewrite Hvalid. cbn [Z.eqb negb].
  assert (forall id, deserialize id d = Throws) as Hthrow.
  { intros id. unfold Group.deserialize.
    rewrite (mapOutcome_throws _ (ser_editors d) se); try done.
    - by rewrite Hf.
    - intros y. by destruct (getEditorInputFactory (ser_id y)). }
  assert (mapMM (fun s0 => doCreateGroup (inr s0)) (ser_groups s)
            (set_loaded true m) = Throws) as Hmap.
  { assert (IDS (set_loaded true m) = IDS m) as Hids by done.
    revert Hids Hi Hbefore. generalize (set_loaded true m).
    generalize (ser_groups s). clear Hvalid Hparse.
    intros ds. revert i. generalize (IDS m).
    induction ds as [|d0 ds IH]; intros n i m0 Hids Hi Hbefore; [done|].
    cbn [mapMM]. unfold bind at 1. unfold Stacks.doCreateGroup at 1. cbv zeta.
    destruct i as [|i].
    - simplify_eq/=. by rewrite Hthrow.
    - destruct (Hbefore 0%nat d0) as (g & Hg); [lia|done|].
      rewrite Nat.add_0_r, <- Hids in Hg. rewrite Hg.
      unfold bind. rewrite (IH (S n) i); try done.
      + cbn [IDS set_heap set_IDS]. by rewrite Hids.
      + intros j d' Hj Hd'.
        replace (S n + j)%nat with (n + S j)%nat by lia.
        apply Hbefore; [lia|done]. }
  unfold bind. by rewrite Hmap.
Qed.

(** ** Saving the model *)

Local Abbreviation serializeModel := (StacksSave.serialize getEditorInputFactory).

Lemma doValidate_zero s :
  ~ activeWithoutGroups s -> ~ activeNotAGroup s -> ~ tooManyGroups s ->
  ~ groupWithoutEditors s -> ~ mruOutOfSync s -> ~ previewOutOfRange s ->
  ~ emptyLabel s -> doValidate s = 0.
Proof.
  intros H1 H2 H3 H4 H5 H6 H7. unfold doValidate. cbv zeta.
  rewrite (proj1 (not_true_iff_false _)
             (fun c => H1 (proj1 (activeWithoutGroups_check s) c))).
  rewrite (proj1 (not_true_iff_false _)
             (fun c => H2 (proj1 (activeNotAGroup_check s) c))).
  rewrite (proj1 (not_true_iff_false _)
             (fun c => H3 (proj1 (tooManyGroups_check s) c))).
  rewrite (proj1 (not_true_iff_false _)
             (fun c => H4 (proj1 (groupWithoutEditors_check s) c))).
  rewrite (proj1 (not_true_iff_false _)
             (fun c => H5 (proj1 (mruOutOfSync_check s) c))).
  rewrite (proj1 (not_true_iff_false _)
             (fun c => H6 (proj1 (previewOutOfRange_check s) c))).
  rewrite (proj1 (not_true_iff_false _)
             (fun c => H7 (proj1 (emptyLabel_check s) c))).
  done.
Qed.

Lemma mapOutcome_returns {A B} (f : A -> Outcome B) (h : A -> B) (l : list A) :
  (forall x, x ∈ l -> f x = Returns (h x)) ->
  Group.mapOutcome f l = Returns (h <$> l).
Proof.
  induction l as [|x l IH]; intros Hf; [done|].
  cbn [Group.mapOutcome]. rewrite Hf by left.
  rewrite IH; [done|]. intros y Hy. apply Hf. by right.
Qed.

Lemma omap_Some {A} (l : list A) : omap id (Some <$> l) = l.
Proof. induction l as [|x l IH]; [done|]. cbn. by rewrite IH. Qed.

Lemma serialize_model_valid m ids :
  _groups m = Some <$> ids -> (length ids <= 3)%nat ->
  (forall id, id ∈ ids ->
     exists o, heap m !! id = Some o /\ group_ok o /\ label o <> "") ->
  (ids <> [] -> exists ag, _activeGroup m = Some ag /\ ag ∈ ids) ->
  exists s,
    serializeModel m = Returns s /\ doValidate s = 0
    /\ ser_lastClosed s = Some (recentlyClosedEditors m)
    /\ ser_groups s
       = Group.serialize getEditorInputFactory
         <$> stored_groups getEditorInputFactory m ids
    /\ (forall d, d ∈ ser_groups s <->
          ser_editors d <> []
          /\ exists id o, id ∈ ids /\ heap m !! id = Some o
                          /\ d = Group.serialize getEditorInputFactory o).
Proof.
  intros Hg Hlen Hs Hact.
  set (ser := fun id => match heap m !! id with
                        | Some o => Group.serialize getEditorInputFactory o
                        | None => Group.serialize getEditorInputFactory
                                    (Group.create id "x")
                        end).
  unfold StacksSave.serialize. rewrite Hg, omap_Some.
  rewrite (mapOutcome_returns _ ser ids).
  2:{ intros id Hid. destruct (Hs id Hid) as (o & Ho & _). unfold ser. by rewrite Ho. }
  cbv zeta. eexists. split; [reflexivity|].
  set (F := List.filter (fun g => (0 <? length (ser_editors g))%nat) (ser <$> ids)).
  assert (forall d, d ∈ F <->
            ser_editors d <> []
            /\ exists id o, id ∈ ids /\ heap m !! id = Some o
                            /\ d = Group.serialize getEditorInputFactory o) as HF.
  { intros d. unfold F. rewrite list_elem_of_In, List.filter_In, <- list_elem_of_In.
    rewrite list_elem_of_fmap. split.
    - intros [(id & -> & Hid) Hne]. split.
      + intros He. rewrite He in Hne. done.
      + destruct (Hs id Hid) as (o & Ho & _). exists id, o. unfold ser.
        by rewrite Ho.
    - intros [Hne (id & o & Hid & Ho & ->)]. split.
      + exists id. unfold ser. by rewrite Ho.
      + destruct (ser_editors _); [done|]. done. }
  assert (F = Group.serialize getEditorInputFactory
              <$> stored_groups getEditorInputFactory m ids) as Hstored.
  { unfold F, stored_groups. clear -Hs. induction ids as [|id ids IH]; [done|].
    destruct (Hs id) as (o & Ho & _); [left|].
    cbn [fmap list_fmap omap list_omap List.filter]. rewrite Ho.
    cbn [List.filter].
    assert ((0 <? length (ser_editors (ser id)))%nat
            = existsb (serializable getEditorInputFactory) (editors o)) as ->.
    { unfold ser. rewrite Ho, serialize_spec. cbn [ser_editors].
      rewrite length_serialized. clear.
      induction (editors o) as [|e l IHl]; [done|].
      cbn [List.filter existsb].
      destruct (serializable getEditorInputFactory e); [done|]. apply IHl. }
    assert (ser id = Group.serialize getEditorInputFactory o) as Hser
      by (unfold ser; by rewrite Ho).
    destruct (existsb _ _); cbn [fmap list_fmap]; rewrite ?Hser;
      (rewrite IH; [done|intros y Hy; apply Hs; by right]). }
  assert (length F <= length ids)%nat as HFlen.
  { unfold F. etrans; [apply List.filter_length_le|]. by rewrite length_fmap. }
  rewrite length_fmap.
  split_and!; [|done|exact Hstored|done].
  apply doValidate_zero.
  - intros [Hnil Hsome]. cbn [ser_groups ser_active] in *. fold F in Hnil, Hsome.
    rewrite Hnil in Hsome. by destruct Hsome.
  - intros [Hne Hnone]. cbn [ser_groups ser_active] in *. fold F in Hne, Hnone.
    destruct (Nat.ltb_spec 0 (length F)) as [Hpos|Hpos];
      [|destruct F; [done|cbn [length] in Hpos; lia]].
    destruct (Nat.eqb_spec (length F) (length ids)) as [Hall|Hsome].
    + destruct Hact as (ag & Ha & Hin). { intros ->. cbn [length] in *. lia. }
      cbn [mbind option_bind] in Hnone.
      apply list_elem_of_lookup in Hin as [i Hi].
      assert (exists j, indexOf m (Some ag) = Z.of_nat j /\ (j < length ids)%nat)
        as (j & Hj & Hjlt).
      { unfold indexOf, JS.indexOf. rewrite Hg.
        destruct (list_find _ _) as [[j y]|] eqn:Hf.
        - apply list_find_Some in Hf as (Hjy & _).
          apply lookup_lt_Some in Hjy. rewrite length_fmap in Hjy. by exists j.
        - apply list_find_None in Hf. rewrite Forall_forall in Hf.
          exfalso. apply (Hf (Some ag)); [|done].
          apply list_elem_of_fmap. exists ag. split; [done|].
          by eapply list_elem_of_lookup_2. }
      rewrite Ha, Hj, js_get_nat in Hnone.
      apply lookup_ge_None_1 in Hnone. lia.
    + cbn [mbind option_bind] in Hnone. change 0 with (Z.of_nat 0) in Hnone.
      rewrite js_get_nat in Hnone. apply lookup_ge_None_1 in Hnone. lia.
  - unfold tooManyGroups. cbn [ser_groups]. fold F. lia.
  - intros (d & Hd & He). cbn [ser_groups] in Hd. apply HF in Hd as [Hne _]. done.
  - intros (d & Hd & Hne). cbn [ser_groups] in Hd.
    apply HF in Hd as [_ (id & o & Hid & Ho & ->)].
    destruct (Hs id Hid) as (o' & Ho' & Hok & _).
    assert (o' = o) as -> by congruence.
    destruct (serialize_shape getEditorInputFactory o Hok) as (Hl & _). done.
  - intros (d & p & Hd & Hp & Hnone). cbn [ser_groups] in Hd.
    apply HF in Hd as [_ (id & o & Hid & Ho & ->)].
    destruct (Hs id Hid) as (o' & Ho' & Hok & _).
    assert (o' = o) as -> by congruence.
    destruct (serialize_shape getEditorInputFactory o Hok) as (_ & _ & Hpr & _).
    specialize (Hpr p Hp). rewrite js_get_in in Hnone by lia.
    apply lookup_ge_None_1 in Hnone. lia.
  - intros (d & Hd & Hlab). cbn [ser_groups] in Hd.
    apply HF in Hd as [_ (id & o & Hid & Ho & ->)].
    destruct (Hs id Hid) as (o' & Ho' & Hok & Hlabel).
    assert (o' = o) as -> by congruence.
    destruct (serialize_shape getEditorInputFactory o Hok) as (_ & _ & _ & _ & Hl).
    congruence.
Qed.

(** X23. What [serialize] of the model writes passes [doValidate], for a
    model of at most three groups that are all in the store, keep their
    invariant and have a label, with an active group of the list: the
    groups without serializable editor are left out, the active index is
    the position of the active group, or 0 when a group was left out, and
    the recently closed editors are stored as they are. *)
Theorem serialize_is_valid m ids :
  _groups m = Some <$> ids -> (length ids <= 3)%nat ->
  (forall id, id ∈ ids ->
     exists o, heap m !! id = Some o /\ group_ok o /\ label o <> "") ->
  (ids <> [] -> exists ag, _activeGroup m = Some ag /\ ag ∈ ids) ->
  exists s,
    serializeModel m = Returns s /\ doValidate s = 0
    /\ ser_lastClosed s = Some (recentlyClosedEditors m)
    /\ (forall d, d ∈ ser_groups s <->
          ser_editors d <> []
          /\ exists id o, id ∈ ids /\ heap m !! id = Some o
                          /\ d = Group.serialize getEditorInputFactory o).
Proof.
  intros Hg Hlen Hs Hact.
  destruct (serialize_model_valid m ids Hg Hlen Hs Hact)
    as (s & ? & ? & ? & _ & ?).
  by exists s.
Qed.

(** ** [closeGroups] *)

Lemma elem_of_delete_NoDup {A} (l : list A) i x y :
  NoDup l -> l !! i = Some x -> y ∈ delete i l <-> y ∈ l /\ y <> x.
Proof.
  intros Hnd Hi. rewrite delete_take_drop.
  rewrite <- (take_drop_middle l i x Hi) in Hnd at 1.
  apply NoDup_app in Hnd as (_ & Hnot & Hnd2). apply NoDup_cons in Hnd2 as [Hx _].
  rewrite <- (take_drop_middle l i x Hi) at 3.
  rewrite !elem_of_app, elem_of_cons. split.
  - intros [Hy|Hy].
    + split; [by left|]. intros ->. apply (Hnot x Hy). left.
    + split; [by right; right|]. by intros ->.
  - intros [[Hy|[->|Hy]] Hne]; [by left|done|by right].
Qed.

Lemma neighbour_head (l : list GroupIdentifier) i a :
  l !! i = Some a -> (length (delete i l) <= 1)%nat ->
  neighbour l i = head (delete i l).
Proof.
  intros Hi Hlen. unfold neighbour.
  destruct l as [|a0 [|a1 [|a2 l]]]; destruct i as [|[|i]];
    simplify_eq/=; try done; lia.
Qed.

Lemma kept_spec except ids (l : list GroupIdentifier) :
  NoDup l -> (forall y, y ∈ l <-> y ∈ ids /\ except = Some y) ->
  l = kept except ids.
Proof.
  intros Hnd Hl. unfold kept. destruct except as [x|].
  - case_bool_decide as Hx.
    + destruct l as [|y l].
      * exfalso. by apply (elem_of_nil x), Hl.
      * assert (y = x) as ->.
        { assert (y ∈ y :: l) as Hy by left. apply Hl in Hy as [_ Hy]. congruence. }
        destruct l as [|z l]; [done|]. exfalso.
        assert (z ∈ x :: z :: l) as Hz by (right; left).
        apply Hl in Hz as [_ Hz]. injection Hz as ->.
        apply NoDup_cons in Hnd as [Hnd _]. apply Hnd. left.
    + destruct l as [|y l]; [done|]. exfalso.
      assert (y ∈ y :: l) as Hy by left. apply Hl in Hy as [Hy Hy'].
      injection Hy' as ->. done.
  - destruct l as [|y l]; [done|]. exfalso.
    assert (y ∈ y :: l) as Hy by left. by apply Hl in Hy as [_ Hy].
Qed.

Lemma doCloseGroup_groups_ok m ids id :
  groups_ok m ids -> id ∈ ids ->
  exists m' ids',
    doCloseGroup getEditorInputFactory (Some id) m = Returns (tt, m')
    /\ groups_ok m' ids'
    /\ ids' `sublist_of` ids
    /\ (forall y, y ∈ ids' <-> y ∈ ids /\ y <> id)
    /\ (forall y, y <> id -> heap m' !! y = heap m !! y)
    /\ (exists o', heap m' !! id = Some o' /\ editors o' = [] /\ disposed o' = true)
    /\ (_activeGroup m <> Some id -> _activeGroup m' = _activeGroup m)
    /\ (_activeGroup m = Some id -> (length ids' <= 1)%nat ->
        _activeGroup m' = head ids').
Proof.
  intros (Hg & Hnd & Hs) Hin.
  apply list_elem_of_lookup in Hin as [i Hi].
  destruct (Hs id) as (o & Ho & Hok & Hact); [by eapply list_elem_of_lookup_2|].
  destruct (doCloseGroup_closes m ids id i o Hg Hnd Hi Ho Hok Hact)
    as (m' & Hrun & Hg' & _ & Hdisp & Hheap & Ha' & _).
  exists m', (delete i ids).
  pose proof (elem_of_delete_NoDup ids i id) as Hmem.
  split_and!; try done.
  - split_and!; [done|by eapply sublist_NoDup, sublist_delete|].
    intros y Hy. apply Hmem in Hy as [Hy Hne]; [|done..].
    rewrite Hheap by done. by apply Hs.
  - apply sublist_delete.
  - intros y. by apply Hmem.
  - intros Hne. rewrite Ha'. by rewrite bool_decide_false.
  - intros Hsame Hlen. rewrite Ha'. rewrite bool_decide_true by done.
    by apply (neighbour_head ids i id).
Qed.

Lemma forEach_doCloseGroup (L : list GroupIdentifier) : forall m ids,
  groups_ok m ids -> NoDup L -> (forall x, x ∈ L -> x ∈ ids) ->
  (forall x, x ∈ L -> _activeGroup m <> Some x) ->
  exists m' ids',
    forEachMM (fun g => doCloseGroup getEditorInputFactory (Some g)) L m
    = Returns (tt, m')
    /\ groups_ok m' ids' /\ ids' `sublist_of` ids
    /\ (forall y, y ∈ ids' <-> y ∈ ids /\ y ∉ L)
    /\ _activeGroup m' = _activeGroup m
    /\ (forall y, y ∉ L -> heap m' !! y = heap m !! y)
    /\ (forall y, y ∈ L ->
          exists o', heap m' !! y = Some o' /\ editors o' = [] /\ disposed o' = true).
Proof.
  induction L as [|x L IH]; intros m ids Hok HndL Hsub Hna.
  - exists m, ids. cbn [forEachMM]. split_and!; try done.
    + intros y. split; [|by intros [? _]]. intros Hy. split; [done|].
      apply not_elem_of_nil.
    + intros y Hy. by apply elem_of_nil in Hy.
  - apply NoDup_cons in HndL as [HxL HndL].
    destruct (doCloseGroup_groups_ok m ids x Hok) as
      (m1 & ids1 & Hrun & Hok1 & Hsub1 & Hmem1 & Hheap1 & Hdisp1 & Ha1 & _).
    { apply Hsub. left. }
    assert (_activeGroup m1 = _activeGroup m) as Hact1.
    { apply Ha1, Hna. left. }
    destruct (IH m1 ids1 Hok1 HndL) as
      (m' & ids' & Hrun' & Hok' & Hsub' & Hmem' & Ha' & Hheap' & Hdisp').
    { intros y Hy. apply Hmem1. split; [apply Hsub; by right|].
      intros ->. done. }
    { intros y Hy. rewrite Hact1. apply Hna. by right. }
    exists m', ids'. cbn [forEachMM]. unfold bind. rewrite Hrun.
    split_and!; try done.
    + by etrans.
    + intros y. rewrite Hmem', Hmem1, not_elem_of_cons. tauto.
    + by rewrite Ha'.
    + intros y Hy. apply not_elem_of_cons in Hy as [Hne Hy].
      rewrite Hheap' by done. by apply Hheap1.
    + intros y Hy. apply elem_of_cons in Hy as [->|Hy]; [|by apply Hdisp'].
      by rewrite Hheap'.
Qed.

Lemma List_filter_elem {A} (f : A -> bool) (l : list A) x :
  x ∈ List.filter f l <-> x ∈ l /\ f x = true.
Proof. by rewrite !list_elem_of_In, List.filter_In. Qed.

Lemma List_filter_NoDup {A} (f : A -> bool) (l : list A) :
  NoDup l -> NoDup (List.filter f l).
Proof. rewrite !NoDup_ListNoDup. apply List.NoDup_filter. Qed.

(** X24. [closeGroups] closes every group of the list except the given
    one: each closed group ends disposed and without editors, the list
    holds the excepted group alone, or nothing, and that group is the
    active group afterwards, or no group is. *)
Theorem closeGroups_leaves_except m ids ag except :
  loaded m = true -> groups_ok m ids -> _activeGroup m = Some ag -> ag ∈ ids ->
  exists m',
    closeGroups getEditorInputFactory CONFIG_OPEN_EDITOR_DIRECTION parseModel
      parseLegacyEditors filesRequested except m = Returns (tt, m')
    /\ _groups m' = Some <$> kept except ids
    /\ _activeGroup m' = head (kept except ids)
    /\ (forall id, id ∈ ids -> except <> Some id ->
          exists o', heap m' !! id = Some o' /\ editors o' = []
                     /\ disposed o' = true)
    /\ (forall id, except = Some id -> heap m' !! id = heap m !! id).
Proof.
  intros Hl Hok Ha Hag. unfold closeGroups. unfold bind at 1.
  rewrite ensureLoaded_loaded by done. unfold bind at 1.
  pose proof Hok as (Hg & Hnd & Hs).
  rewrite Hg, omap_Some, Ha.
  set (L := List.filter _ ids).
  assert (forall y, y ∈ L <-> y ∈ ids /\ y <> ag /\ except <> Some y) as HL.
  { intros y. unfold L. rewrite List_filter_elem, andb_true_iff, !negb_true_iff,
      !bool_decide_eq_false. split; intros (? & ? & ?); split_and!; congruence. }
  destruct (forEach_doCloseGroup L m ids Hok) as
    (m1 & ids1 & -> & Hok1 & Hsub1 & Hmem1 & Ha1 & Hheap1 & Hdisp1).
  { by apply List_filter_NoDup. }
  { intros y Hy. by apply HL in Hy as [? _]. }
  { intros y Hy. apply HL in Hy as (_ & Hne & _). rewrite Ha. congruence. }
  rewrite Ha1, Ha.
  assert (NoDup ids1) as Hnd1 by apply Hok1.
  case_bool_decide as Hex; cbn [negb].
  - (* the active group is the excepted one *)
    exists m1. unfold ret. split; [done|].
    assert (ids1 = kept except ids) as Hkept.
    { apply kept_spec; [done|]. intros y. rewrite Hmem1, HL. split.
      - intros [Hy Hn]. split; [done|].
        destruct (decide (y = ag)) as [->|Hne]; [done|].
        destruct (decide (except = Some y)) as [?|Hne']; [done|].
        destruct Hn. done.
      - intros [Hy ->]. split; [done|]. intros (_ & _ & Hn). done. }
    destruct Hok1 as (Hg1 & _ & _). split_and!.
    + by rewrite Hg1, Hkept.
    + rewrite Ha1, Ha, Hex. unfold kept. rewrite <- Hex.
      by rewrite bool_decide_true.
    + intros id Hid Hne. apply Hdisp1, HL. split_and!; try done. congruence.
    + intros id ->. apply Hheap1. rewrite HL. intros (_ & _ & Hn). done.
  - (* the active group is closed last *)
    assert (ag ∈ ids1) as Hag1.
    { apply Hmem1. split; [done|]. rewrite HL. intros (_ & Hn & _). done. }
    destruct (doCloseGroup_groups_ok m1 ids1 ag Hok1 Hag1) as
      (m2 & ids2 & -> & Hok2 & Hsub2 & Hmem2 & Hheap2 & Hdisp2 & _ & Ha2).
    assert (ids2 = kept except ids) as Hkept.
    { apply kept_spec; [apply Hok2|]. intros y. rewrite Hmem2, Hmem1, HL. split.
      - intros [[Hy Hn] Hne]. split; [done|].
        destruct (decide (except = Some y)) as [?|Hne']; [done|].
        destruct Hn. done.
      - intros [Hy ->]. split_and!; try done.
        + intros (_ & _ & Hn). done.
        + intros ->. done. }
    exists m2. split; [done|].
    destruct Hok2 as (Hg2 & _ & _). rewrite <- Hkept. split_and!; try done.
    + apply Ha2; [by rewrite Ha1|].
      rewrite Hkept. unfold kept.
      destruct except; [case_bool_decide|]; cbn [length]; lia.
    + intros id Hid Hne. destruct (decide (id = ag)) as [->|Hna]; [done|].
      rewrite Hheap2 by done. apply Hdisp1, HL. done.
    + intros id ->. rewrite Hheap2 by congruence.
      apply Hheap1. rewrite HL. intros (_ & _ & Hn). done.
Qed.

(** ** The migration of the legacy state *)

Local Abbreviation migrateGroup :=
  (Stacks.migrateGroup getEditorInputFactory CONFIG_OPEN_EDITOR_DIRECTION).

Lemma openEditor_first dir e id :
  fst (openEditor dir e
         (Some {| opt_pinned := None; opt_active := Some true; opt_index := None |})
         (Group.create id ""))
  = migrated id e
  /\ forallb (fun f => negb (isClose f))
       (snd (openEditor dir e
               (Some {| opt_pinned := None; opt_active := Some true;
                        opt_index := None |})
               (Group.create id ""))) = true.
Proof.
  pose proof (matches_refl e) as Hr.
  destruct dir; split; cbv - [input_matches];
    destruct (input_matches e e); (reflexivity || discriminate).
Qed.

Lemma inGroup_quiet id c m g :
  heap m !! id = Some g ->
  forallb (fun f => negb (isClose f)) (snd (c g)) = true ->
  exists m', inGroup id c m = Returns (tt, m')
    /\ frame m m' /\ heap m' = <[id := fst (c g)]> (heap m)
    /\ recentlyClosedEditors m' = recentlyClosedEditors m.
Proof.
  intros Hg Hq. unfold Stacks.inGroup. rewrite Hg. cbv zeta.
  eexists. split; [reflexivity|].
  pose proof (fold_deliver_frame id (snd (c g)) m) as Hf.
  pose proof (fold_deliver_recentlyClosed id (snd (c g)) m Hq) as Hrc.
  destruct (deliver_heap getEditorInputFactory id (snd (c g)) m g Hg)
    as (g1 & Hg1 & Hdel).
  set (m1 := fold_left _ _ m) in *. clearbody m1.
  split_and!.
  - eapply frame_trans; [exact Hf|]. by repeat split.
  - cbn [heap set_heap].
    by rewrite <- (insert_delete_eq (heap m1)), Hdel, insert_delete_eq.
  - done.
Qed.

Lemma migrateGroup_opens m ids (l : list E) i e :
  _groups m = Some <$> ids -> NoDup ids -> _activeGroup m = last ids ->
  l !! i = Some e ->
  exists m',
    migrateGroup l i m = Returns (tt, m')
    /\ _groups m' = Some <$> (ids ++ [IDS m])
    /\ _activeGroup m' = Some (IDS m) /\ IDS m' = S (IDS m)
    /\ heap m' = <[IDS m := migrated (IDS m) e]> (heap m)
    /\ storage m' = storage m /\ loaded m' = loaded m
    /\ recentlyClosedEditors m' = recentlyClosedEditors m.
Proof.
  intros Hg Hnd Ha He. unfold Stacks.migrateGroup. rewrite He. unfold bind.
  destruct (doOpenGroup_beside m ids "" (Some true) Hg Hnd)
    as (m1 & -> & Hh1 & _ & Hids1 & Hst1 & Hl1 & Hrc1 & Hnone & Hsome & _ & Hact).
  assert (heap m1 !! IDS m = Some (Group.create (IDS m) "")) as Hnew
    by by rewrite Hh1, lookup_insert_eq.
  destruct (openEditor_first CONFIG_OPEN_EDITOR_DIRECTION e (IDS m)) as [Hfst Hquiet].
  destruct (inGroup_quiet (IDS m) _ m1 _ Hnew Hquiet)
    as (m2 & -> & (Hg2 & Ha2 & _ & Hl2 & Hids2 & Hst2) & Hh2 & Hrc2).
  exists m2. split; [done|]. rewrite Hg2, Ha2, Hids2, Hh2, Hst2, Hl2, Hrc2, Hfst.
  rewrite Hh1, insert_insert_eq.
  split_and!; try done.
  - destruct (_activeGroup m) as [a|] eqn:Hag.
    + symmetry in Ha. rewrite last_lookup in Ha.
      pose proof (lookup_lt_Some _ _ _ Ha).
      rewrite (Hsome a _ eq_refl Ha), take_ge, drop_ge by lia. done.
    + destruct (Hnone eq_refl) as [-> _]. done.
  - destruct (_activeGroup m) as [a|] eqn:Hag.
    + by rewrite (Hact a eq_refl).
    + by destruct (Hnone eq_refl) as [_ ->].
Qed.

Lemma migrateGroup_none m (l : list E) i :
  l !! i = None -> migrateGroup l i m = Returns (tt, m).
Proof. intros He. unfold Stacks.migrateGroup. by rewrite He. Qed.

(** X25. Without stored model, the first call of a method that loads
    migrates the legacy state: it opens one group for each of the first
    three legacy editors, in their order and with the ids that follow the
    counter, each with its editor alone as the preview and the active
    editor. The last of these groups is active and the legacy state is
    removed from the storage. *)
Theorem ensureLoaded_migrates m raw editorsRaw l :
  loaded m = false -> filesRequested = false ->
  truthy (editorStacks_model (storage m)) = None ->
  truthy (legacy_memento (storage m)) = Some raw ->
  parseLegacyEditors raw = Some editorsRaw ->
  Forall2 (fun r e => exists factory,
             getEditorInputFactory (ser_id r) = Some factory
             /\ e = factory_deserialize factory (ser_value r)) editorsRaw l ->
  _groups m = [] -> _activeGroup m = None ->
  exists m',
    ensureLoaded m = Returns (tt, m') /\ loaded m' = true
    /\ _groups m' = Some <$> seq (IDS m) (Nat.min 3 (length l))
    /\ (forall i e, (i < 3)%nat -> l !! i = Some e ->
          heap m' !! (IDS m + i)%nat = Some (migrated (IDS m + i)%nat e))
    /\ _activeGroup m' = last (seq (IDS m) (Nat.min 3 (length l)))
    /\ legacy_memento (storage m') = None
    /\ recentlyClosedEditors m' = recentlyClosedEditors m.
Proof.
  intros Hl Hfiles Hnew Hraw Hparse Hall Hg Ha.
  unfold Stacks.ensureLoaded. rewrite Hl. cbn [negb].
  unfold bind at 1. unfold update at 1. unfold Stacks.load.
  rewrite Hfiles. cbn [storage set_loaded]. rewrite Hnew.
  unfold Stacks.migrate. cbn [storage set_loaded]. rewrite Hraw. cbv zeta.
  rewrite Hparse.
  assert (Group.mapOutcome
            (fun r => match getEditorInputFactory (ser_id r) with
                      | Some factory =>
                          Returns (factory_deserialize factory (ser_value r))
                      | None => Throws
                      end) editorsRaw = Returns l) as ->.
  { clear Hparse. induction Hall as [|r e rs es (f & Hf & ->) _ IH]; [done|].
    cbn [Group.mapOutcome]. rewrite Hf. by rewrite IH. }
  set (m0 := set_loaded true m).
  assert (_groups m0 = Some <$> []) as Hg0 by done.
  assert (_activeGroup m0 = last (@nil GroupIdentifier)) as Ha0 by done.
  assert (IDS m0 = IDS m) as Hids0 by done.
  assert (heap m0 = heap m) as Hh0 by done.
  assert (recentlyClosedEditors m0 = recentlyClosedEditors m) as Hrc0 by done.
  assert (loaded m0 = true) as Hl0 by done.
  clearbody m0.
  destruct l as [|e0 l].
  { (* no legacy editor *)
    unfold bind. rewrite !migrateGroup_none by done. unfold update.
    eexists. split; [reflexivity|]. cbn [Nat.min length seq].
    split_and!; try done. }
  destruct (migrateGroup_opens m0 [] (e0 :: l) 0 e0 Hg0 (NoDup_nil_2) Ha0 eq_refl)
    as (m1 & Hrun1 & Hg1 & Ha1 & Hids1 & Hh1 & Hst1 & Hl1 & Hrc1).
  unfold bind at 1. rewrite Hrun1. cbn [app] in Hg1.
  destruct l as [|e1 l].
  { unfold bind. rewrite !migrateGroup_none by done. unfold update.
    eexists. split; [reflexivity|]. cbn [Nat.min length seq].
    cbn [_groups heap _activeGroup loaded storage recentlyClosedEditors
         set_storage legacy_memento].
    rewrite Hg1, Ha1, Hh1, Hl1, Hrc1, Hids0. split_and!; try done.
    intros [|i] e Hi He; simplify_eq/=.
    by rewrite Nat.add_0_r, lookup_insert_eq. }
  destruct (migrateGroup_opens m1 [IDS m0] (e0 :: e1 :: l) 1 e1 Hg1)
    as (m2 & Hrun2 & Hg2 & Ha2 & Hids2 & Hh2 & Hst2 & Hl2 & Hrc2);
    [apply NoDup_singleton|by rewrite Ha1|done|].
  unfold bind at 1. rewrite Hrun2. cbn [app] in Hg2.
  destruct l as [|e2 l].
  { unfold bind. rewrite !migrateGroup_none by done. unfold update.
    eexists. split; [reflexivity|]. cbn [Nat.min length seq].
    cbn [_groups heap _activeGroup loaded storage recentlyClosedEditors
         set_storage legacy_memento].
    rewrite Hg2, Ha2, Hh2, Hh1, Hl2, Hl1, Hrc2, Hrc1, Hids1, Hids0.
    split_and!; try done.
    intros [|[|i]] e Hi He; simplify_eq/=.
    - rewrite Nat.add_0_r, lookup_insert_ne by lia. by rewrite lookup_insert_eq.
    - rewrite Nat.add_1_r. by rewrite lookup_insert_eq. }
  destruct (migrateGroup_opens m2 [IDS m0; IDS m1] (e0 :: e1 :: e2 :: l) 2 e2 Hg2)
    as (m3 & Hrun3 & Hg3 & Ha3 & Hids3 & Hh3 & Hst3 & Hl3 & Hrc3).
  { apply NoDup_cons. split; [|apply NoDup_singleton].
    rewrite list_elem_of_singleton. lia. }
  { by rewrite Ha2. }
  { done. }
  unfold bind at 1. rewrite Hrun3. cbn [app] in Hg3. unfold update.
  eexists. split; [reflexivity|].
  replace (Nat.min 3 (length (e0 :: e1 :: e2 :: l))) with 3%nat
    by (cbn [length]; lia).
  cbn [seq].
  cbn [_groups heap _activeGroup loaded storage recentlyClosedEditors
       set_storage legacy_memento].
  rewrite Hg3, Ha3, Hh3, Hh2, Hh1, Hl3, Hl2, Hl1, Hrc3, Hrc2, Hrc1, Hids2, Hids1,
    Hids0.
  split_and!; try done.
  intros [|[|[|i]]] e Hi He; simplify_eq/=; try lia.
  - rewrite Nat.add_0_r, !lookup_insert_ne by lia. by rewrite lookup_insert_eq.
  - rewrite Nat.add_1_r, lookup_insert_ne by lia. by rewrite lookup_insert_eq.
  - replace (IDS m + 2)%nat with (S (S (IDS m))) by lia.
    by rewrite lookup_insert_eq.
Qed.

(** X26. When the legacy state does not parse, or names a type id without
    factory, the first call of a method that loads returns all the same:
    the error is caught, the model is reset to no group, no active group,
    an empty table of groups and no recently closed editor, and the
    legacy state stays in the storage. *)
Theorem ensureLoaded_resets_on_failed_migration m raw :
  loaded m = false -> filesRequested = false ->
  truthy (editorStacks_model (storage m)) = None ->
  truthy (legacy_memento (storage m)) = Some raw ->
  (parseLegacyEditors raw = None
   \/ exists editorsRaw r,
        parseLegacyEditors raw = Some editorsRaw /\ r ∈ editorsRaw
        /\ getEditorInputFactory (ser_id r) = None) ->
  exists m',
    ensureLoaded m = Returns (tt, m') /\ loaded m' = true
    /\ _groups m' = [] /\ _activeGroup m' = None /\ groupToIdentifier m' = ∅
    /\ recentlyClosedEditors m' = [] /\ storage m' = storage m
    /\ heap m' = heap m /\ IDS m' = IDS m.
Proof.
  intros Hl Hfiles Hnew Hraw Hfail.
  unfold Stacks.ensureLoaded. rewrite Hl. cbn [negb].
  unfold bind at 1. unfold update at 1. unfold Stacks.load.
  rewrite Hfiles. cbn [storage set_loaded]. rewrite Hnew.
  unfold Stacks.migrate. cbn [storage set_loaded]. rewrite Hraw. cbv zeta.
  destruct Hfail as [->|(editorsRaw & r & -> & Hr & Hf)].
  - unfold throw. eexists. split; [reflexivity|]. done.
  - rewrite (mapOutcome_throws _ editorsRaw r); try done.
    + unfold throw. eexists. split; [reflexivity|]. done.
    + by rewrite Hf.
    + intros y. by destruct (getEditorInputFactory (ser_id y)).
Qed.

(** ** Saving and loading again *)

Section Save.
Variable stringify : ISerializedEditorStacksModel -> string.

Local Abbreviation save := (StacksSave.save getEditorInputFactory stringify).

Lemma serialized_group_deserializes g id :
  factories_round_trip getEditorInputFactory ->
  exists g',
    deserialize id (Group.serialize getEditorInputFactory g) = Returns g'
    /\ label g' = label g
    /\ Forall2 same_input (editors g')
         (List.filter (serializable getEditorInputFactory) (editors g)).
Proof.
  intros Hrt. rewrite serialize_spec. unfold Group.deserialize.
  cbn [ser_editors ser_mru ser_preview ser_label].
  destruct (mapOutcome_editors getEditorInputFactory (editors g) Hrt)
    as (eds & -> & Heds).
  destruct (mapOutcome_mru eds _ (mru g) Heds) as (m' & -> & Hm').
  eexists. split; [done|]. done.
Qed.

(** X27. What [save] stores is what the next session loads. For a model
    of at most three labelled groups with an active group, [save] puts
    the serialized model into the storage, and a new model on that
    storage restores, at its first use, one group for each group that has
    a serializable editor, in the same order: with the same label and
    with the serializable editors of the group, up to [matches]. The
    recently closed editors are restored as they were. *)
Theorem save_then_load m ids :
  factories_round_trip getEditorInputFactory -> filesRequested = false ->
  (forall s, serializeModel m = Returns s ->
     stringify s <> "" /\ parseModel (stringify s) = Some s) ->
  _groups m = Some <$> ids -> (length ids <= 3)%nat ->
  (forall id, id ∈ ids ->
     exists o, heap m !! id = Some o /\ group_ok o /\ label o <> "") ->
  (ids <> [] -> exists ag, _activeGroup m = Some ag /\ ag ∈ ids) ->
  exists m1,
    save m = Returns (tt, m1)
    /\ forall m0, loaded m0 = false -> storage m0 = storage m1 ->
       exists m',
         ensureLoaded m0 = Returns (tt, m')
         /\ recentlyClosedEditors m' = recentlyClosedEditors m
         /\ _groups m'
            = Some <$> seq (IDS m0)
                         (length (stored_groups getEditorInputFactory m ids))
         /\ forall i o,
              stored_groups getEditorInputFactory m ids !! i = Some o ->
              exists g', heap m' !! (IDS m0 + i)%nat = Some g'
                         /\ label g' = label o
                         /\ Forall2 same_input (editors g')
                              (List.filter (serializable getEditorInputFactory)
                                 (editors o)).
Proof.
  intros Hrt Hfiles Hjson Hg Hlen Hs Hact.
  destruct (serialize_model_valid m ids Hg Hlen Hs Hact)
    as (s & Hser & Hvalid & Hlast & Hgroups & _).
  destruct (Hjson s Hser) as [Hne Hparse].
  unfold StacksSave.save. rewrite Hser. eexists. split; [reflexivity|].
  intros m0 Hl0 Hst0.
  assert (truthy (editorStacks_model (storage m0)) = Some (stringify s)) as Hraw.
  { rewrite Hst0. cbn [storage set_storage editorStacks_model]. unfold truthy.
    destruct (String.eqb_spec (stringify s) ""); done. }
  destruct (ensureLoaded_valid m0 (stringify s) s Hl0 Hfiles Hraw Hparse Hvalid)
    as (m' & Hrun & _ & Hg' & Hheap & _ & _ & Hrc).
  { intros i d Hd. rewrite Hgroups, list_lookup_fmap in Hd.
    destruct (stored_groups getEditorInputFactory m ids !! i) as [o|]; [|done].
    injection Hd as <-.
    destruct (serialized_group_deserializes o (IDS m0 + i)%nat Hrt) as (g' & Hg'' & _).
    by exists g'. }
  exists m'. split_and!; try done.
  - by rewrite Hrc, Hlast.
  - by rewrite Hg', Hgroups, length_fmap.
  - intros i o Ho.
    destruct (Hheap i (Group.serialize getEditorInputFactory o))
      as (g' & Hg1 & Hd & _).
    { by rewrite Hgroups, list_lookup_fmap, Ho. }
    destruct (serialized_group_deserializes o (IDS m0 + i)%nat Hrt)
      as (g'' & Hd' & Hlab & Heds).
    assert (g'' = g') as -> by congruence.
    by exists g'.
Qed.

End Save.

(** ** The ring of [next] and [previous] *)












End WithInputs.
End StacksMore.

(** ** More of the group on concrete editors *)

Module GroupMoreChecks.
Import Group GroupProps GroupFacts Sample GroupChecks GroupMore.

Example threeEditors_state :
  editors threeEditors = [A; B; C] /\ mru threeEditors = [A; C; B]
  /\ preview threeEditors = Some B /\ active threeEditors = Some A.
Proof. by vm_compute. Qed.

Lemma closeEditor_removes_witness :
  exists i y,
    editors threeEditors !! i = Some y /\ input_matches y B = true
    /\ editors (fst (closeEditor (Some B) true threeEditors))
       = delete i (editors threeEditors)
    /\ countM B (editors (fst (closeEditor (Some B) true threeEditors))) = 0%nat
    /\ countM B (mru (fst (closeEditor (Some B) true threeEditors))) = 0%nat.
Proof.
  apply (closeEditor_removes B true threeEditors).
  - exact threeEditors_ok.
  - vm_compute. discriminate.
Defined.

Lemma closeEditor_active_next_witness :
  active (fst (closeEditor (Some A) true threeEditors)) = Some C
  /\ head (mru (fst (closeEditor (Some A) true threeEditors))) = Some C.
Proof.
  apply (closeEditor_active_next A A threeEditors).
  - exact threeEditors_ok.
  - exact threeEditors_active_ok.
  - reflexivity.
  - reflexivity.
Defined.

Lemma openEditor_position_witness :
  editors (fst (openEditor RIGHT D pinnedOption threeEditors))
  = take (Z.to_nat (0 + 1)) (editors threeEditors)
    ++ D :: drop (Z.to_nat (0 + 1)) (editors threeEditors).
Proof.
  apply (openEditor_position RIGHT D pinnedOption threeEditors 0).
  - reflexivity.
  - reflexivity.
  - reflexivity.
  - reflexivity.
Defined.

(** With the direction [LEFT] and the active editor first, a pinned [D]
    opens first. *)
Example open_pinned_left_of_first :
  editors (fst (openEditor LEFT D pinnedOption threeEditors)) = [D; A; B; C].
Proof. reflexivity. Qed.

Lemma openEditor_existing_editors_witness :
  length (editors (fst (openEditor RIGHT B pinnedOption threeEditors)))
  = length (editors threeEditors)
  /\ (pinnedOption ≫= opt_index = None ->
      editors (fst (openEditor RIGHT B pinnedOption threeEditors))
      = editors threeEditors).
Proof.
  apply (openEditor_existing_editors RIGHT B pinnedOption threeEditors).
  vm_compute. discriminate.
Defined.

Lemma setActive_promotes_witness :
  exists j y,
    mru threeEditors !! j = Some y /\ input_matches y C = true
    /\ fst (setActive (Some C) threeEditors)
       = set_mru (C :: delete j (mru threeEditors))
           (set_active (Some C) threeEditors)
    /\ fst <$> snd (setActive (Some C) threeEditors)
       = [EditorActivated C; EditorChanged C].
Proof.
  apply (setActive_promotes C threeEditors).
  - exact threeEditors_ok.
  - reflexivity.
  - vm_compute. discriminate.
  - reflexivity.
Defined.

Lemma moveEditor_position_witness :
  editors (fst (moveEditor (Some A) 2 threeEditors))
    !! Nat.min (Z.to_nat 2) (length (editors threeEditors) - 1) = Some A
  /\ length (editors (fst (moveEditor (Some A) 2 threeEditors)))
     = length (editors threeEditors)
  /\ (forall x, countM x (editors (fst (moveEditor (Some A) 2 threeEditors)))
                = countM x (editors threeEditors))
  /\ mru (fst (moveEditor (Some A) 2 threeEditors)) = mru threeEditors
  /\ active (fst (moveEditor (Some A) 2 threeEditors)) = active threeEditors
  /\ preview (fst (moveEditor (Some A) 2 threeEditors)) = preview threeEditors.
Proof.
  apply (moveEditor_position A 2 threeEditors).
  - vm_compute. discriminate.
  - lia.
Defined.

Lemma pin_unpin_inverse_witness :
  (preview threeEditors = Some B ->
   fst (unpin (Some B) (fst (pin (Some B) threeEditors))) = threeEditors)
  /\ (preview threeEditors = None ->
      fst (pin (Some B) (fst (unpin (Some B) threeEditors))) = threeEditors).
Proof.
  apply (pin_unpin_inverse B threeEditors). vm_compute. discriminate.
Defined.

Lemma pinned_or_preview_witness :
  (indexOf (Some B) (editors threeEditors) <> -1 ->
   isPinned threeEditors (Some B) = negb (isPreview threeEditors (Some B)))
  /\ (indexOf (Some B) (editors threeEditors) = -1 ->
      isPinned threeEditors (Some B) = false
      /\ isPreview threeEditors (Some B) = false).
Proof. apply (pinned_or_preview B threeEditors). exact threeEditors_ok. Defined.

Lemma closeAllEditors_empties_witness :
  editors (fst (closeAllEditors threeEditors)) = []
  /\ mru (fst (closeAllEditors threeEditors)) = []
  /\ preview (fst (closeAllEditors threeEditors)) = None
  /\ active (fst (closeAllEditors threeEditors)) = None.
Proof.
  apply (closeAllEditors_empties threeEditors).
  - exact threeEditors_ok.
  - exact threeEditors_active_ok.
Defined.

Lemma closeEditors_others_witness :
  exists y,
    editors (fst (closeEditors (Some B) None threeEditors)) = [y]
    /\ y ∈ editors threeEditors /\ input_matches y B = true
    /\ length (mru (fst (closeEditors (Some B) None threeEditors))) = 1%nat.
Proof.
  apply (closeEditors_others B threeEditors).
  - exact threeEditors_ok.
  - vm_compute. discriminate.
Defined.

Lemma closeEditors_direction_witness :
  editors (fst (closeEditors (Some B) (Some LEFT) threeEditors))
  = drop (Z.to_nat (indexOf (Some B) (editors threeEditors))) (editors threeEditors).
Proof.
  apply (closeEditors_direction B LEFT threeEditors).
  - exact threeEditors_ok.
  - vm_compute. discriminate.
Defined.

(** Closing to the left of [B] leaves [B, C], closing to the right of [B]
    leaves [A, B]. *)
Example closeEditors_of_three :
  editors (fst (closeEditors (Some B) (Some LEFT) threeEditors)) = [B; C]
  /\ editors (fst (closeEditors (Some B) (Some RIGHT) threeEditors)) = [A; B].
Proof. by vm_compute. Qed.

Lemma serialize_consistent_witness :
  let s := serialize registry threeEditors in
  length (ser_mru s) = length (ser_editors s)
  /\ Forall (fun i => 0 <= i < Z.of_nat (length (ser_editors s))) (ser_mru s)
  /\ (forall p, ser_preview s = Some p ->
                0 <= p < Z.of_nat (length (ser_editors s)))
  /\ length (ser_editors s)
     = length (List.filter (serializable registry) (editors threeEditors))
  /\ ser_label s = label threeEditors.
Proof. apply (serialize_consistent registry threeEditors). exact threeEditors_ok. Defined.

End GroupMoreChecks.

(** ** More of the model on concrete editors *)

Module StacksMoreChecks.
Import Group GroupProps GroupFacts Stacks StacksProps StacksFacts Sample
  GroupChecks StacksChecks StacksMoreProps StacksMore.

(** The second group of [twoGroups]. *)
Definition secondGroup : EditorGroup TestInput :=
  fst (openEditor RIGHT B pinnedOption
         (fst (openEditor RIGHT A pinnedOption (Group.create 1%nat "two")))).

Lemma firstGroup_ok : group_ok firstGroup /\ active_ok firstGroup.
Proof.
  split.
  - apply openEditor_ok, create_ok.
  - apply openEditor_active_ok; [apply create_ok|apply create_active_ok].
Qed.

Lemma secondGroup_ok : group_ok secondGroup /\ active_ok secondGroup.
Proof.
  assert (group_ok (fst (openEditor RIGHT A pinnedOption (Group.create 1%nat "two")))
          /\ active_ok (fst (openEditor RIGHT A pinnedOption
                               (Group.create 1%nat "two")))) as [Hok Hact].
  { split.
    - apply openEditor_ok, create_ok.
    - apply openEditor_active_ok; [apply create_ok|apply create_active_ok]. }
  split.
  - by apply openEditor_ok.
  - by apply openEditor_active_ok.
Qed.

Lemma twoGroups_heap :
  heap twoGroups !! 0%nat = Some firstGroup
  /\ heap twoGroups !! 1%nat = Some secondGroup.
Proof. split; vm_compute; reflexivity. Qed.

Lemma twoGroups_list : _groups twoGroups = Some <$> [0%nat; 1%nat].
Proof. vm_compute. reflexivity. Qed.

Lemma two_distinct : NoDup [0%nat; 1%nat].
Proof.
  apply NoDup_cons. split; [|apply NoDup_singleton].
  rewrite list_elem_of_singleton. discriminate.
Qed.

Lemma twoGroups_groups_ok : groups_ok twoGroups [0%nat; 1%nat].
Proof.
  split_and!; [exact twoGroups_list|exact two_distinct|].
  intros id Hid. apply elem_of_cons in Hid as [->|Hid].
  - exists firstGroup. split; [apply twoGroups_heap|apply firstGroup_ok].
  - apply list_elem_of_singleton in Hid as ->.
    exists secondGroup. split; [apply twoGroups_heap|apply secondGroup_ok].
Qed.

Lemma twoGroups_sound : model_sound twoGroups [0%nat; 1%nat].
Proof.
  split; [reflexivity|exact twoGroups_list|exact two_distinct|].
  intros id Hid. apply elem_of_cons in Hid as [->|Hid].
  - exists firstGroup. split_and!; [apply twoGroups_heap|apply firstGroup_ok..|].
    by vm_compute.
  - apply list_elem_of_singleton in Hid as ->.
    exists secondGroup. split_and!; [apply twoGroups_heap|apply secondGroup_ok..|].
    by vm_compute.
Qed.

Lemma closeGroup_closes_witness :
  exists m',
    Stacks.closeGroup registry RIGHT parseNothing parseNothing false (Some 0%nat)
      twoGroups = Returns (tt, m')
    /\ _groups m' = Some <$> delete 0%nat [0%nat; 1%nat]
    /\ _activeGroup m' <> Some 0%nat.
Proof.
  destruct (closeGroup_closes registry RIGHT parseNothing parseNothing false
              twoGroups [0%nat; 1%nat] 0%nat 0%nat firstGroup)
    as (m' & Hrun & Hg & _ & _ & _ & _ & Hna & _).
  - reflexivity.
  - exact twoGroups_list.
  - exact two_distinct.
  - reflexivity.
  - apply twoGroups_heap.
  - apply firstGroup_ok.
  - apply firstGroup_ok.
  - exists m'. split_and!; [exact Hrun|exact Hg|exact Hna].
Defined.

Lemma openGroup_beside_active_witness :
  exists m',
    Stacks.openGroup registry RIGHT parseNothing parseNothing false "three" None
      None twoGroups = Returns (IDS twoGroups, m')
    /\ _groups m'
       = Some <$> (take 2 [0%nat; 1%nat] ++ IDS twoGroups :: drop 2 [0%nat; 1%nat])
    /\ _activeGroup m' = Some (IDS twoGroups).
Proof.
  destruct (openGroup_beside_active registry RIGHT parseNothing parseNothing false
              twoGroups [0%nat; 1%nat] "three" None)
    as (m' & Hrun & _ & _ & _ & _ & Hbeside & _ & Hact).
  - reflexivity.
  - exact twoGroups_list.
  - exact two_distinct.
  - exists m'. split_and!; [exact Hrun| |].
    + apply (Hbeside 1%nat 1%nat); reflexivity.
    + apply (Hact 1%nat). reflexivity.
Defined.

Lemma moveGroup_position_witness :
  exists m' ids',
    Stacks.moveGroup registry RIGHT parseNothing parseNothing false (Some 0%nat) 1
      twoGroups = Returns (tt, m')
    /\ _groups m' = Some <$> ids'
    /\ ids' !! Nat.min (Z.to_nat 1) (length [0%nat; 1%nat] - 1) = Some 0%nat
    /\ ids' ≡ₚ [0%nat; 1%nat]
    /\ heap m' = heap twoGroups /\ _activeGroup m' = _activeGroup twoGroups
    /\ fired m' = fired twoGroups
                  ++ [(GroupMoved, Some 0%nat); (ModelChanged, Some 0%nat)].
Proof.
  apply (moveGroup_position registry RIGHT parseNothing parseNothing false
           twoGroups [0%nat; 1%nat] 0%nat 0%nat 1).
  - reflexivity.
  - exact twoGroups_list.
  - exact two_distinct.
  - reflexivity.
  - lia.
Defined.

Lemma closed_editor_recorded_witness :
  exists m',
    Stacks.inGroup registry 0%nat (closeEditor (Some A) true) twoGroups
    = Returns (tt, m')
    /\ recentlyClosedEditors m'
       = if isPinned firstGroup (Some A)
         then match serialized registry A with
              | Some s => take 10 (recentlyClosedEditors twoGroups ++ [s])
              | None => recentlyClosedEditors twoGroups
              end
         else recentlyClosedEditors twoGroups.
Proof.
  apply (closed_editor_recorded registry twoGroups 0%nat firstGroup A true).
  - apply twoGroups_heap.
  - reflexivity.
  - vm_compute. discriminate.
Defined.

(** The close of the pinned [A] is recorded, the close of a preview is
    not. *)
Example closes_recorded :
  recentlyClosedEditors
    (exec (StacksChecks.inGroup 0%nat (closeEditor (Some A) true)) twoGroups)
  = [{| ser_id := "file"; ser_value := "a" |}]
  /\ recentlyClosedEditors
       (exec (StacksChecks.inGroup 0%nat (closeEditor (Some C) true))
          (exec (StacksChecks.inGroup 0%nat (openEditor RIGHT C None)) twoGroups))
     = [].
Proof. by vm_compute. Qed.

Lemma pop_returns_last_closed_witness :
  exists m1 m2,
    Stacks.inGroup registry 0%nat (closeEditor (Some A) true) twoGroups
    = Returns (tt, m1)
    /\ popLastClosedEditor registry m1
       = Returns (Some (factory_deserialize fileFactory "a"), m2)
    /\ recentlyClosedEditors m2 = recentlyClosedEditors twoGroups.
Proof.
  apply (pop_returns_last_closed registry twoGroups 0%nat firstGroup A true
           fileFactory "a").
  - apply twoGroups_heap.
  - reflexivity.
  - vm_compute. discriminate.
  - reflexivity.
  - reflexivity.
  - reflexivity.
  - vm_compute. lia.
Defined.

Lemma previous_after_next_witness :
  exists g' e',
    Stacks.next registry RIGHT parseNothing parseNothing false twoGroups
    = Returns (Some {| group := g'; editor := Some e' |}, twoGroups)
    /\ g' ∈ [0%nat; 1%nat]
    /\ forall m2, loaded m2 = true -> same_layout twoGroups m2 ->
         positioned m2 g' e' ->
         Stacks.previous registry RIGHT parseNothing parseNothing false m2
         = Returns (current twoGroups, m2).
Proof.
  apply (previous_after_next registry RIGHT parseNothing parseNothing false
           twoGroups [0%nat; 1%nat] 1%nat).
  - exact twoGroups_sound.
  - reflexivity.
  - apply elem_of_cons. right. apply list_elem_of_singleton. reflexivity.
Defined.

Lemma next_after_previous_witness :
  exists g' e',
    Stacks.previous registry RIGHT parseNothing parseNothing false twoGroups
    = Returns (Some {| group := g'; editor := Some e' |}, twoGroups)
    /\ g' ∈ [0%nat; 1%nat]
    /\ forall m2, loaded m2 = true -> same_layout twoGroups m2 ->
         positioned m2 g' e' ->
         Stacks.next registry RIGHT parseNothing parseNothing false m2
         = Returns (current twoGroups, m2).
Proof.
  apply (next_after_previous registry RIGHT parseNothing parseNothing false
           twoGroups [0%nat; 1%nat] 1%nat).
  - exact twoGroups_sound.
  - reflexivity.
  - apply elem_of_cons. right. apply list_elem_of_singleton. reflexivity.
Defined.

(** In [twoGroups] the active editor is [A], the first editor of the last
    group: [next] goes to [B] in the same group, [previous] to the last
    editor of the first group. Once [B] is active, [next] wraps around to
    the first editor of the first group. *)
Example next_wraps_around :
  Stacks.next registry RIGHT parseNothing parseNothing false twoGroups
  = Returns (Some {| group := 1%nat; editor := Some B |}, twoGroups)
  /\ Stacks.previous registry RIGHT parseNothing parseNothing false twoGroups
     = Returns (Some {| group := 0%nat; editor := Some A |}, twoGroups)
  /\ exists m',
       Stacks.next registry RIGHT parseNothing parseNothing false
         (exec (StacksChecks.inGroup 1%nat (Group.setActive (Some B))) twoGroups)
       = Returns (Some {| group := 0%nat; editor := Some A |}, m').
Proof.
  split_and!; [by vm_compute..|]. eexists. vm_compute. reflexivity.
Qed.

(** A new model on a storage. *)
Definition fresh (st : Storage) : Model TestInput := Stacks.create st 0%nat ∅.

(** One group without editors. *)
Definition oneEmptyGroup : Model TestInput :=
  exec (StacksChecks.openGroup "one" None) (fresh emptyStorage).

Lemma next_previous_without_position_witness :
  Stacks.next registry RIGHT parseNothing parseNothing false oneEmptyGroup
  = Returns (Some {| group := 0%nat; editor := None |}, oneEmptyGroup)
  /\ Stacks.previous registry RIGHT parseNothing parseNothing false oneEmptyGroup
     = Returns (Some {| group := 0%nat; editor := None |}, oneEmptyGroup).
Proof.
  destruct (next_previous_without_position registry RIGHT parseNothing
              parseNothing false oneEmptyGroup) as [_ Hempty].
  - reflexivity.
  - apply (Hempty 0%nat (Group.create 0%nat "one")); reflexivity.
Defined.

(** *** Stored models *)

(** A valid stored model: one group [a, b] with the preview [b] that was
    used last, and one recently closed editor. *)
Definition labelled : ISerializedEditorStacksModel :=
  {| ser_groups :=
       [{| ser_label := "one";
           ser_editors := [{| ser_id := "file"; ser_value := "a" |};
                           {| ser_id := "file"; ser_value := "b" |}];
           ser_mru := [1; 0]; ser_preview := Some 1 |}];
     ser_active := Some 0;
     ser_lastClosed := Some [{| ser_id := "file"; ser_value := "c" |}] |}.

(** A valid stored model with an editor of a type without factory. *)
Definition unknownType : ISerializedEditorStacksModel :=
  {| ser_groups :=
       [{| ser_label := "one";
           ser_editors := [{| ser_id := "file"; ser_value := "a" |};
                           {| ser_id := "untitled"; ser_value := "u" |}];
           ser_mru := [1; 0]; ser_preview := None |}];
     ser_active := Some 0;
     ser_lastClosed := None |}.

Definition parseSample (raw : string) : option ISerializedEditorStacksModel :=
  if String.eqb raw "labelled" then Some labelled
  else if String.eqb raw "unknown" then Some unknownType
  else None.

Definition storageOf (raw : string) : Storage :=
  {| editorStacks_model := Some raw; legacy_memento := None |}.

Lemma ensureLoaded_restores_witness :
  exists m',
    ensureLoaded registry RIGHT parseSample parseNothing false
      (fresh (storageOf "labelled")) = Returns (tt, m')
    /\ loaded m' = true
    /\ _groups m'
       = Some <$> seq (IDS (fresh (storageOf "labelled")))
                    (length (ser_groups labelled))
    /\ recentlyClosedEditors m' = default [] (ser_lastClosed labelled).
Proof.
  destruct (ensureLoaded_restores registry RIGHT parseSample parseNothing false
              (fresh (storageOf "labelled")) "labelled" labelled)
    as (m' & Hrun & Hl & Hg & _ & _ & _ & Hrc).
  - reflexivity.
  - reflexivity.
  - reflexivity.
  - reflexivity.
  - vm_compute. reflexivity.
  - intros [|i] d Hd.
    + injection Hd as <-. eexists. vm_compute. reflexivity.
    + destruct i; discriminate.
  - exists m'. split_and!; [exact Hrun|exact Hl|exact Hg|exact Hrc].
Defined.

(** The group that is restored from [labelled]. *)
Example restored_group :
  exists m',
    ensureLoaded registry RIGHT parseSample parseNothing false
      (fresh (storageOf "labelled")) = Returns (tt, m')
    /\ (editors <$> heap m' !! 0%nat) = Some [File 0 "a" true; File 0 "b" true]
    /\ (active <$> heap m' !! 0%nat) = Some (Some (File 0 "b" true))
    /\ _activeGroup m' = Some 0%nat.
Proof. eexists. split_and!; [vm_compute; reflexivity|reflexivity..]. Qed.

Lemma ensureLoaded_throws_without_factory_witness :
  ensureLoaded registry RIGHT parseSample parseNothing false
    (fresh (storageOf "unknown")) = Throws.
Proof.
  apply (ensureLoaded_throws_without_factory registry RIGHT parseSample
           parseNothing false (fresh (storageOf "unknown"))
           "unknown" unknownType 0%nat
           {| ser_label := "one";
              ser_editors := [{| ser_id := "file"; ser_value := "a" |};
                              {| ser_id := "untitled"; ser_value := "u" |}];
              ser_mru := [1; 0]; ser_preview := None |}
           {| ser_id := "untitled"; ser_value := "u" |}).
  - reflexivity.
  - reflexivity.
  - reflexivity.
  - reflexivity.
  - vm_compute. reflexivity.
  - reflexivity.
  - apply elem_of_cons. right. apply list_elem_of_singleton. reflexivity.
  - reflexivity.
  - intros j d' Hj. lia.
Defined.

Lemma twoGroups_labelled id :
  id ∈ [0%nat; 1%nat] ->
  exists o, heap twoGroups !! id = Some o /\ group_ok o /\ label o <> "".
Proof.
  intros Hid. apply elem_of_cons in Hid as [->|Hid].
  - exists firstGroup. split_and!; [apply twoGroups_heap|apply firstGroup_ok|].
    by vm_compute.
  - apply list_elem_of_singleton in Hid as ->.
    exists secondGroup. split_and!; [apply twoGroups_heap|apply secondGroup_ok|].
    by vm_compute.
Qed.

Lemma twoGroups_active :
  [0%nat; 1%nat] <> [] ->
  exists ag, _activeGroup twoGroups = Some ag /\ ag ∈ [0%nat; 1%nat].
Proof.
  intros _. exists 1%nat. split; [reflexivity|].
  apply elem_of_cons. right. apply list_elem_of_singleton. reflexivity.
Qed.

Lemma serialize_is_valid_witness :
  exists s,
    StacksSave.serialize registry twoGroups = Returns s /\ doValidate s = 0
    /\ ser_lastClosed s = Some (recentlyClosedEditors twoGroups).
Proof.
  destruct (serialize_is_valid registry twoGroups [0%nat; 1%nat])
    as (s & Hs & Hvalid & Hlast & _).
  - exact twoGroups_list.
  - cbn [length]. lia.
  - exact twoGroups_labelled.
  - exact twoGroups_active.
  - exists s. split_and!; [exact Hs|exact Hvalid|exact Hlast].
Defined.

Lemma closeGroups_leaves_except_witness :
  exists m',
    Stacks.closeGroups registry RIGHT parseNothing parseNothing false (Some 0%nat)
      twoGroups = Returns (tt, m')
    /\ _groups m' = Some <$> kept (Some 0%nat) [0%nat; 1%nat]
    /\ _activeGroup m' = head (kept (Some 0%nat) [0%nat; 1%nat]).
Proof.
  destruct (closeGroups_leaves_except registry RIGHT parseNothing parseNothing
              false twoGroups [0%nat; 1%nat] 1%nat (Some 0%nat))
    as (m' & Hrun & Hg & Ha & _).
  - reflexivity.
  - exact twoGroups_groups_ok.
  - reflexivity.
  - apply elem_of_cons. right. apply list_elem_of_singleton. reflexivity.
  - exists m'. split_and!; [exact Hrun|exact Hg|exact Ha].
Defined.

(** [closeGroups] without exception leaves no group, [closeGroups] of the
    first group leaves it alone and active. *)
Example closeGroups_of_two :
  _groups (exec (Stacks.closeGroups registry RIGHT parseNothing parseNothing
                   false None) twoGroups) = []
  /\ _groups (exec (Stacks.closeGroups registry RIGHT parseNothing parseNothing
                      false (Some 0%nat)) twoGroups) = [Some 0%nat]
  /\ _activeGroup (exec (Stacks.closeGroups registry RIGHT parseNothing
                           parseNothing false (Some 0%nat)) twoGroups)
     = Some 0%nat.
Proof. by vm_compute. Qed.

(** *** The legacy state *)

Definition legacyStorage : Storage :=
  {| editorStacks_model := None; legacy_memento := Some "legacy" |}.

Definition legacyEditors : list ISerializedEditorInput :=
  [{| ser_id := "file"; ser_value := "a" |};
   {| ser_id := "file"; ser_value := "b" |}].

Definition parseLegacy (raw : string) : option (list ISerializedEditorInput) :=
  if String.eqb raw "legacy" then Some legacyEditors else None.

Lemma ensureLoaded_migrates_witness :
  exists m',
    ensureLoaded registry RIGHT parseNothing parseLegacy false
      (fresh legacyStorage) = Returns (tt, m')
    /\ loaded m' = true
    /\ _groups m'
       = Some <$> seq (IDS (fresh legacyStorage))
                    (Nat.min 3 (length [File 0 "a" true; File 0 "b" true]))
    /\ legacy_memento (storage m') = None.
Proof.
  destruct (ensureLoaded_migrates registry RIGHT parseNothing parseLegacy false
              (fresh legacyStorage) "legacy" legacyEditors
              [File 0 "a" true; File 0 "b" true])
    as (m' & Hrun & Hl & Hg & _ & _ & Hst & _).
  - reflexivity.
  - reflexivity.
  - reflexivity.
  - reflexivity.
  - reflexivity.
  - repeat constructor; exists fileFactory; split; reflexivity.
  - reflexivity.
  - reflexivity.
  - exists m'. split_and!; [exact Hrun|exact Hl|exact Hg|exact Hst].
Defined.

(** The two migrated groups, the second one active. *)
Example migrated_groups :
  exists m',
    ensureLoaded registry RIGHT parseNothing parseLegacy false
      (fresh legacyStorage) = Returns (tt, m')
    /\ _groups m' = [Some 0%nat; Some 1%nat] /\ _activeGroup m' = Some 1%nat
    /\ heap m' !! 1%nat = Some (migrated 1%nat (File 0 "b" true)).
Proof. eexists. split_and!; [vm_compute; reflexivity|reflexivity..]. Qed.

Lemma ensureLoaded_resets_on_failed_migration_witness :
  exists m',
    ensureLoaded registry RIGHT parseNothing parseNothing false
      (fresh legacyStorage) = Returns (tt, m')
    /\ loaded m' = true /\ _groups m' = [] /\ _activeGroup m' = None
    /\ groupToIdentifier m' = ∅ /\ recentlyClosedEditors m' = []
    /\ storage m' = storage (fresh legacyStorage)
    /\ heap m' = heap (fresh legacyStorage)
    /\ IDS m' = IDS (fresh legacyStorage).
Proof.
  apply (ensureLoaded_resets_on_failed_migration registry RIGHT parseNothing
           parseNothing false (fresh legacyStorage) "legacy").
  - reflexivity.
  - reflexivity.
  - reflexivity.
  - reflexivity.
  - left. reflexivity.
Defined.

(** *** Saving and loading again *)

Definition stringifySample (s : ISerializedEditorStacksModel) : string := "saved".

(** [JSON.parse] of what [save] wrote for [twoGroups]. *)
Definition parseSaved (raw : string) : option ISerializedEditorStacksModel :=
  match StacksSave.serialize registry twoGroups with
  | Returns s => if String.eqb raw "saved" then Some s else None
  | _ => None
  end.

Lemma save_then_load_witness :
  exists m1,
    StacksSave.save registry stringifySample twoGroups = Returns (tt, m1)
    /\ forall m0, loaded m0 = false -> storage m0 = storage m1 ->
       exists m',
         ensureLoaded registry RIGHT parseSaved parseNothing false m0
         = Returns (tt, m')
         /\ recentlyClosedEditors m' = recentlyClosedEditors twoGroups
         /\ _groups m'
            = Some <$> seq (IDS m0)
                         (length (StacksSave.stored_groups registry twoGroups
                                    [0%nat; 1%nat])).
Proof.
  destruct (save_then_load registry RIGHT parseSaved parseNothing false
              stringifySample twoGroups [0%nat; 1%nat])
    as (m1 & Hsave & Hload).
  - exact registry_round_trip.
  - reflexivity.
  - intros s Hs. split; [discriminate|].
    unfold parseSaved. rewrite Hs. reflexivity.
  - exact twoGroups_list.
  - cbn [length]. lia.
  - exact twoGroups_labelled.
  - exact twoGroups_active.
  - exists m1. split; [exact Hsave|].
    intros m0 Hl0 Hst0.
    destruct (Hload m0 Hl0 Hst0) as (m' & Hrun & Hrc & Hg & _).
    exists m'. split_and!; [exact Hrun|exact Hrc|exact Hg].
Defined.

(** A new model on the storage that [save] of [twoGroups] leaves restores
    both groups with their editors. *)
Example saved_and_loaded :
  exists m1 m',
    StacksSave.save registry stringifySample twoGroups = Returns (tt, m1)
    /\ ensureLoaded registry RIGHT parseSaved parseNothing false
         (fresh (storage m1)) = Returns (tt, m')
    /\ (editors <$> heap m' !! 0%nat) = Some [File 0 "a" true]
    /\ (editors <$> heap m' !! 1%nat) = Some [File 0 "a" true; File 0 "b" true]
    /\ _activeGroup m' = Some 1%nat.
Proof.
  eexists _, _. split_and!; [vm_compute; reflexivity|vm_compute; reflexivity|
                             reflexivity..].
Qed.

(** *** C9 *)




(** The ring of [twoGroups], computed. *)
Example ring_of_twoGroups :
  flattened twoGroups
  = [{| group := 0%nat; editor := Some A |};
     {| group := 1%nat; editor := Some A |};
     {| group := 1%nat; editor := Some B |}]
  /\ current twoGroups = Some {| group := 1%nat; editor := Some A |}
  /\ ring_next (flattened twoGroups) 1 = Some {| group := 1%nat; editor := Some B |}
  /\ ring_previous (flattened twoGroups) 1
     = Some {| group := 0%nat; editor := Some A |}
  /\ ring_next (flattened twoGroups) 2 = Some {| group := 0%nat; editor := Some A |}
  /\ ring_previous (flattened twoGroups) 0
     = Some {| group := 1%nat; editor := Some B |}.
Proof. split_and!; by vm_compute. Qed.

End StacksMoreChecks.
